(** * relaypoint: route matcher, load balancers, token buckets and the
      proxy pipeline, embedded in Rocq.

    The Go sources are embedded shallowly: pure helpers become functions,
    objects that the code reaches through pointers live in explicit stores,
    and the calls of the Go standard library that the code relies on
    ([strings.ToLower], [sort.Slice], [float64] arithmetic, [time.Now])
    are taken through small interfaces with the laws the proofs need. *)

From Stdlib Require Import ZArith QArith Lia String Ascii List Permutation Sorted.
From stdpp Require Import base option list sorting gmap strings.

Local Open Scope string_scope.
Local Open Scope Z_scope.

(** ** The part of Go's [strings] package that the router uses *)

Module GoStrings.

(** Go strings are byte sequences; so are Rocq's. *)

(** [strings.HasPrefix(s, p)] *)
Fixpoint HasPrefix (s p : string) : bool :=
  match p, s with
  | EmptyString, _ => true
  | String _ _, EmptyString => false
  | String b p', String a s' => if Ascii.eqb a b then HasPrefix s' p' else false
  end.

(** [strings.TrimPrefix(s, p)]: [s] without the leading [p], or [s]. *)
Fixpoint dropPrefix (s p : string) : option string :=
  match p, s with
  | EmptyString, _ => Some s
  | String _ _, EmptyString => None
  | String b p', String a s' => if Ascii.eqb a b then dropPrefix s' p' else None
  end.

Definition TrimPrefix (s p : string) : string :=
  match dropPrefix s p with Some r => r | None => s end.

Fixpoint rev_onto (s acc : string) : string :=
  match s with
  | EmptyString => acc
  | String a s' => rev_onto s' (String a acc)
  end.

Definition reversed (s : string) : string := rev_onto s EmptyString.

(** [strings.HasSuffix(s, p)] *)
Definition HasSuffix (s p : string) : bool := HasPrefix (reversed s) (reversed p).

(** [strings.TrimSuffix(s, p)] *)
Definition TrimSuffix (s p : string) : string :=
  match dropPrefix (reversed s) (reversed p) with
  | Some r => reversed r
  | None => s
  end.

(** [strings.TrimLeft(s, string(c))] for a one-byte cutset *)
Fixpoint TrimLeft (c : ascii) (s : string) : string :=
  match s with
  | EmptyString => EmptyString
  | String a s' => if Ascii.eqb a c then TrimLeft c s' else s
  end.

Definition TrimRight (c : ascii) (s : string) : string :=
  reversed (TrimLeft c (reversed s)).

(** [strings.Trim(s, string(c))] *)
Definition Trim (c : ascii) (s : string) : string := TrimRight c (TrimLeft c s).

(** [strings.Split(s, string(c))]: one more piece than there are
    separators, so the empty string splits into one empty piece. *)
Fixpoint Split (c : ascii) (s : string) : list string :=
  match s with
  | EmptyString => [EmptyString]
  | String a s' =>
      if Ascii.eqb a c then EmptyString :: Split c s'
      else match Split c s' with
           | [] => [String a EmptyString]
           | h :: t => String a h :: t
           end
  end.

(** [strings.Join(parts, sep)] *)
Fixpoint Join (parts : list string) (sep : string) : string :=
  match parts with
  | [] => EmptyString
  | [x] => x
  | x :: rest => x ++ sep ++ Join rest sep
  end.

(** [s[:strings.Index(s, string(c))]] when the byte occurs, else [s]:
    what [Match] does to drop the port of a host. *)
Fixpoint cutAt (c : ascii) (s : string) : string :=
  match s with
  | EmptyString => EmptyString
  | String a s' => if Ascii.eqb a c then EmptyString else String a (cutAt c s')
  end.

(** [s[1:]]; Go panics on the empty string, which no caller passes. *)
Definition tail (s : string) : string :=
  match s with EmptyString => EmptyString | String _ s' => s' end.

(** [s[1 : len(s)-1]] for a string of at least two bytes *)
Definition inner (s : string) : string := reversed (tail (reversed (tail s))).

(** Case mapping is Unicode-aware in Go.  The development is parametric
    in it; [asciiCase] below is its restriction to ASCII text. *)
Class CaseMapping := {
  ToLower : string -> string;
  ToUpper : string -> string
}.

Definition lowerByte (a : ascii) : ascii :=
  let n := nat_of_ascii a in
  if ((65 <=? n)%nat && (n <=? 90)%nat)%bool then ascii_of_nat (n + 32) else a.

Definition upperByte (a : ascii) : ascii :=
  let n := nat_of_ascii a in
  if ((97 <=? n)%nat && (n <=? 122)%nat)%bool then ascii_of_nat (n - 32) else a.

Fixpoint mapBytes (f : ascii -> ascii) (s : string) : string :=
  match s with
  | EmptyString => EmptyString
  | String a s' => String (f a) (mapBytes f s')
  end.

#[export] Instance asciiCase : CaseMapping :=
  {| ToLower := mapBytes lowerByte; ToUpper := mapBytes upperByte |}.

End GoStrings.

Import GoStrings.

(** ** [sort.Slice]

    [sort.Slice] sorts in place and promises no stability.  The router is
    parametric in the sorting function; [SortLaws] (stated with the
    theorems) is the contract the proofs use, and [insertionSort], the
    algorithm Go runs on slices of at most twelve elements, is the
    instance used for evaluation. *)

Class Sorter := { sortSlice : forall A : Type, (A -> A -> bool) -> list A -> list A }.
Arguments sortSlice {_ _} less data.

(** One pass of Go's [insertionSortLessFunc]: the new element moves left
    while it is less than its left neighbour.  [sorted_rev] is the sorted
    part, last element first. *)
Fixpoint sinkLeft {A} (less : A -> A -> bool) (x : A) (sorted_rev : list A) : list A :=
  match sorted_rev with
  | [] => [x]
  | y :: rest => if less x y then y :: sinkLeft less x rest else x :: y :: rest
  end.

Definition insertionSort {A} (less : A -> A -> bool) (data : list A) : list A :=
  rev (fold_left (fun acc x => sinkLeft less x acc) data []).

#[export] Instance goInsertionSort : Sorter := {| sortSlice := @insertionSort |}.

(** ** Configuration records (package [config]), fields the core reads *)

Module Config.

Record RouteRateLimit := {
  RequestsPerSecond : Z;
  BurstSize : Z;
  Enabled : bool
}.

Record Route := {
  Name : string;
  Host : string;
  Path : string;
  Methods : list string;
  Upstream : string;
  StripPath : bool;
  Headers : gmap string string;
  RateLimit : option RouteRateLimit
}.

Record Target := {
  targetURL : string;         (* [Target.URL] *)
  targetWeight : Z            (* [Target.Weight] *)
}.

Record UpstreamConfig := {   (* type [Upstream] *)
  upstreamName : string;      (* [Upstream.Name] *)
  Targets : list Target;
  LoadBalance : string
}.

Record RateLimitConfig := {
  limitsEnabled : bool;       (* [RateLimitConfig.Enabled] *)
  DefaultRPS : Z;
  DefaultBurst : Z;
  PerIP : bool;
  PerAPIKey : bool
}.

Record APIKey := {
  Key : string;
  keyName : string;           (* [APIKey.Name] *)
  keyRequestsPerSecond : Z;   (* [APIKey.RequestsPerSecond] *)
  keyBurstSize : Z;           (* [APIKey.BurstSize] *)
  keyEnabled : bool           (* [APIKey.Enabled] *)
}.

Record Config := {
  Upstreams : list UpstreamConfig;
  Routes : list Route;
  RateLimits : RateLimitConfig;   (* field [RateLimit] *)
  APIKeys : list APIKey
}.

End Config.

(** ** Package [router] *)

Module Router.

Record segment := {
  value : string;
  isParam : bool;
  isWild : bool
}.

(** A Go map value: [None] is the nil map. *)
Definition params := option (gmap string string).

Record Route := {
  Name : string;
  Host : string;
  Path : string;
  Pattern : string;
  Methods : gmap string bool;
  Upstream : string;
  StripPath : bool;
  Headers : gmap string string;
  RateLimit : option Config.RouteRateLimit;
  PathParams : params
}.

(** [*Route]: an index into the cells that hold [Route] objects. *)
Definition ptr := nat.

Record routeEntry := {
  route : ptr;
  segments : list segment;
  isWildcard : bool;
  priority : Z
}.

Record Router := {
  routes : list routeEntry;
  defaultRoute : option routeEntry
}.

(** The memory [Match] runs against: the router object behind the
    receiver and the [Route] objects reachable through pointers. *)
Record Memory := {
  theRouter : Router;
  cells : list Route
}.

(** The parts of an [*http.Request] that the gateway reads.  The last
    two fields stand for what [getClientIP] and the header and query
    lookups of [extractAPIKey] compute from the request. *)
Record Request := {
  reqHost : string;           (* [req.Host] *)
  reqPath : string;           (* [req.URL.Path] *)
  reqMethod : string;         (* [req.Method] *)
  reqRawQuery : string;       (* [req.URL.RawQuery] *)
  reqClientIP : string;
  reqAPIKey : string
}.

Section WithLibraries.
Context `{CaseMapping} `{Sorter}.

(** The [switch] in the loop of [parseSegments]: the segment one piece of
the pattern compiles to *)
Definition parsePart (part : string) : segment :=
  if (String.eqb part "*" || String.eqb part "**")%bool then
    {| value := part; isParam := false; isWild := true |}
  else if HasPrefix part ":" then
    {| value := tail part; isParam := true; isWild := false |}
  else if (HasPrefix part "{" && HasSuffix part "}")%bool then
    {| value := inner part; isParam := true; isWild := false |}
  else
    {| value := ToLower part; isParam := false; isWild := false |}.

(** [parseSegments]: no pattern is rejected. *)
Definition parseSegments (path : string) : list segment :=
  let path := Trim "/" path in
  if String.eqb path "" then []
  else map parsePart (Split "/" path).

(** [calculatePriority] *)
Definition calculatePriority (segments : list segment) : Z :=
  fold_left
    (fun priority seg =>
       if isWild seg then priority - 5
       else if isParam seg then priority - 2
       else priority + 3)
    segments (Z.of_nat (length segments) * 10).

(** [hasWildcard] *)
Definition hasWildcard (segments : list segment) : bool :=
  existsb isWild segments.

(** [matchWildcardHost] *)
Definition matchWildcardHost (pattern host : string) : bool :=
  if negb (HasPrefix pattern "*.") then false
  else HasSuffix host (tail pattern).

(** The loop of [matchPath]; [parts] is [pathParts[pi:]] and [segs] is
    [segments[si:]]. *)
Fixpoint matchLoop (segs : list segment) (parts : list string)
         (bound : gmap string string) : params * bool :=
  match segs with
  | [] => (Some bound, bool_decide (parts = []))
  | seg :: segs' =>
      if isWild seg then
        if String.eqb (value seg) "**" then
          (Some (match parts with
                 | [] => bound
                 | _ :: _ => <["**" := Join parts "/"]> bound
                 end), true)
        else
          match parts with
          | [] => (None, false)
          | _ :: parts' => matchLoop segs' parts' bound
          end
      else if isParam seg then
        match parts with
        | [] => (None, false)
        | part :: parts' => matchLoop segs' parts' (<[value seg := part]> bound)
        end
      else
        match parts with
        | [] => (None, false)
        | part :: parts' =>
            if String.eqb (ToLower part) (value seg) then matchLoop segs' parts' bound
            else (None, false)
        end
  end.

(** [matchPath] *)
Definition matchPath (segments : list segment) (path : string) : params * bool :=
  let path := Trim "/" path in
  match segments with
  | [] => (None, String.eqb path "")
  | _ :: _ =>
      let pathParts := if String.eqb path "" then [] else Split "/" path in
      matchLoop segments pathParts ∅
  end.

(** Reading a [map[string]bool]: a missing key reads as [false]. *)
Definition allowed (methods : gmap string bool) (m : string) : bool :=
  default false (methods !! m).

(** The three tests of one iteration of [Match] on an entry whose route
    object is [rt]; [Some params] when none of them hits [continue]. *)
Definition tryEntry (rt : Route) (e : routeEntry) (host path method : string)
  : option params :=
  if (negb (String.eqb (Host rt) "") && negb (String.eqb (Host rt) host)
      && negb (matchWildcardHost (Host rt) host))%bool then None
  else if (negb (allowed (Methods rt) "*") && negb (allowed (Methods rt) method))%bool
  then None
  else
    let '(ps, ok) := matchPath (segments e) path in
    if ok then Some ps else None.

(** What [Match] returns *)
Inductive MatchResult :=
| Matched (p : ptr)   (* pointer to the copy made for this call *)
| NoMatch             (* nil *)
| Fault.              (* dereference of a pointer that holds no object *)

(** [matched := *entry.route; matched.PathParams = params] *)
Definition withParams (rt : Route) (ps : params) : Route :=
  {| Name := Name rt; Host := Host rt; Path := Path rt; Pattern := Pattern rt;
     Methods := Methods rt; Upstream := Upstream rt; StripPath := StripPath rt;
     Headers := Headers rt; RateLimit := RateLimit rt; PathParams := ps |}.

(** The loop of [Match] over [r.routes]; the first entry that passes
the three tests is copied into a fresh cell. *)
Fixpoint matchEntries (entries : list routeEntry) (host path method : string)
         (m : Memory) : MatchResult * Memory :=
  match entries with
  | [] => (NoMatch, m)
  | entry :: rest =>
      match cells m !! route entry with
      | None => (Fault, m)
      | Some rt =>
          match tryEntry rt entry host path method with
          | None => matchEntries rest host path method m
          | Some ps =>
              (* matched := *entry.route; matched.PathParams = params;
                 return &matched *)
              (Matched (length (cells m)),
               {| theRouter := theRouter m;
                  cells := cells m ++ [withParams rt ps] |})
          end
      end
  end.

(** [Router.Match] *)
Definition Match (m : Memory) (req : Request) : MatchResult * Memory :=
  let host := cutAt ":" (ToLower (reqHost req)) in
  matchEntries (routes (theRouter m)) host (reqPath req) (reqMethod req) m.

(** The method set [New] builds for a route *)
Definition methodSet (ms : list string) : gmap string bool :=
  match ms with
  | [] => {[ "*" := true ]}
  | _ :: _ => fold_left (fun acc m => <[ToUpper m := true]> acc) ms ∅
  end.

(** The [Route] object [New] allocates for a configured route *)
Definition newRoute (cfg : Config.Route) : Route :=
  {| Name := Config.Name cfg;
     Host := ToLower (Config.Host cfg);
     Path := Config.Path cfg;
     Pattern := Config.Path cfg;
     Methods := methodSet (Config.Methods cfg);
     Upstream := Config.Upstream cfg;
     StripPath := Config.StripPath cfg;
     Headers := Config.Headers cfg;
     RateLimit := Config.RateLimit cfg;
     PathParams := None |}.

(** The entry [New] appends for it; [at_] points to the route object. *)
Definition newEntry (at_ : ptr) (cfg : Config.Route) : routeEntry :=
  let segs := parseSegments (Config.Path cfg) in
  {| route := at_;
     segments := segs;
     isWildcard := hasWildcard segs;
     priority := calculatePriority segs |}.

(** The construction loop of [New]: one route object and one entry per
    configured route, in order.  [next] is the address of the next
    fresh cell. *)
Fixpoint buildEntries (cfgs : list Config.Route) (next : ptr) : list routeEntry :=
  match cfgs with
  | [] => []
  | cfg :: rest => newEntry next cfg :: buildEntries rest (S next)
  end.

(** [router.New]: the entries, sorted by descending priority, and the
route objects they point to. *)
Definition New (cfgs : list Config.Route) : Memory :=
  {| theRouter :=
       {| routes := sortSlice (fun a b => priority a >? priority b)
                              (buildEntries cfgs 0%nat);
          defaultRoute := None |};
     cells := map newRoute cfgs |}.

(** [Route.StripPrefix] *)
Definition StripPrefix (r : Route) (path : string) : string :=
  if negb (StripPath r) then path
  else
    let segments := parseSegments (Pattern r) in
    let prefix :=
      (fix walk (segs : list segment) (prefix : string) : string :=
         match segs with
         | [] => prefix
         | seg :: segs' =>
             if (isWild seg || isParam seg)%bool then prefix
             else walk segs' (prefix ++ value seg ++ "/")
         end) segments "/" in
    let prefix := TrimSuffix prefix "/" in
    if String.eqb prefix "/" then path
    else TrimPrefix path prefix.

End WithLibraries.

End Router.

(** ** Package [loadbalancer] *)

Module LoadBalancer.

(** The parts of a [*url.URL] that forwarding reads *)
Record GoURL := {
  urlScheme : string;
  urlHost : string;
  urlPath : string
}.

Record Target := {
  URL : GoURL;
  Weight : Z;
  Healthy : bool;        (* atomic.Bool *)
  Connections : Z        (* atomic.Int64 *)
}.

(** A balancer keeps the [[]*Target] it was built with and never
    reorders it, so a [*Target] it returns is represented by the position
    of that target in the slice; [None] is the nil pointer. *)
Definition targetRef := option nat.

Definition setHealthy (h : bool) (t : Target) : Target :=
  {| URL := URL t; Weight := Weight t; Healthy := h; Connections := Connections t |}.

Definition addConnections (d : Z) (t : Target) : Target :=
  {| URL := URL t; Weight := Weight t; Healthy := Healthy t;
     Connections := Connections t + d |}.

(** [target.Healthy.Load()] for the target at position [i] *)
Definition healthyAt (targets : list Target) (i : nat) : bool :=
  match targets !! i with
  | Some t => Healthy t
  | None => false
  end.

(** [MarkHealthy(target, healthy)]: one atomic store on that target *)
Definition markAt (targets : list Target) (i : nat) (h : bool) : list Target :=
  alter (setHealthy h) i targets.

(** *** Round robin *)

Record RoundRobin := {
  rrTargets : list Target;
  rrCurrent : Z            (* atomic.Uint64 *)
}.

Definition uint64Modulus : Z := 2 ^ 64.

(** [NewRoundRobin] *)
Definition NewRoundRobin (targets : list Target) : RoundRobin :=
  {| rrTargets := map (setHealthy true) targets; rrCurrent := 0 |}.

(** The [for i := 0; i < n; i++] loop of [Next], [left] iterations to go. *)
Fixpoint rrScan (left : nat) (rr : RoundRobin) : targetRef * RoundRobin :=
  match left with
  | O => (Some 0%nat, rr)
  | S left' =>
      let n := Z.of_nat (length (rrTargets rr)) in
      let counter := (rrCurrent rr + 1) mod uint64Modulus in
      let idx := Z.to_nat (counter mod n) in
      let rr' := {| rrTargets := rrTargets rr; rrCurrent := counter |} in
      if healthyAt (rrTargets rr) idx then (Some idx, rr')
      else rrScan left' rr'
  end.

(** [RoundRobin.Next] *)
Definition rrNext (rr : RoundRobin) : targetRef * RoundRobin :=
  match rrTargets rr with
  | [] => (None, rr)
  | _ :: _ => rrScan (length (rrTargets rr)) rr
  end.

(** *** Least connections *)

Record LeastConn := { lcTargets : list Target }.

(** [NewLeastConn] *)
Definition NewLeastConn (targets : list Target) : LeastConn :=
  {| lcTargets := map (setHealthy true) targets |}.

(** The scan of [LeastConn.Next]; [i] is the position of the head of
    [ts] in the slice. *)
Fixpoint lcScan (ts : list Target) (i : nat) (best : targetRef) (minConn : Z)
  : targetRef :=
  match ts with
  | [] => best
  | t :: rest =>
      if negb (Healthy t) then lcScan rest (S i) best minConn
      else
        let conn := Connections t in
        if ((minConn <? 0) || (conn <? minConn))%bool
        then lcScan rest (S i) (Some i) conn
        else lcScan rest (S i) best minConn
  end.

(** [LeastConn.Next] *)
Definition lcNext (lc : LeastConn) : targetRef :=
  match lcTargets lc with
  | [] => None
  | _ :: _ =>
      match lcScan (lcTargets lc) 0%nat None (-1) with
      | None => Some 0%nat
      | Some i => Some i
      end
  end.

(** *** Random *)

Record Random := { rndTargets : list Target }.

(** [NewRandom] *)
Definition NewRandom (targets : list Target) : Random :=
  {| rndTargets := map (setHealthy true) targets |}.

(** Positions of the healthy targets, in slice order *)
Fixpoint healthyPositions (ts : list Target) (i : nat) : list nat :=
  match ts with
  | [] => []
  | t :: rest =>
      if Healthy t then i :: healthyPositions rest (S i)
      else healthyPositions rest (S i)
  end.

(** [draw] stands for the generator behind [rand.Intn]: [rand.Intn(n)]
    is [draw mod n]. *)
Definition rndNext (r : Random) (draw : nat) : targetRef :=
  match rndTargets r with
  | [] => None
  | _ :: _ =>
      let healthy := healthyPositions (rndTargets r) 0%nat in
      match healthy with
      | [] => Some (draw mod length (rndTargets r))%nat
      | _ :: _ => healthy !! (draw mod length healthy)%nat
      end
  end.

(** *** Weighted round robin *)

Record WeightedRoundRobin := {
  targets : list Target;
  weights : list Z;
  currentWeight : Z;
  maxWeight : Z;
  gcd_ : Z;                 (* field [gcd] *)
  current : Z
}.

(** [gcd]: [for b != 0 { a, b = b, a%b }].  [Z.rem] is Go's [%]. *)
Fixpoint gcdLoop (fuel : nat) (a b : Z) : Z :=
  match fuel with
  | O => a
  | S fuel' => if b =? 0 then a else gcdLoop fuel' b (Z.rem a b)
  end.

(** [|a % b| < |b|], so the loop runs at most [|b| + 1] times. *)
Definition gcd (a b : Z) : Z := gcdLoop (S (Z.abs_nat b)) a b.

(** [gcdSlice] *)
Definition gcdSlice (nums : list Z) : Z :=
  match nums with
  | [] => 1
  | first :: rest => fold_left gcd rest first
  end.

(** The weight the constructor records for a target *)
Definition effectiveWeight (t : Target) : Z :=
  if Weight t <=? 0 then 1 else Weight t.

(** [NewWeightedRoundRobin] *)
Definition NewWeightedRoundRobin (ts : list Target) : WeightedRoundRobin :=
  let ws := map effectiveWeight ts in
  {| targets := map (setHealthy true) ts;
     weights := ws;
     currentWeight := 0;
     maxWeight := fold_left (fun mx w => if w >? mx then w else mx) ws 0;
     gcd_ := gcdSlice ws;
     current := -1 |}.

(** [wrr.weights[i]] *)
Definition weightAt (ws : list Z) (i : nat) : Z :=
  match ws !! i with Some w => w | None => 0 end.

(** One iteration of the [for { ... }] loop of [Next]: [inl] is a
    return, [inr] the state the next iteration starts from. *)
Definition wrrStep (w : WeightedRoundRobin)
  : (targetRef * WeightedRoundRobin) + WeightedRoundRobin :=
  let n := Z.of_nat (length (targets w)) in
  let cur := Z.rem (current w + 1) n in
  let cw :=
    if cur =? 0 then
      let cw' := currentWeight w - gcd_ w in
      if cw' <=? 0 then maxWeight w else cw'
    else currentWeight w in
  let w' := {| targets := targets w; weights := weights w; currentWeight := cw;
               maxWeight := maxWeight w; gcd_ := gcd_ w; current := cur |} in
  if ((weightAt (weights w) (Z.to_nat cur) >=? cw)
      && healthyAt (targets w) (Z.to_nat cur))%bool
  then inl (Some (Z.to_nat cur), w')
  else if ((cur =? 0) && (cw =? maxWeight w))%bool
  then inl (Some 0%nat, w')
  else inr w'.

(** The loop, cut after [fuel] iterations ([None]: still running). *)
Fixpoint wrrLoop (fuel : nat) (w : WeightedRoundRobin)
  : option (targetRef * WeightedRoundRobin) :=
  match fuel with
  | O => None
  | S fuel' =>
      match wrrStep w with
      | inl r => Some r
      | inr w' => wrrLoop fuel' w'
      end
  end.

(** Iterations after which the loop of a balancer with a positive [gcd]
    has returned: the rest of the current pass over the slice and one
    pass per decrement of [currentWeight] that stays positive. *)
Definition wrrBound (w : WeightedRoundRobin) : nat :=
  S (Z.to_nat (Z.of_nat (length (targets w)) - 1 - current w)
     + length (targets w) * Z.to_nat (currentWeight w)).

(** [WeightedRoundRobin.Next] *)
Definition wrrNext (w : WeightedRoundRobin)
  : option (targetRef * WeightedRoundRobin) :=
  match targets w with
  | [] => Some (None, w)
  | _ :: _ => wrrLoop (wrrBound w) w
  end.

(** *** The interface *)

Inductive LoadBalancer :=
| IsRoundRobin (rr : RoundRobin)
| IsLeastConn (lc : LeastConn)
| IsRandom (r : Random)
| IsWeightedRoundRobin (w : WeightedRoundRobin).

(** [loadbalancer.New] *)
Definition New (strategy : string) (ts : list Target) : LoadBalancer :=
  if String.eqb strategy "least_conn" then IsLeastConn (NewLeastConn ts)
  else if String.eqb strategy "random" then IsRandom (NewRandom ts)
  else if String.eqb strategy "weighted_round_robin"
  then IsWeightedRoundRobin (NewWeightedRoundRobin ts)
  else IsRoundRobin (NewRoundRobin ts).

(** [lb.Targets()] *)
Definition Targets (lb : LoadBalancer) : list Target :=
  match lb with
  | IsRoundRobin rr => rrTargets rr
  | IsLeastConn lc => lcTargets lc
  | IsRandom r => rndTargets r
  | IsWeightedRoundRobin w => targets w
  end.

(** [lb.Next()]; [None] when the weighted loop has not returned within
    its bound. *)
Definition Next (lb : LoadBalancer) (draw : nat)
  : option (targetRef * LoadBalancer) :=
  match lb with
  | IsRoundRobin rr =>
      let '(t, rr') := rrNext rr in Some (t, IsRoundRobin rr')
  | IsLeastConn lc => Some (lcNext lc, lb)
  | IsRandom r => Some (rndNext r draw, lb)
  | IsWeightedRoundRobin w =>
      match wrrNext w with
      | Some (t, w') => Some (t, IsWeightedRoundRobin w')
      | None => None
      end
  end.

(** The balancer with its targets' fields updated *)
Definition withTargets (lb : LoadBalancer) (ts : list Target) : LoadBalancer :=
  match lb with
  | IsRoundRobin rr => IsRoundRobin {| rrTargets := ts; rrCurrent := rrCurrent rr |}
  | IsLeastConn _ => IsLeastConn {| lcTargets := ts |}
  | IsRandom _ => IsRandom {| rndTargets := ts |}
  | IsWeightedRoundRobin w =>
      IsWeightedRoundRobin
        {| targets := ts; weights := weights w; currentWeight := currentWeight w;
           maxWeight := maxWeight w; gcd_ := gcd_ w; current := current w |}
  end.

(** [lb.MarkHealthy(target, healthy)] for the target at position [i] *)
Definition MarkHealthy (lb : LoadBalancer) (i : nat) (h : bool) : LoadBalancer :=
  withTargets lb (markAt (Targets lb) i h).

End LoadBalancer.

(** ** [float64] and [time]

    The token level is a [float64].  The limiter is written against the
    operations it uses; [Float64Laws] (with the theorems) lists the order
    facts about them that the proofs rely on, all of which hold of IEEE-754
    binary64 on the finite values the limiter produces, and of the exact
    rationals [exactArith] used for evaluation. *)

Class Float64 := {
  float64 : Type;
  fadd : float64 -> float64 -> float64;
  fsub : float64 -> float64 -> float64;
  fmul : float64 -> float64 -> float64;
  fgt : float64 -> float64 -> bool;        (* a > b *)
  fge : float64 -> float64 -> bool;        (* a >= b *)
  ofInt : Z -> float64;                    (* float64(n) *)
  Seconds : Z -> float64                   (* time.Duration(ns).Seconds() *)
}.

#[export] Instance exactArith : Float64 := {|
  float64 := Q;
  fadd := Qplus;
  fsub := Qminus;
  fmul := Qmult;
  fgt := fun a b => negb (Qle_bool a b);
  fge := fun a b => Qle_bool b a;
  ofInt := inject_Z;
  Seconds := fun ns => Qmake ns 1000000000
|}.

Module GoTime.

(** A [time.Time] is its reading of the monotonic clock in nanoseconds. *)
Definition Time := Z.

Definition minDuration : Z := - 2 ^ 63.
Definition maxDuration : Z := 2 ^ 63 - 1.

(** [t.Sub(u)]: the difference, saturated to the range of [Duration] *)
Definition Sub (t u : Time) : Z :=
  Z.max minDuration (Z.min maxDuration (t - u)).

(** The clock: the last reading and the amounts by which the coming
    readings advance it.  A reading never precedes an earlier one. *)
Record Clock := {
  lastReading : Time;
  advances : list N
}.

(** [time.Now()] *)
Definition Now (c : Clock) : Time * Clock :=
  match advances c with
  | [] => (lastReading c, c)
  | d :: rest =>
      let t := lastReading c + Z.of_N d in
      (t, {| lastReading := t; advances := rest |})
  end.

End GoTime.

(** ** Package [ratelimit] *)

Module RateLimit.
Import GoTime.

Section WithFloat.
Context `{Float64}.

Record TokenBucket := {
  tokens : float64;
  maxTokens : float64;
  refillRate : float64;
  lastRefill : Time
}.

(** [NewTokenBucket(rps, burst)]; [now] is the value of [time.Now()] *)
Definition NewTokenBucket (rps burst : Z) (now : Time) : TokenBucket :=
  {| tokens := ofInt burst;
     maxTokens := ofInt burst;
     refillRate := ofInt rps;
     lastRefill := now |}.

(** [tb.refill()] *)
Definition refill (tb : TokenBucket) (now : Time) : TokenBucket :=
  let elapsed := Seconds (Sub now (lastRefill tb)) in
  let tokens' := fadd (tokens tb) (fmul elapsed (refillRate tb)) in
  let tokens' := if fgt tokens' (maxTokens tb) then maxTokens tb else tokens' in
  {| tokens := tokens';
     maxTokens := maxTokens tb;
     refillRate := refillRate tb;
     lastRefill := now |}.

(** [tb.Allow()], the body run under [tb.mu] *)
Definition bucketAllow (tb : TokenBucket) (now : Time) : bool * TokenBucket :=
  let tb := refill tb now in
  if fge (tokens tb) (ofInt 1) then
    (true, {| tokens := fsub (tokens tb) (ofInt 1);
              maxTokens := maxTokens tb;
              refillRate := refillRate tb;
              lastRefill := lastRefill tb |})
  else (false, tb).

Record RateLimiter := {
  buckets : gmap string TokenBucket;
  defaultRPS : Z;
  defaultBurst : Z
}.

Definition withBuckets (rl : RateLimiter) (bs : gmap string TokenBucket)
  : RateLimiter :=
  {| buckets := bs; defaultRPS := defaultRPS rl; defaultBurst := defaultBurst rl |}.

(** [NewRateLimiter]; the cleanup goroutine is not modelled. *)
Definition NewRateLimiter (rps burst : Z) : RateLimiter :=
  {| buckets := ∅; defaultRPS := rps; defaultBurst := burst |}.

(** [AllowWithLimits]: look the bucket up, install a fresh one when the
    key is new, then ask the bucket. *)
Definition AllowWithLimits (rl : RateLimiter) (c : Clock) (key : string)
           (rps burst : Z) : bool * RateLimiter * Clock :=
  let '(bucket, c) :=
    match buckets rl !! key with
    | Some bucket => (bucket, c)
    | None =>
        let '(now, c) := Now c in
        (NewTokenBucket rps burst now, c)
    end in
  let '(now, c) := Now c in
  let '(ok, bucket) := bucketAllow bucket now in
  (ok, withBuckets rl (<[key := bucket]> (buckets rl)), c).

(** [RateLimiter.Allow] *)
Definition Allow (rl : RateLimiter) (c : Clock) (key : string)
  : bool * RateLimiter * Clock :=
  AllowWithLimits rl c key (defaultRPS rl) (defaultBurst rl).

(** [RateLimiter.SetLimits] *)
Definition SetLimits (rl : RateLimiter) (c : Clock) (key : string)
           (rps burst : Z) : RateLimiter * Clock :=
  let '(now, c) := Now c in
  (withBuckets rl (<[key := NewTokenBucket rps burst now]> (buckets rl)), c).

End WithFloat.

End RateLimit.

(** ** Package [proxy] *)

Module Proxy.
Import GoTime.

(** What the handler asks of the metrics registry and the usage
    tracker, in call order. *)
Inductive MetricCall :=
| RecordError (route errorType : string)
| RecordRateLimitHit (route limitType : string)
| InFlightRequests (route : string)
| InFlightDone (route : string)
| RecordRequest (route method : string) (status : Z) (duration : Z)
| RecordUpstreamDuration (upstream : string) (duration : Z)
| UsageRecordRequest (key : string) (duration : Z) (isError : bool)
| RecordAPIKeyRequest (keyName : string) (status : Z).

(** The [http.ResponseWriter]: status 0 until a header is written. *)
Record ResponseWriter := {
  respHeader : gmap string string;
  respStatus : Z;
  respBody : string
}.

Definition freshWriter : ResponseWriter :=
  {| respHeader := ∅; respStatus := 0; respBody := "" |}.

Definition setHeader (w : ResponseWriter) (k v : string) : ResponseWriter :=
  {| respHeader := <[k := v]> (respHeader w);
     respStatus := respStatus w; respBody := respBody w |}.

(** [http.Error(w, msg, code)] *)
Definition httpError (w : ResponseWriter) (msg : string) (code : Z) : ResponseWriter :=
  {| respHeader :=
       <["X-Content-Type-Options" := "nosniff"]>
         (<["Content-Type" := "text/plain; charset=utf-8"]> (respHeader w));
     respStatus := code;
     respBody := (msg ++ String (ascii_of_nat 10) "")%string |}.

Definition StatusNotFound : Z := 404.
Definition StatusTooManyRequests : Z := 429.
Definition StatusBadGateway : Z := 502.
Definition StatusServiceUnavailable : Z := 503.

(** What [httpClient.Do] can come back with *)
Inductive RoundTrip :=
| Answer (status : Z) (body : string)
| ClientGone             (* error with [ctx.Err() == context.Canceled] *)
| TransportError.        (* any other error *)

(** [singleJoiningSlash] *)
Definition singleJoiningSlash (a b : string) : string :=
  let aslash := HasSuffix a "/" in
  let bslash := HasPrefix b "/" in
  if (aslash && bslash)%bool then (a ++ tail b)%string
  else if (negb aslash && negb bslash)%bool then (a ++ "/" ++ b)%string
  else (a ++ b)%string.

Section WithLibraries.
Context `{CaseMapping} `{Sorter} `{Float64}.

(** [url.Parse] *)
Variable urlParse : string -> option LoadBalancer.GoURL.

(** The upstream servers, as seen through [httpClient.Do]: target URL
    (with the rewritten path), method, query. *)
Variable httpDo : LoadBalancer.GoURL -> string -> string -> RoundTrip.

(** The [Proxy] object together with the clock, the random generator
    and the record of metric calls. *)
Record Proxy := {
  router : Router.Memory;
  upstreams : gmap string LoadBalancer.LoadBalancer;
  rateLimiter : RateLimit.RateLimiter;
  apiKeys : gmap string Config.APIKey;
  config : Config.Config;
  clock : Clock;
  draws : list nat;
  metrics : list MetricCall
}.

Definition withRouter (p : Proxy) (m : Router.Memory) : Proxy :=
  {| router := m; upstreams := upstreams p; rateLimiter := rateLimiter p;
     apiKeys := apiKeys p; config := config p; clock := clock p;
     draws := draws p; metrics := metrics p |}.

Definition withUpstreams (p : Proxy) (u : gmap string LoadBalancer.LoadBalancer)
  : Proxy :=
  {| router := router p; upstreams := u; rateLimiter := rateLimiter p;
     apiKeys := apiKeys p; config := config p; clock := clock p;
     draws := draws p; metrics := metrics p |}.

Definition withLimiter (p : Proxy) (rl : RateLimit.RateLimiter) (c : Clock) : Proxy :=
  {| router := router p; upstreams := upstreams p; rateLimiter := rl;
     apiKeys := apiKeys p; config := config p; clock := c;
     draws := draws p; metrics := metrics p |}.

Definition withClock (p : Proxy) (c : Clock) : Proxy :=
  withLimiter p (rateLimiter p) c.

Definition withDraws (p : Proxy) (d : list nat) : Proxy :=
  {| router := router p; upstreams := upstreams p; rateLimiter := rateLimiter p;
     apiKeys := apiKeys p; config := config p; clock := clock p;
     draws := d; metrics := metrics p |}.

(** One call on the metrics side *)
Definition record (p : Proxy) (e : MetricCall) : Proxy :=
  {| router := router p; upstreams := upstreams p; rateLimiter := rateLimiter p;
     apiKeys := apiKeys p; config := config p; clock := clock p;
     draws := draws p; metrics := metrics p ++ [e] |}.

(** The target loop of [New] for one upstream; [None] is the error
    return on a URL that does not parse. *)
Fixpoint newTargets (ts : list Config.Target) : option (list LoadBalancer.Target) :=
  match ts with
  | [] => Some []
  | t :: rest =>
      match urlParse (Config.targetURL t) with
      | None => None
      | Some parsed =>
          let weight := Config.targetWeight t in
          let weight := if weight <=? 0 then 1 else weight in
          match newTargets rest with
          | None => None
          | Some more =>
              Some ({| LoadBalancer.URL := parsed;
                       LoadBalancer.Weight := weight;
                       LoadBalancer.Healthy := false;
                       LoadBalancer.Connections := 0 |} :: more)
          end
      end
  end.

Fixpoint newUpstreams (us : list Config.UpstreamConfig)
         (acc : gmap string LoadBalancer.LoadBalancer)
  : option (gmap string LoadBalancer.LoadBalancer) :=
  match us with
  | [] => Some acc
  | u :: rest =>
      match newTargets (Config.Targets u) with
      | None => None
      | Some targets =>
          newUpstreams rest
            (<[Config.upstreamName u :=
                 LoadBalancer.New (Config.LoadBalance u) targets]> acc)
      end
  end.

Fixpoint newAPIKeys (keys : list Config.APIKey)
         (acc : gmap string Config.APIKey) (rl : RateLimit.RateLimiter) (c : Clock)
  : gmap string Config.APIKey * RateLimit.RateLimiter * Clock :=
  match keys with
  | [] => (acc, rl, c)
  | key :: rest =>
      if Config.keyEnabled key then
        let '(rl, c) :=
          RateLimit.SetLimits rl c ("apikey:" ++ Config.Key key)%string
            (Config.keyRequestsPerSecond key) (Config.keyBurstSize key) in
        newAPIKeys rest (<[Config.Key key := key]> acc) rl c
      else newAPIKeys rest acc rl c
  end.

(** [proxy.New(cfg)], started with the clock and the random draws the
    process will see. *)
Definition New (cfg : Config.Config) (c : Clock) (ds : list nat) : option Proxy :=
  let r := Router.New (Config.Routes cfg) in
  match newUpstreams (Config.Upstreams cfg) ∅ with
  | None => None
  | Some ups =>
      let rl := RateLimit.NewRateLimiter
                  (Config.DefaultRPS (Config.RateLimits cfg))
                  (Config.DefaultBurst (Config.RateLimits cfg)) in
      let '(keys, rl, c) := newAPIKeys (Config.APIKeys cfg) ∅ rl c in
      Some {| router := r; upstreams := ups; rateLimiter := rl; apiKeys := keys;
              config := cfg; clock := c; draws := ds; metrics := [] |}
  end.

(** [w.Header().Set("Retry-After", "1")] followed by
[http.Error(w, "Too Many Requests", http.StatusTooManyRequests)] *)
Definition tooManyRequests (w : ResponseWriter) : ResponseWriter :=
  httpError (setHeader w "Retry-After" "1") "Too Many Requests" StatusTooManyRequests.

(** [checkRateLimits] is three guarded blocks in a row, each returning
    [false] when its limit rejects.  The blocks are written last to
    first, each one continuing into the next. *)
Definition ipBlock (p : Proxy) (w : ResponseWriter)
           (clientIP routeName : string) : bool * ResponseWriter * Proxy :=
  if (Config.PerIP (Config.RateLimits (config p))
      && negb (String.eqb clientIP ""))%bool then
    let key := ("ip:" ++ clientIP)%string in
    let '(ok, rl, c) := RateLimit.Allow (rateLimiter p) (clock p) key in
    let p := withLimiter p rl c in
    if negb ok then
      (false, tooManyRequests w, record p (RecordRateLimitHit routeName "ip"))
    else (true, w, p)
  else (true, w, p).

Definition apiKeyBlock (p : Proxy) (w : ResponseWriter)
           (clientIP apiKey routeName : string) : bool * ResponseWriter * Proxy :=
  if (Config.PerAPIKey (Config.RateLimits (config p))
      && negb (String.eqb apiKey ""))%bool then
    let key := ("apikey:" ++ apiKey)%string in
    let '(ok, rl, c) := RateLimit.Allow (rateLimiter p) (clock p) key in
    let p := withLimiter p rl c in
    if negb ok then
      (false, tooManyRequests w, record p (RecordRateLimitHit routeName "apikey"))
    else ipBlock p w clientIP routeName
  else ipBlock p w clientIP routeName.

Definition checkRateLimits (p : Proxy) (w : ResponseWriter) (route : Router.Route)
           (clientIP apiKey routeName : string) : bool * ResponseWriter * Proxy :=
  match Router.RateLimit route with
  | Some limit =>
      if Config.Enabled limit then
        let key := ("route:" ++ routeName)%string in
        let '(ok, rl, c) :=
          RateLimit.AllowWithLimits (rateLimiter p) (clock p) key
            (Config.RequestsPerSecond limit) (Config.BurstSize limit) in
        let p := withLimiter p rl c in
        if negb ok then
          (false, tooManyRequests w, record p (RecordRateLimitHit routeName "route"))
        else apiKeyBlock p w clientIP apiKey routeName
      else apiKeyBlock p w clientIP apiKey routeName
  | None => apiKeyBlock p w clientIP apiKey routeName
  end.

(** [extractAPIKey]: the key the request presents and, when the key is
    registered, the name it is registered under. *)
Definition extractAPIKey (p : Proxy) (r : Router.Request) : string * string :=
  let key := Router.reqAPIKey r in
  if negb (String.eqb key "") then
    match apiKeys p !! key with
    | Some apiKey => (key, Config.keyName apiKey)
    | None => (key, "")
    end
  else (key, "").

(** [proxyRequest] without its header rewriting: the status it
    returns, whether it returns an error, and the writer. *)
Definition proxyRequest (w : ResponseWriter) (r : Router.Request)
           (route : Router.Route) (target : LoadBalancer.Target)
  : Z * bool * ResponseWriter :=
  let path := Router.StripPrefix route (Router.reqPath r) in
  let upstreamURL :=
    {| LoadBalancer.urlScheme := LoadBalancer.urlScheme (LoadBalancer.URL target);
       LoadBalancer.urlHost := LoadBalancer.urlHost (LoadBalancer.URL target);
       LoadBalancer.urlPath :=
         singleJoiningSlash (LoadBalancer.urlPath (LoadBalancer.URL target)) path |} in
  match httpDo upstreamURL (Router.reqMethod r) (Router.reqRawQuery r) with
  | Answer status body =>
      (status, false,
       {| respHeader := respHeader w; respStatus := status; respBody := body |})
  | ClientGone => (499, true, w)
  | TransportError => (StatusBadGateway, true, httpError w "Bad Gateway" StatusBadGateway)
  end.

(** [lb.Next()] with the draw that [Random] takes from the generator *)
Definition nextTarget (p : Proxy) (lb : LoadBalancer.LoadBalancer)
  : option (LoadBalancer.targetRef * LoadBalancer.LoadBalancer * Proxy) :=
  match lb with
  | LoadBalancer.IsRandom _ =>
      let '(draw, rest) :=
        match draws p with
        | [] => (0%nat, [])
        | d :: rest => (d, rest)
        end in
      match LoadBalancer.Next lb draw with
      | Some (t, lb') => Some (t, lb', withDraws p rest)
      | None => None
      end
  | _ =>
      match LoadBalancer.Next lb 0%nat with
      | Some (t, lb') => Some (t, lb', p)
      | None => None
      end
  end.

(** [target.Connections.Add(d)] for the target at position [i] *)
Definition addConnectionsAt (lb : LoadBalancer.LoadBalancer) (i : nat) (d : Z)
  : LoadBalancer.LoadBalancer :=
  LoadBalancer.withTargets lb
    (alter (LoadBalancer.addConnections d) i (LoadBalancer.Targets lb)).

(** [ServeHTTP].  [None]: the handler does not come back with a
    response (a pointer without an object, or a balancer loop that has
    not returned within its bound). *)
Definition ServeHTTP (p : Proxy) (w : ResponseWriter) (r : Router.Request)
  : option (ResponseWriter * Proxy) :=
  let '(start, c) := Now (clock p) in
  let p := withClock p c in
  match Router.Match (router p) r with
  | (Router.Fault, _) => None
  | (Router.NoMatch, m) =>
      let p := record (withRouter p m) (RecordError "unknown" "not_found") in
      Some (httpError w "Not Found" StatusNotFound, p)
  | (Router.Matched at_, m) =>
      let p := withRouter p m in
      match Router.cells m !! at_ with
      | None => None
      | Some route =>
          let routeName :=
            if String.eqb (Router.Name route) "" then Router.Pattern route
            else Router.Name route in
          let p := record p (InFlightRequests routeName) in
          let done (p : Proxy) := record p (InFlightDone routeName) in
          let clientIP := Router.reqClientIP r in
          let '(apiKey, apiKeyName) := extractAPIKey p r in
          let '(admitted, w, p) :=
            if Config.limitsEnabled (Config.RateLimits (config p))
            then checkRateLimits p w route clientIP apiKey routeName
            else (true, w, p) in
          if negb admitted then Some (w, done p)
          else
            match upstreams p !! Router.Upstream route with
            | None =>
                let p := record p (RecordError routeName "upstream_not_found") in
                Some (httpError w "Bad Gateway" StatusBadGateway, done p)
            | Some lb =>
                match nextTarget p lb with
                | None => None
                | Some (None, lb, p) =>
                    let p := withUpstreams p (<[Router.Upstream route := lb]> (upstreams p)) in
                    let p := record p (RecordError routeName "no_healthy_upstream") in
                    Some (httpError w "Service Unavailable" StatusServiceUnavailable,
                          done p)
                | Some (Some i, lb, p) =>
                    match LoadBalancer.Targets lb !! i with
                    | None => None
                    | Some target =>
                        let lb := addConnectionsAt lb i 1 in
                        let p := withUpstreams p (<[Router.Upstream route := lb]> (upstreams p)) in
                        let '(statusCode, err, w) := proxyRequest w r route target in
                        let '(now, c) := Now (clock p) in
                        let p := withClock p c in
                        let duration := Sub now start in
                        let isError := statusCode >=? 400 in
                        let p := record p (RecordRequest routeName (Router.reqMethod r)
                                             statusCode duration) in
                        let p := record p (RecordUpstreamDuration (Router.Upstream route)
                                             duration) in
                        let p := record p (UsageRecordRequest routeName duration isError) in
                        let p :=
                          if negb (String.eqb apiKeyName "") then
                            record
                              (record p (RecordAPIKeyRequest apiKeyName statusCode))
                              (UsageRecordRequest ("apikey:" ++ apiKeyName)%string
                                 duration isError)
                          else p in
                        let p := if err then record p (RecordError routeName "proxy_error")
                                 else p in
                        (* deferred: target.Connections.Add(-1), then done() *)
                        let p :=
                          match upstreams p !! Router.Upstream route with
                          | Some lb =>
                              withUpstreams p
                                (<[Router.Upstream route := addConnectionsAt lb i (-1)]>
                                   (upstreams p))
                          | None => p
                          end in
                        Some (w, done p)
                    end
                end
            end
      end
  end.

End WithLibraries.

End Proxy.

(** * Statements: observations and the properties under study *)

Local Open Scope list_scope.

(** ** Contracts of the library interfaces *)

(** [sort.Slice] returns the same elements, ordered so that no element is
    [less] than one placed before it, whenever [less] is asymmetric and
    its complement is transitive. *)
Class SortLaws `{Sorter} := {
  sortSlice_perm :
    forall (A : Type) (less : A -> A -> bool) (data : list A),
      Permutation (sortSlice less data) data;
  sortSlice_sorted :
    forall (A : Type) (less : A -> A -> bool) (data : list A),
      (forall a b, less a b = true -> less b a = false) ->
      (forall a b c, less a b = false -> less b c = false -> less a c = false) ->
      StronglySorted (fun a b => less b a = false) (sortSlice less data)
}.

(** Order facts about [float64] values that are neither NaN nor infinite.
    Rounding to nearest is monotone and leaves representable values in
    place, which gives the laws on sums, products and differences. *)
Class Float64Laws `{Float64} := {
  fle : float64 -> float64 -> Prop;
  fle_refl : forall a, fle a a;
  fle_trans : forall a b c, fle a b -> fle b c -> fle a c;
  fgt_false : forall a b, fgt a b = false -> fle a b;
  fge_true : forall a b, fge a b = true -> fle b a;
  ofInt_mono : forall m n, (m <= n)%Z -> fle (ofInt m) (ofInt n);
  Seconds_nonneg : forall d, (0 <= d)%Z -> fle (ofInt 0) (Seconds d);
  fmul_nonneg :
    forall a b, fle (ofInt 0) a -> fle (ofInt 0) b -> fle (ofInt 0) (fmul a b);
  fadd_nonneg : forall a b, fle (ofInt 0) b -> fle a (fadd a b);
  fsub_one_nonneg : forall a, fle (ofInt 1) a -> fle (ofInt 0) (fsub a (ofInt 1));
  fsub_one_le : forall a, fle (fsub a (ofInt 1)) a
}.

(** A non-empty string stays non-empty under [strings.ToLower]. *)
Class CaseLaws `{CaseMapping} := {
  ToLower_nonempty : forall s, ToLower s = "" -> s = ""
}.

(** ** Strings *)

Module StringShapes.

(** After trimming, a string is empty or begins with another byte. *)
Definition clearOf (c : ascii) (s : string) : Prop :=
  s = "" \/ exists a t, s = String a t /\ a <> c.

End StringShapes.

Import StringShapes.

(** ** Balancers *)

Module Selections.
Import LoadBalancer.

(** The targets returned by [k] consecutive calls of [Next] *)
Fixpoint rrCalls (k : nat) (rr : RoundRobin) : list targetRef :=
  match k with
  | O => []
  | S k' => let '(t, rr') := rrNext rr in t :: rrCalls k' rr'
  end.

(** For the weighted balancer the run stops should a call not return. *)
Fixpoint wrrCalls (k : nat) (w : WeightedRoundRobin) : list targetRef :=
  match k with
  | O => []
  | S k' =>
      match wrrNext w with
      | Some (t, w') => t :: wrrCalls k' w'
      | None => []
      end
  end.

(** How often the target at position [i] occurs among the returns *)
Fixpoint timesReturned (i : nat) (returns : list targetRef) : nat :=
  match returns with
  | [] => 0
  | r :: rest =>
      ((if bool_decide (r = Some i) then 1 else 0) + timesReturned i rest)%nat
  end.

Definition allLive (ts : list Target) : Prop := Forall (fun t => Healthy t = true) ts.

(** The counter is a [uint64]. *)
Definition validCounter (rr : RoundRobin) : Prop :=
  0 <= rrCurrent rr < uint64Modulus.

(** Round robin, as claimed: any [k * N] consecutive calls return each
    target [k] times. *)
Definition round_robin_always_even : Prop :=
  forall (rr : RoundRobin) (k i : nat),
    validCounter rr ->
    allLive (rrTargets rr) ->
    (1 <= k)%nat ->
    (i < length (rrTargets rr))%nat ->
    timesReturned i (rrCalls (k * length (rrTargets rr)) rr) = k.

(** A target given with weight 0 next to a positive one is never
    returned, as claimed. *)
Definition zero_weight_never_selected : Prop :=
  forall (ts : list Target) (z : nat) (t : Target) (k : nat),
    ts !! z = Some t ->
    Weight t = 0 ->
    Exists (fun t' => 0 < Weight t') ts ->
    ~ In (Some z) (wrrCalls k (NewWeightedRoundRobin ts)).

(** How many of the numbers [from, from + 1, ...] ([len] of them) leave
    the remainder [i] modulo [N] *)
Fixpoint hits (N i : nat) (from len : nat) : nat :=
  match len with
  | O => 0
  | S len' => ((if bool_decide (from mod N = i) then 1 else 0)
               + hits N i (S from) len')%nat
  end.

(** What the weighted loop keeps true of the balancer *)
Definition steady (w : WeightedRoundRobin) : Prop :=
  1 <= gcd_ w /\ -1 <= current w < Z.of_nat (length (targets w)).

Definition potential (w : WeightedRoundRobin) : nat :=
  (Z.to_nat (Z.of_nat (length (targets w)) - 1 - current w)
   + length (targets w) * Z.to_nat (currentWeight w))%nat.

(** Two weighted balancers that differ at most in fields of their
    targets other than the liveness flag *)
Definition sameSelectionState (a b : WeightedRoundRobin) : Prop :=
  map Healthy (targets a) = map Healthy (targets b)
  /\ weights a = weights b
  /\ currentWeight a = currentWeight b
  /\ maxWeight a = maxWeight b
  /\ gcd_ a = gcd_ b
  /\ current a = current b.

End Selections.

Module BalancerFixtures.
Import LoadBalancer.

Definition plainTarget (host : string) (w : Z) : Target :=
  {| URL := {| urlScheme := "http"; urlHost := host; urlPath := "" |};
     Weight := w; Healthy := false; Connections := 0 |}.

Definition threeTargets : list Target :=
  [plainTarget "a:8080" 1; plainTarget "b:8080" 1; plainTarget "c:8080" 1].

(** The balancer of three live targets, two calls before the counter
    wraps *)
Definition nearWrap : RoundRobin :=
  {| rrTargets := rrTargets (NewRoundRobin threeTargets);
     rrCurrent := uint64Modulus - 2 |}.

Definition lightFirst : list Target :=
  [plainTarget "a:8080" 1; plainTarget "b:8080" 2].

Definition zeroSecond : list Target :=
  [plainTarget "a:8080" 2; plainTarget "b:8080" 0].

End BalancerFixtures.

(** ** Token buckets *)

Module BucketRuns.
Import GoTime RateLimit.

Section WithFloat.
Context `{Float64}.

(** A run of [Allow] calls on one bucket; each call reads the clock,
    which has advanced by the next of [advances] nanoseconds.  The
    result lists the answer and the bucket after each call. *)
Fixpoint allowRun (tb : TokenBucket) (now : Time) (advances : list N)
  : list (bool * TokenBucket) :=
  match advances with
  | [] => []
  | d :: rest =>
      let now' := now + Z.of_N d in
      let '(ok, tb') := bucketAllow tb now' in
      (ok, tb') :: allowRun tb' now' rest
  end.

End WithFloat.

Section WithLaws.
Context `{Float64Laws}.

(** [0 <= tokens <= capacity] *)
Definition withinCapacity (tb : TokenBucket) : Prop :=
  fle (ofInt 0) (tokens tb) /\ fle (tokens tb) (maxTokens tb).

(** What a run keeps true besides the bound itself *)
Definition sound (tb : TokenBucket) (now : Time) : Prop :=
  withinCapacity tb /\ fle (ofInt 0) (refillRate tb) /\ lastRefill tb <= now.

(** The invariant, as claimed of every bucket *)
Definition token_level_always_bounded : Prop :=
  forall (rps burst : Z) (created : Time) (advances : list N),
    Forall (fun r => withinCapacity (snd r))
           (allowRun (NewTokenBucket rps burst created) created advances).

End WithLaws.

End BucketRuns.

(** ** Routing *)

Module Routing.
Import Router.

Definition restWildcard : segment :=
  {| value := "**"; isParam := false; isWild := true |}.

(** The three kinds of segment, read off the flags the way
    [calculatePriority] and [matchPath] read them. *)
Definition wildcardSeg (s : segment) : bool := isWild s.
Definition parameterSeg (s : segment) : bool := (negb (isWild s) && isParam s)%bool.
Definition literalSeg (s : segment) : bool := (negb (isWild s) && negb (isParam s))%bool.

Definition howMany (kind : segment -> bool) (segs : list segment) : Z :=
  Z.of_nat (length (List.filter kind segs)).

(** Priority in the words of the specification *)
Definition specPriority (segs : list segment) : Z :=
  10 * Z.of_nat (length segs)
  + 3 * howMany literalSeg segs
  - 2 * howMany parameterSeg segs
  - 5 * howMany wildcardSeg segs.

(** The leading literal segments of a compiled pattern *)
Fixpoint literalRun (segs : list segment) : list segment :=
  match segs with
  | [] => []
  | s :: rest => if literalSeg s then s :: literalRun rest else []
  end.

(** ["/" + a + "/" + b + ...] over the values of a run of segments *)
Fixpoint slashJoined (segs : list segment) : string :=
  match segs with
  | [] => ""
  | s :: rest => ("/" ++ value s ++ slashJoined rest)%string
  end.

(** [a + "/" + b + "/" + ...], what [StripPrefix] appends to ["/"] *)
Fixpoint slashEnded (segs : list segment) : string :=
  match segs with
  | [] => ""
  | s :: rest => (value s ++ "/" ++ slashEnded rest)%string
  end.

Section WithLibraries.
Context `{CaseMapping} `{Sorter}.

(** The host [Match] compares route hosts with *)
Definition requestHost (req : Request) : string :=
  cutAt ":" (ToLower (reqHost req)).

(** An entry matches a request: its route object passes the host and
    method tests and its segments match the path. *)
Definition entryMatches (m : Memory) (e : routeEntry) (req : Request)
  : option params :=
  match cells m !! route e with
  | Some rt => tryEntry rt e (requestHost req) (reqPath req) (reqMethod req)
  | None => None
  end.

(** [entryMatches] with the request taken apart *)
Definition hit (m : Memory) (host path method : string) (e : routeEntry)
  : option params :=
  match cells m !! route e with
  | Some rt => tryEntry rt e host path method
  | None => None
  end.

(** C2 as claimed: of two matching routes, [Match] returns the copy of
    the one with the greater priority. *)
Definition higher_priority_match_returned : Prop :=
  forall (cfgs : list Config.Route) (req : Request)
         (e1 e2 : routeEntry) (rt1 : Route) (ps1 ps2 : params),
    let m := New cfgs in
    In e1 (routes (theRouter m)) ->
    In e2 (routes (theRouter m)) ->
    cells m !! route e1 = Some rt1 ->
    entryMatches m e1 req = Some ps1 ->
    entryMatches m e2 req = Some ps2 ->
    specPriority (segments e1) > specPriority (segments e2) ->
    exists at_ m',
      Match m req = (Matched at_, m')
      /\ cells m' !! at_ = Some (withParams rt1 ps1).

(** A run of [Match] calls: for each call the memory before it, its
    result and the memory after it. *)
Fixpoint matchAll (reqs : list Request) (m : Memory)
  : list (Memory * MatchResult * Memory) :=
  match reqs with
  | [] => []
  | req :: rest =>
      let '(res, m') := Match m req in
      (m, res, m') :: matchAll rest m'
  end.

(** The prefix [StripPrefix] is specified to remove *)
Definition strippablePrefix (pattern : string) : string :=
  slashJoined (literalRun (parseSegments pattern)).

Definition pathMatches (r : Route) (path : string) : Prop :=
  snd (matchPath (parseSegments (Pattern r)) path) = true.

(** C6 as claimed: on a matched path the prefix is removed, and an
    empty remainder is returned as ["/"]. *)
Definition strip_returns_remainder_or_slash : Prop :=
  forall (r : Route) (path : string),
    StripPath r = true ->
    pathMatches r path ->
    exists rest,
      path = (strippablePrefix (Pattern r) ++ rest)%string
      /\ StripPrefix r path = if String.eqb rest "" then "/" else rest.

End WithLibraries.

End Routing.

#[export] Instance segment_eq_dec : EqDecision Router.segment.
Proof. solve_decision. Defined.

#[export] Instance routeEntry_eq_dec : EqDecision Router.routeEntry.
Proof. solve_decision. Defined.

(** ** Concrete configurations used to evaluate the model *)

Module Fixtures.

Definition routeTo (path upstream : string) : Config.Route :=
  {| Config.Name := ""; Config.Host := ""; Config.Path := path;
     Config.Methods := []; Config.Upstream := upstream;
     Config.StripPath := false; Config.Headers := ∅;
     Config.RateLimit := None |}.

(** The routes of the repository's priority test *)
Definition priorityRoutes : list Config.Route :=
  [routeTo "/**" "catchall"; routeTo "/api/**" "api";
   routeTo "/api/v1/users" "users-exact"; routeTo "/api/v1/*" "v1"].

Definition get (path : string) : Router.Request :=
  {| Router.reqHost := "gateway.test:8080"; Router.reqPath := path;
     Router.reqMethod := "GET"; Router.reqRawQuery := "";
     Router.reqClientIP := "10.0.0.7"; Router.reqAPIKey := "" |}.

Definition entryOf (at_ : nat) (path upstream : string) : Router.routeEntry :=
  Router.newEntry at_ (routeTo path upstream).

End Fixtures.

Module StripFixtures.

Definition stripping (pattern : string) : Router.Route :=
  {| Router.Name := ""; Router.Host := ""; Router.Path := pattern;
     Router.Pattern := pattern; Router.Methods := {[ "*" := true ]};
     Router.Upstream := "backend"; Router.StripPath := true;
     Router.Headers := ∅; Router.RateLimit := None;
     Router.PathParams := None |}.

End StripFixtures.

(** ** Rate-limit tiers *)

Module Limits.
Import Proxy.

(** One limit of the specification's list: its metrics label, the key of
    its bucket and the limits a new bucket is created with. *)
Record Tier := {
  tierLabel : string;
  tierKey : string;
  tierRPS : Z;
  tierBurst : Z
}.

Section WithFloat.
Context `{Float64}.

(** The limits that apply to a request, in the order of the
    specification: route, API key, client address. *)
Definition tiersFor (p : Proxy) (route : Router.Route)
           (clientIP apiKey routeName : string) : list Tier :=
  (match Router.RateLimit route with
   | Some limit =>
       if Config.Enabled limit then
         [ {| tierLabel := "route"; tierKey := ("route:" ++ routeName)%string;
              tierRPS := Config.RequestsPerSecond limit;
              tierBurst := Config.BurstSize limit |} ]
       else []
   | None => []
   end)
  ++ (if (Config.PerAPIKey (Config.RateLimits (config p))
          && negb (String.eqb apiKey ""))%bool
      then [ {| tierLabel := "apikey"; tierKey := ("apikey:" ++ apiKey)%string;
                tierRPS := RateLimit.defaultRPS (rateLimiter p);
                tierBurst := RateLimit.defaultBurst (rateLimiter p) |} ]
      else [])
  ++ (if (Config.PerIP (Config.RateLimits (config p))
          && negb (String.eqb clientIP ""))%bool
      then [ {| tierLabel := "ip"; tierKey := ("ip:" ++ clientIP)%string;
                tierRPS := RateLimit.defaultRPS (rateLimiter p);
                tierBurst := RateLimit.defaultBurst (rateLimiter p) |} ]
      else []).

(** Evaluate the tiers one after the other and stop at the first that
    rejects, answering 429 with [Retry-After: 1]. *)
Fixpoint runTiers (tiers : list Tier) (p : Proxy) (w : ResponseWriter)
         (routeName : string) : bool * ResponseWriter * Proxy :=
  match tiers with
  | [] => (true, w, p)
  | t :: rest =>
      let '(ok, rl, c) :=
        RateLimit.AllowWithLimits (rateLimiter p) (clock p) (tierKey t)
          (tierRPS t) (tierBurst t) in
      let p := withLimiter p rl c in
      if ok then runTiers rest p w routeName
      else (false, tooManyRequests w,
            record p (RecordRateLimitHit routeName (tierLabel t)))
  end.

(** The keys whose buckets that evaluation consults, in order *)
Fixpoint consulted (tiers : list Tier) (p : Proxy) : list string :=
  match tiers with
  | [] => []
  | t :: rest =>
      let '(ok, rl, c) :=
        RateLimit.AllowWithLimits (rateLimiter p) (clock p) (tierKey t)
          (tierRPS t) (tierBurst t) in
      tierKey t :: (if ok then consulted rest (withLimiter p rl c) else [])
  end.

End WithFloat.

End Limits.

(** ** A gateway whose only target is down *)

Module DownFixture.
Import Proxy.

Definition parseAsHost (raw : string) : option LoadBalancer.GoURL :=
  Some {| LoadBalancer.urlScheme := "http"; LoadBalancer.urlHost := raw;
          LoadBalancer.urlPath := "" |}.

(** The target still answers requests although its probe fails. *)
Definition answers (target : LoadBalancer.GoURL) (method query : string) : RoundTrip :=
  Answer 200 "ok".

(** The target refuses connections. *)
Definition refuses (target : LoadBalancer.GoURL) (method query : string) : RoundTrip :=
  TransportError.

Definition cfg : Config.Config :=
  {| Config.Upstreams :=
       [ {| Config.upstreamName := "backend";
            Config.Targets := [ {| Config.targetURL := "10.0.0.1:3000";
                                   Config.targetWeight := 1 |} ];
            Config.LoadBalance := "round_robin" |} ];
     Config.Routes := [ Fixtures.routeTo "/**" "backend" ];
     Config.RateLimits :=
       {| Config.limitsEnabled := false; Config.DefaultRPS := 100;
          Config.DefaultBurst := 200; Config.PerIP := true;
          Config.PerAPIKey := true |};
     Config.APIKeys := [] |}.

Definition startClock : GoTime.Clock :=
  {| GoTime.lastReading := 0; GoTime.advances := [1000%N; 2000%N; 3000%N] |}.

(** The health checker's [MarkHealthy(target, false)] on every target of
    every upstream *)
Definition allDown (lb : LoadBalancer.LoadBalancer) : LoadBalancer.LoadBalancer :=
  LoadBalancer.withTargets lb
    (map (LoadBalancer.setHealthy false) (LoadBalancer.Targets lb)).

Definition gateway : option (@Proxy exactArith) :=
  match New parseAsHost cfg startClock [] with
  | Some p => Some (withUpstreams p (allDown <$> upstreams p))
  | None => None
  end.

Definition statusOf (r : option (ResponseWriter * @Proxy exactArith)) : option Z :=
  match r with
  | Some (w, _) => Some (respStatus w)
  | None => None
  end.

Definition errorsOf (r : option (ResponseWriter * @Proxy exactArith))
  : list (string * string) :=
  match r with
  | Some (_, p) =>
      flat_map (fun call => match call with
                            | RecordError route label => [(route, label)]
                            | _ => []
                            end) (metrics p)
  | None => []
  end.

Definition liveTargets (p : @Proxy exactArith) (upstream : string) : list bool :=
  match upstreams p !! upstream with
  | Some lb => map LoadBalancer.Healthy (LoadBalancer.Targets lb)
  | None => []
  end.

Definition serve (upstreamSide : LoadBalancer.GoURL -> string -> string -> RoundTrip)
  : option (ResponseWriter * @Proxy exactArith) :=
  match gateway with
  | Some p =>
      ServeHTTP upstreamSide p freshWriter (Fixtures.get "/orders/17")
  | None => None
  end.

End DownFixture.

(** ** What the handler records *)

Module Recorded.
Import Proxy.

Section WithFloat.
Context `{Float64}.

(** Some call so far has recorded [no_healthy_upstream]. *)
Definition noHealthyRecorded (p : Proxy) : Prop :=
exists route, In (RecordError route "no_healthy_upstream") (metrics p).

(** Every configured upstream has a target, which [Validate] checks. *)
Definition upstreamsPopulated (p : Proxy) : Prop :=
forall name lb, upstreams p !! name = Some lb -> LoadBalancer.Targets lb <> [].

End WithFloat.

End Recorded.

(** ** The repository's tests, as runs of the model *)

Module TestRuns.

(** The upstream of the route [Match] returns for a path *)
Definition upstreamFor (cfgs : list Config.Route) (req : Router.Request) : option string :=
match Router.Match (Router.New cfgs) req with
| (Router.Matched at_, m) => Router.Upstream <$> Router.cells m !! at_
| _ => None
end.

Definition paramsFor (cfgs : list Config.Route) (req : Router.Request)
: option Router.params :=
match Router.Match (Router.New cfgs) req with
| (Router.Matched at_, m) => Router.PathParams <$> Router.cells m !! at_
| _ => None
end.

Definition pathRoutes : list Config.Route :=
[Fixtures.routeTo "/api/v1/users" "users"; Fixtures.routeTo "/api/v1/users/*" "users";
 Fixtures.routeTo "/api/v1/orders/:id" "orders"; Fixtures.routeTo "/api/**" "catchall"].

Definition limitedCfg : Config.Config :=
{| Config.Upstreams :=
     [ {| Config.upstreamName := "backend";
          Config.Targets := [ {| Config.targetURL := "10.0.0.1:3000";
                                 Config.targetWeight := 1 |} ];
          Config.LoadBalance := "round_robin" |} ];
   Config.Routes := [ Fixtures.routeTo "/**" "backend" ];
   Config.RateLimits :=
     {| Config.limitsEnabled := true; Config.DefaultRPS := 10;
        Config.DefaultBurst := 10; Config.PerIP := true;
        Config.PerAPIKey := true |};
   Config.APIKeys := [] |}.

Definition stillClock : GoTime.Clock :=
{| GoTime.lastReading := 0; GoTime.advances := [] |}.

(** The statuses of [n] requests served one after the other *)
Fixpoint statuses (n : nat) (p : @Proxy.Proxy exactArith) : list Z :=
match n with
| O => []
| S n' =>
    match Proxy.ServeHTTP DownFixture.answers p Proxy.freshWriter (Fixtures.get "/x") with
    | Some (w, p') => Proxy.respStatus w :: statuses n' p'
    | None => []
    end
end.

End TestRuns.

(** * Further observations on the router, the balancers and the limiter *)

From Stdlib Require Import Lqa.

(** ** Paths *)

Module PathShapes.
Import Router Routing.

(** The components [matchPath] walks over, its [pathParts]: none for a
    path that is empty after trimming. *)
Definition components (path : string) : list string :=
  let path := Trim "/" path in
  if String.eqb path "" then [] else Split "/" path.

(** A [**] segment, as the loop of [matchPath] recognises it *)
Definition restSeg (s : segment) : bool :=
  (isWild s && String.eqb (value s) "**")%bool.

Definition noRest (segs : list segment) : bool :=
  forallb (fun s => negb (restSeg s)) segs.

(** No named parameter among [segs] carries the name [name]. *)
Definition notNamed (name : string) (segs : list segment) : Prop :=
  Forall (fun s => parameterSeg s = true -> value s <> name) segs.

End PathShapes.

(** ** Balancers under use *)

Module BalancerRuns.
Import LoadBalancer.

(** What the gateway does to a balancer and its targets: [Next], the
    health checker's [MarkHealthy] and the handler's
    [Connections.Add]. *)
Inductive Op :=
| CallNext (draw : nat)
| Mark (i : nat) (h : bool)
| Connect (i : nat) (d : Z).

(** The returns of the [Next] calls of a run; [None] should one of them
    not return. *)
Fixpoint run (ops : list Op) (lb : LoadBalancer) : option (list targetRef) :=
  match ops with
  | [] => Some []
  | CallNext draw :: rest =>
      match Next lb draw with
      | Some (t, lb') =>
          match run rest lb' with
          | Some ts => Some (t :: ts)
          | None => None
          end
      | None => None
      end
  | Mark i h :: rest => run rest (MarkHealthy lb i h)
  | Connect i d :: rest =>
      run rest (withTargets lb (alter (addConnections d) i (Targets lb)))
  end.

Definition calls (ops : list Op) : nat :=
  length (List.filter (fun op => match op with CallNext _ => true | _ => false end) ops).

(** The position the round-robin counter [c] selects among [n] targets
    [k] increments later *)
Definition rotation (c : Z) (n k : nat) : nat :=
  Z.to_nat ((c + 1 + Z.of_nat k) mod Z.of_nat n).

(** The target at position [b] is live and carries the fewest requests
    among the live targets, and is the first of those that do. *)
Definition leastLoaded (all : list Target) (b : nat) : Prop :=
  exists tb,
    all !! b = Some tb /\ Healthy tb = true
    /\ forall (j : nat) u,
         all !! j = Some u -> Healthy u = true ->
         Connections tb <= Connections u
         /\ (Connections u = Connections tb -> (b <= j)%nat).

(** What the loop of the weighted balancer needs of its fields; the
    other balancers need nothing. *)
Definition wellFormed (lb : LoadBalancer) : Prop :=
  match lb with
  | IsWeightedRoundRobin w => Selections.steady w
  | _ => True
  end.

Definition fourTargets : list Target :=
  [BalancerFixtures.plainTarget "a:8080" 4; BalancerFixtures.plainTarget "b:8080" 6;
   BalancerFixtures.plainTarget "c:8080" 0; BalancerFixtures.plainTarget "d:8080" 10].

(** Four targets with 3, 1, 1 and 2 requests in flight; the second is
    down. *)
Definition loaded : list Target :=
  [ {| URL := URL (BalancerFixtures.plainTarget "a:8080" 1); Weight := 1;
       Healthy := true; Connections := 3 |};
    {| URL := URL (BalancerFixtures.plainTarget "b:8080" 1); Weight := 1;
       Healthy := false; Connections := 1 |};
    {| URL := URL (BalancerFixtures.plainTarget "c:8080" 1); Weight := 1;
       Healthy := true; Connections := 1 |};
    {| URL := URL (BalancerFixtures.plainTarget "d:8080" 1); Weight := 1;
       Healthy := true; Connections := 2 |} ].

End BalancerRuns.

(** ** Buckets over time *)

Module BucketCounts.
Import GoTime RateLimit.

(** How many calls of a run were admitted *)
Definition admitted {A} (run : list (bool * A)) : Z :=
  Z.of_nat (length (List.filter fst run)).

(** Nanoseconds between the creation of the bucket and the last call *)
Definition elapsed (advances : list N) : Z :=
  fold_right (fun d acc => Z.of_N d + acc) 0 advances.


End BucketCounts.

(** ** A gateway with one exact route and two API keys *)

Module KeyedFixture.
Import Proxy.

Definition gold : Config.APIKey :=
  {| Config.Key := "k-gold"; Config.keyName := "gold";
     Config.keyRequestsPerSecond := 50; Config.keyBurstSize := 80;
     Config.keyEnabled := true |}.

Definition revoked : Config.APIKey :=
  {| Config.Key := "k-old"; Config.keyName := "old";
     Config.keyRequestsPerSecond := 5; Config.keyBurstSize := 5;
     Config.keyEnabled := false |}.

Definition cfg : Config.Config :=
  {| Config.Upstreams :=
       [ {| Config.upstreamName := "users";
            Config.Targets := [ {| Config.targetURL := "10.0.0.1:3000";
                                   Config.targetWeight := 2 |};
                                {| Config.targetURL := "10.0.0.2:3000";
                                   Config.targetWeight := 0 |} ];
            Config.LoadBalance := "weighted_round_robin" |} ];
     Config.Routes := [ Fixtures.routeTo "/api/v1/users" "users" ];
     Config.RateLimits :=
       {| Config.limitsEnabled := true; Config.DefaultRPS := 10;
          Config.DefaultBurst := 10; Config.PerIP := true;
          Config.PerAPIKey := true |};
     Config.APIKeys := [revoked; gold] |}.

Definition gateway : option (@Proxy exactArith) :=
  New DownFixture.parseAsHost cfg TestRuns.stillClock [].

(** A limiter that already holds a bucket for a route *)
Definition oneBucket : @RateLimit.RateLimiter exactArith :=
  {| RateLimit.buckets := {[ "route:orders" := RateLimit.NewTokenBucket 5 5 0 ]};
     RateLimit.defaultRPS := 100; RateLimit.defaultBurst := 200 |}.

End KeyedFixture.

(** ** Package [config]: validation *)

Module Validation.

(** The errors of [Validate], with the values their messages carry *)
Inductive Invalid :=
| InvalidPort (port : Z)
| NoRoutes
| EmptyUpstreamName
| NoTargets (upstream : string)
| EmptyRoutePath
| NoUpstream (route : string)
| UnknownUpstream (route upstream : string).

(** The loop over [c.Upstreams], which fills [upstreamMap] *)
Fixpoint checkUpstreams (us : list Config.UpstreamConfig)
         (upstreamMap : gmap string bool) : Invalid + gmap string bool :=
  match us with
  | [] => inr upstreamMap
  | u :: rest =>
      if String.eqb (Config.upstreamName u) "" then inl EmptyUpstreamName
      else
        match Config.Targets u with
        | [] => inl (NoTargets (Config.upstreamName u))
        | _ :: _ =>
            checkUpstreams rest (<[Config.upstreamName u := true]> upstreamMap)
        end
  end.

(** The loop over [c.Routes] *)
Fixpoint checkRoutes (rs : list Config.Route) (upstreamMap : gmap string bool)
  : option Invalid :=
  match rs with
  | [] => None
  | r :: rest =>
      if String.eqb (Config.Path r) "" then Some EmptyRoutePath
      else if String.eqb (Config.Upstream r) "" then Some (NoUpstream (Config.Name r))
      else if negb (default false (upstreamMap !! Config.Upstream r))
      then Some (UnknownUpstream (Config.Name r) (Config.Upstream r))
      else checkRoutes rest upstreamMap
  end.

(** [Config.Validate]; [port] is [c.Server.Port], and [None] is the nil
    error. *)
Definition Validate (port : Z) (c : Config.Config) : option Invalid :=
  if ((port <=? 0) || (port >? 65535))%bool then Some (InvalidPort port)
  else
    match Config.Routes c with
    | [] => Some NoRoutes
    | _ :: _ =>
        match checkUpstreams (Config.Upstreams c) ∅ with
        | inl e => Some e
        | inr upstreamMap => checkRoutes (Config.Routes c) upstreamMap
        end
    end.

(** What an accepted configuration looks like *)
Definition wellFormed (port : Z) (c : Config.Config) : Prop :=
  1 <= port <= 65535
  /\ Config.Routes c <> []
  /\ Forall (fun u => Config.upstreamName u <> "" /\ Config.Targets u <> [])
            (Config.Upstreams c)
  /\ Forall (fun r => Config.Path r <> "" /\ Config.Upstream r <> ""
                      /\ Exists (fun u => Config.upstreamName u = Config.Upstream r)
                                (Config.Upstreams c))
            (Config.Routes c).

End Validation.

(** ** The gateway over time *)

Module GatewayRuns.
Import Proxy.

Section WithLibraries.
Context `{CaseMapping} `{Float64}.

Variable httpDo : LoadBalancer.GoURL -> string -> string -> RoundTrip.

(** What happens to a running gateway: a request arrives, or the
    health checker stores a probe's outcome in a target's flag. *)
Inductive Event :=
| Arrives (w : ResponseWriter) (r : Router.Request)
| Probed (upstream : string) (i : nat) (healthy : bool).

(** [lb.MarkHealthy(target, healthy)] on the balancer of an upstream *)
Definition mark (p : Proxy) (upstream : string) (i : nat) (healthy : bool) : Proxy :=
  match upstreams p !! upstream with
  | Some lb =>
      withUpstreams p
        (<[upstream := LoadBalancer.MarkHealthy lb i healthy]> (upstreams p))
  | None => p
  end.

(** The responses to the requests of a run, and the gateway after it;
    [None] should a handler call not return. *)
Fixpoint run (events : list Event) (p : Proxy)
  : option (list ResponseWriter * Proxy) :=
  match events with
  | [] => Some ([], p)
  | Arrives w r :: rest =>
      match ServeHTTP httpDo p w r with
      | Some (w', p') =>
          match run rest p' with
          | Some (ws, p'') => Some (w' :: ws, p'')
          | None => None
          end
      | None => None
      end
  | Probed upstream i healthy :: rest => run rest (mark p upstream i healthy)
  end.


(** What a run keeps true of a gateway built from an accepted
    configuration: every entry of the router points to a route object,
    every route object names an upstream that has a balancer, and
    every balancer has targets and sound loop fields. *)
Definition sound (p : Proxy) : Prop :=
  (forall e, In e (Router.routes (Router.theRouter (router p))) ->
             is_Some (Router.cells (router p) !! Router.route e))
  /\ Forall (fun rt => is_Some (upstreams p !! Router.Upstream rt))
            (Router.cells (router p))
  /\ (forall name lb, upstreams p !! name = Some lb ->
                      LoadBalancer.Targets lb <> [] /\ BalancerRuns.wellFormed lb).

(** The calls of one handler call that go to the in-flight gauge *)
Definition gaugeCall (e : MetricCall) : bool :=
  match e with
  | InFlightRequests _ | InFlightDone _ => true
  | _ => false
  end.

(** The error labels recorded so far *)
Definition errorLabels (p : Proxy) : list string :=
  flat_map (fun call => match call with
                        | RecordError _ label => [label]
                        | _ => []
                        end) (metrics p).

End WithLibraries.

End GatewayRuns.

Module GatewayFixture.
Import Proxy.

Definition users : Router.Request := Fixtures.get "/api/v1/users".

(** Two requests for the route, the health checker finding both targets
    down in between, and a request that no route matches *)
Definition events : list GatewayRuns.Event :=
  [ GatewayRuns.Arrives freshWriter users;
    GatewayRuns.Probed "users" 0 false;
    GatewayRuns.Probed "users" 1 false;
    GatewayRuns.Arrives freshWriter users;
    GatewayRuns.Arrives freshWriter (Fixtures.get "/nowhere") ].

(** The first request served by the gateway of [KeyedFixture] *)
Definition served : option (ResponseWriter * @Proxy exactArith) :=
  match KeyedFixture.gateway with
  | Some p => ServeHTTP DownFixture.answers p freshWriter users
  | None => None
  end.

End GatewayFixture.

(** ** Package [health] *)

Module Health.
Import LoadBalancer.

(** [config.HealthCheck] *)
Record HealthCheck := {
  checkPath : string;        (* [HealthCheck.Path] *)
  checkInterval : Z;         (* [HealthCheck.Interval] *)
  checkTimeout : Z           (* [HealthCheck.Timeout] *)
}.

(** What the probe comes back with: a response and its status code, or
    an error (the request could not be built or sent, or timed out). *)
Inductive ProbeResult :=
| Responded (statusCode : Z)
| Failed.

(** What [checkAll] tells the metrics registry and the logger *)
Inductive Report :=
| RecordUpstreamHealth (upstream : string) (target : GoURL) (healthy : bool)
| Warn (upstream : string) (target : GoURL).

Section WithClient.

(** The GET request of [checkTarget]: the URL of the target, resolved
    against the path of the check, sent under the timeout of the
    check *)
Variable probe : GoURL -> HealthCheck -> ProbeResult.

(** [checkTarget] *)
Definition checkTarget (target : Target) (cfg : HealthCheck) : bool :=
  match probe (URL target) cfg with
  | Failed => false
  | Responded statusCode => ((statusCode >=? 200) && (statusCode <? 400))%bool
  end.

(** The loop of [checkAll] over [targets[i:]]; the metrics registry is
    present. *)
Fixpoint checkFrom (name : string) (cfg : HealthCheck) (todo : list Target) (i : nat)
         (lb : LoadBalancer) (reports : list Report) : LoadBalancer * list Report :=
  match todo with
  | [] => (lb, reports)
  | target :: rest =>
      let healthy := checkTarget target cfg in
      let lb := MarkHealthy lb i healthy in
      let reports := reports ++ [RecordUpstreamHealth name (URL target) healthy] in
      let reports :=
        if negb healthy then reports ++ [Warn name (URL target)] else reports in
      checkFrom name cfg rest (S i) lb reports
  end.

(** [checkAll] *)
Definition checkAll (name : string) (lb : LoadBalancer) (cfg : HealthCheck)
  : LoadBalancer * list Report :=
  checkFrom name cfg (Targets lb) 0%nat lb [].

(** The outcome of the probe of a target, as [checkAll] reports it *)
Definition outcome (name : string) (cfg : HealthCheck) (t : Target) : list Report :=
  RecordUpstreamHealth name (URL t) (checkTarget t cfg)
  :: (if checkTarget t cfg then [] else [Warn name (URL t)]).

End WithClient.

End Health.

(** ** Package [metrics]: histograms and latency samples *)

Module Metrics.

(** [atomic.Int64]: additions wrap around. *)
Definition wrap64 (x : Z) : Z := (x + 2 ^ 63) mod 2 ^ 64 - 2 ^ 63.

(** [sort.Search(n, f)]: binary search for the least index in [0, n]
    from which on [f] holds.  The interval shrinks in every iteration, so
    [n] iterations are enough. *)
Fixpoint searchLoop (fuel : nat) (f : nat -> bool) (i j : nat) : nat :=
  match fuel with
  | O => i
  | S fuel' =>
      if (i <? j)%nat then
        let h := ((i + j) / 2)%nat in
        if negb (f h) then searchLoop fuel' f (h + 1)%nat j
        else searchLoop fuel' f i h
      else i
  end.

Definition Search (n : nat) (f : nat -> bool) : nat := searchLoop n f 0%nat n.

Section WithFloat.
Context `{Float64}.

(** [int64(x)] for a [float64] *)
Variable toInt64 : float64 -> Z.

(** [sort.SearchFloat64s(a, x)] *)
Definition SearchFloat64s (a : list float64) (x : float64) : nat :=
  Search (length a)
         (fun i => match a !! i with Some v => fge v x | None => false end).

Record histogram := {
  buckets : list float64;
  counts : list Z;
  sum : Z;                 (* microseconds *)
  count : Z
}.

(** [newHistogram] *)
Definition newHistogram (buckets : list float64) : histogram :=
  {| buckets := buckets;
     counts := replicate (length buckets + 1) 0;
     sum := 0;
     count := 0 |}.

(** [histogram.observe]; [None] is the panic of an index out of
    range. *)
Definition observe (h : histogram) (value : float64) : option histogram :=
  let idx := SearchFloat64s (buckets h) value in
  match counts h !! idx with
  | None => None
  | Some c =>
      Some {| buckets := buckets h;
              counts := <[idx := wrap64 (c + 1)]> (counts h);
              sum := wrap64 (sum h + toInt64 (fmul value (ofInt 1000000)));
              count := wrap64 (count h + 1) |}
  end.

(** The loop of [writePrometheusMetrics] over the buckets of one
    histogram: the bound and the cumulative count of each line, and
    the cumulative count after the last bucket. *)
Fixpoint bucketLines (bs : list float64) (i : nat) (cs : list Z) (cumulative : Z)
  : option (list (float64 * Z) * Z) :=
  match bs with
  | [] => Some ([], cumulative)
  | bucket :: rest =>
      match cs !! i with
      | None => None
      | Some c =>
          let cumulative := wrap64 (cumulative + c) in
          match bucketLines rest (S i) cs cumulative with
          | Some (lines, final) => Some ((bucket, cumulative) :: lines, final)
          | None => None
          end
      end
  end.

(** What is written for one histogram: the bucket lines, the number
    on the [+Inf] line, and the number on the [_count] line. *)
Definition exposition (h : histogram) : option (list (float64 * Z) * Z * Z) :=
  match bucketLines (buckets h) 0%nat (counts h) 0 with
  | None => None
  | Some (lines, cumulative) =>
      match counts h !! length (buckets h) with
      | None => None
      | Some c => Some (lines, wrap64 (cumulative + c), count h)
      end
  end.

(** A run of observations on one histogram *)
Fixpoint observeAll (h : histogram) (values : list float64) : option histogram :=
  match values with
  | [] => Some h
  | value :: rest =>
      match observe h value with
      | Some h' => observeAll h' rest
      | None => None
      end
  end.

(** *** Latency samples *)

Record LatencyTracker := {
  samples : list float64;
  maxSize : Z
}.

(** [NewLatencyTracker]; [make] panics on a negative capacity. *)
Definition NewLatencyTracker (maxSize : Z) : option LatencyTracker :=
  if maxSize <? 0 then None
  else Some {| samples := []; maxSize := maxSize |}.

(** [LatencyTracker.Record]; [None] is the panic of a slice bound out
    of range. *)
Definition Record_ (lt : LatencyTracker) (duration : Z) : option LatencyTracker :=
  let kept :=
    if Z.of_nat (length (samples lt)) >=? maxSize lt then
      let low := Z.quot (maxSize lt) 4 in
      if ((low <? 0) || (Z.of_nat (length (samples lt)) <? low))%bool then None
      else Some (drop (Z.to_nat low) (samples lt))
    else Some (samples lt) in
  match kept with
  | None => None
  | Some kept =>
      Some {| samples := kept ++ [Seconds duration]; maxSize := maxSize lt |}
  end.

Fixpoint recordAll (lt : LatencyTracker) (durations : list Z) : option LatencyTracker :=
  match durations with
  | [] => Some lt
  | d :: rest =>
      match Record_ lt d with
      | Some lt' => recordAll lt' rest
      | None => None
      end
  end.

End WithFloat.

(** The bounds of [DefaultConfig], in seconds *)
Definition defaultBuckets : list Q :=
  [ (5 # 1000)%Q; (1 # 100)%Q; (25 # 1000)%Q; (5 # 100)%Q; (1 # 10)%Q;
    (25 # 100)%Q; (5 # 10)%Q; 1%Q; (25 # 10)%Q; 5%Q; 10%Q ].

End Metrics.

Module Tallies.

(** The sum of the bucket counters *)
Definition total (cs : list Z) : Z := fold_right Z.add 0 cs.

(** What a histogram keeps: one counter per bucket and one more, and a
    count that is the sum of the counters, as 64-bit numbers. *)
Definition consistent `{Float64} (h : Metrics.histogram) : Prop :=
  length (Metrics.counts h) = S (length (Metrics.buckets h))
  /\ Metrics.count h = Metrics.wrap64 (total (Metrics.counts h)).

End Tallies.

(** ** Headers: what [proxyRequest] sends upstream *)

Module Headers.

(** [textproto.CanonicalMIMEHeaderKey], through which [http.Header]
    takes every key.  The development is parametric in it;
    [asciiCanonical] below is the function itself on byte strings. *)
Class HeaderKeys := { CanonicalMIMEHeaderKey : string -> string }.

(** The bytes of a header field name: letters, digits and
    [!#$%&'*+-.^_`|~] *)
Definition validHeaderFieldByte (a : ascii) : bool :=
  let n := nat_of_ascii a in
  (((48 <=? n) && (n <=? 57)) || ((65 <=? n) && (n <=? 90))
   || ((97 <=? n) && (n <=? 122))
   || existsb (Nat.eqb n) [33; 35; 36; 37; 38; 39; 42; 43; 45; 46; 94; 95; 96; 124; 126])%nat%bool.

Fixpoint allValid (s : string) : bool :=
  match s with
  | EmptyString => true
  | String a s' => (validHeaderFieldByte a && allValid s')%bool
  end.

(** Upper case at the start and after a hyphen, lower case elsewhere *)
Fixpoint canonicalCase (upper : bool) (s : string) : string :=
  match s with
  | EmptyString => EmptyString
  | String a s' =>
      let a := if upper then upperByte a else lowerByte a in
      String a (canonicalCase (Ascii.eqb a "-") s')
  end.

#[export] Instance asciiCanonical : HeaderKeys :=
  {| CanonicalMIMEHeaderKey :=
       fun s => if allValid s then canonicalCase true s else s |}.

(** [http.Header] *)
Notation Header := (gmap string (list string)).

(** The parts of the incoming [*http.Request] that the header code
    reads *)
Record Incoming := {
  inHeader : Header;          (* [r.Header] *)
  inHost : string;            (* [r.Host] *)
  inTLS : bool;               (* [r.TLS != nil] *)
  inRemoteAddr : string       (* [r.RemoteAddr] *)
}.

(** [hopHeaders] *)
Definition hopHeaders : list string :=
  [ "Connection"; "Keep-Alive"; "Proxy-Authenticate"; "Proxy-Authorization";
    "Te"; "Trailers"; "Transfer-Encoding"; "Upgrade" ].

(** The names [proxyRequest] sets itself *)
Definition forwardingHeaders : list string :=
  [ "X-Forwarded-For"; "X-Forwarded-Host"; "X-Forwarded-Proto"; "X-Real-IP" ].

Section WithKeys.
Context `{HeaderKeys}.

(** [strings.TrimSpace] and [net.SplitHostPort] ([None]: an error) *)
Variable TrimSpace : string -> string.
Variable SplitHostPort : string -> option (string * string).

(** [Header.Get] *)
Definition Get (h : Header) (key : string) : string :=
  match h !! CanonicalMIMEHeaderKey key with
  | Some (v :: _) => v
  | _ => ""
  end.

(** [Header.Set] *)
Definition Set_ (h : Header) (key value : string) : Header :=
  <[CanonicalMIMEHeaderKey key := [value]]> h.

(** [Header.Add] *)
Definition Add (h : Header) (key value : string) : Header :=
  <[CanonicalMIMEHeaderKey key
    := default [] (h !! CanonicalMIMEHeaderKey key) ++ [value]]> h.

(** [Header.Del] *)
Definition Del (h : Header) (key : string) : Header :=
  delete (CanonicalMIMEHeaderKey key) h.

(** [getClientIP] *)
Definition getClientIP (r : Incoming) : string :=
  let xff := Get (inHeader r) "X-Forwarded-For" in
  if negb (String.eqb xff "") then
    TrimSpace (hd "" (Split "," xff))
  else
    let xri := Get (inHeader r) "X-Real-IP" in
    if negb (String.eqb xri "") then xri
    else
      match SplitHostPort (inRemoteAddr r) with
      | Some (ip, _) => ip
      | None => inRemoteAddr r
      end.

(** [getScheme] *)
Definition getScheme (r : Incoming) : string :=
  if inTLS r then "https"
  else
    let proto := Get (inHeader r) "X-Forwarded-Proto" in
    if negb (String.eqb proto "") then proto else "http".

(** [copyHeaders(dst, src)]; [visited] lists the entries of [src] in
    the order in which [range] comes by them, which Go leaves open. *)
Definition copyHeaders (dst : Header) (visited : list (string * list string))
  : Header :=
  fold_left (fun dst kvv => fold_left (fun dst v => Add dst (fst kvv) v) (snd kvv) dst)
            visited dst.

(** The values [copyHeaders] comes by for the canonical key [key], in
    the order of the visit *)
Definition gathered (key : string) (visited : list (string * list string))
  : list string :=
  flat_map (fun kvv => if String.eqb (CanonicalMIMEHeaderKey (fst kvv)) key
                       then snd kvv else []) visited.

(** [removeHopHeaders] *)
Definition removeHopHeaders (h : Header) : Header :=
  fold_left Del hopHeaders h.

(** The headers [proxyRequest] gives the upstream request, which
    starts with none: the copy of the incoming ones, the headers of
    the route ([routeVisited]: in the order of [range]), the
    forwarding headers, and the removal of the hop-by-hop ones. *)
Definition upstreamHeaders (r : Incoming)
           (requestVisited : list (string * list string))
           (routeVisited : list (string * string)) : Header :=
  let h := copyHeaders ∅ requestVisited in
  let h := fold_left (fun h kv => Set_ h (fst kv) (snd kv)) routeVisited h in
  let clientIP := getClientIP r in
  let prior := Get h "X-Forwarded-For" in
  let h :=
    if negb (String.eqb prior "")
    then Set_ h "X-Forwarded-For" (prior ++ ", " ++ clientIP)%string
    else Set_ h "X-Forwarded-For" clientIP in
  let h := Set_ h "X-Forwarded-Host" (inHost r) in
  let h := Set_ h "X-Forwarded-Proto" (getScheme r) in
  let h := Set_ h "X-Real-IP" clientIP in
  removeHopHeaders h.

(** The stages of [upstreamHeaders]: the loop over the route's
    headers, the headers before the gateway adds its own, and the
    value it gives [X-Forwarded-For] *)
Definition setAll (routeVisited : list (string * string)) (h : Header) : Header :=
  fold_left (fun h kv => Set_ h (fst kv) (snd kv)) routeVisited h.

Definition base (requestVisited : list (string * list string))
           (routeVisited : list (string * string)) : Header :=
  setAll routeVisited (copyHeaders ∅ requestVisited).

Definition chain (r : Incoming) (b : Header) : string :=
  let clientIP := getClientIP r in
  let prior := Get b "X-Forwarded-For" in
  if negb (String.eqb prior "") then (prior ++ ", " ++ clientIP)%string else clientIP.

(** The headers of the response: those of the upstream's response
    copied into the writer's, without the hop-by-hop ones *)
Definition responseHeaders (writer : Header)
           (responseVisited : list (string * list string)) : Header :=
  removeHopHeaders (copyHeaders writer responseVisited).

End WithKeys.

(** The names the code writes stay apart in canonical form. *)
Class HeaderKeyLaws `{HeaderKeys} := {
  names_distinct :
    NoDup (map CanonicalMIMEHeaderKey (hopHeaders ++ forwardingHeaders))
}.

(** A request that came through another proxy *)
Definition relayed : Incoming :=
  {| inHeader := {[ "X-Forwarded-For" := ["203.0.113.7, 10.1.1.1"];
                    "Accept" := ["text/html"; "*/*"];
                    "Connection" := ["keep-alive"];
                    "Upgrade" := ["websocket"] ]};
     inHost := "gateway.test";
     inTLS := false;
     inRemoteAddr := "10.1.1.1:40112" |}.

(** Spaces trimmed, and an address cut at its one colon: enough of
    [strings.TrimSpace] and [net.SplitHostPort] to evaluate the model on
    plain addresses. *)
Definition trimBlanks (s : string) : string :=
  Trim " " s.

Definition cutPort (s : string) : option (string * string) :=
  match Split ":" s with
  | [host; port] => Some (host, port)
  | _ => None
  end.

End Headers.

(** * Proofs *)

(** ** Round robin *)

Module RoundRobinFacts.
Import LoadBalancer Selections.

Lemma healthyAt_allLive ts i :
  allLive ts -> (i < length ts)%nat -> healthyAt ts i = true.
Proof.
  intros Hall Hi. unfold healthyAt.
  destruct (ts !! i) as [t|] eqn:E.
  - unfold allLive in Hall. rewrite Forall_forall in Hall.
    apply Hall. eapply list_elem_of_lookup_2; eauto.
  - apply lookup_ge_None in E. lia.
Qed.

(** With every target live, a call advances the counter by one and
    returns the target at the new counter modulo the target count. *)
Lemma rrNext_allLive rr :
  rrTargets rr <> [] ->
  allLive (rrTargets rr) ->
  rrNext rr =
    (Some (Z.to_nat (((rrCurrent rr + 1) mod uint64Modulus)
                     mod Z.of_nat (length (rrTargets rr)))),
     {| rrTargets := rrTargets rr;
        rrCurrent := (rrCurrent rr + 1) mod uint64Modulus |}).
Proof.
  intros Hne Hall. unfold rrNext.
  destruct (rrTargets rr) as [|t ts] eqn:E; [congruence|].
  rewrite <- E in *. 
  assert (Hlen : (0 < length (rrTargets rr))%nat) by (rewrite E; simpl; lia).
  destruct (length (rrTargets rr)) as [|n] eqn:En; [lia|].
  cbn [rrScan]. rewrite En.
  rewrite healthyAt_allLive; auto.
  rewrite En.
  assert (0 <= ((rrCurrent rr + 1) mod uint64Modulus) mod Z.of_nat (S n) < Z.of_nat (S n))
    by (apply Z.mod_pos_bound; lia).
  lia.
Qed.

Lemma hits_app N i from a b :
  hits N i from (a + b) = (hits N i from a + hits N i (from + a) b)%nat.
Proof.
  revert from. induction a as [|a IH]; intros from; simpl.
  - f_equal. lia.
  - rewrite IH. replace (S from + a)%nat with (from + S a)%nat by lia. lia.
Qed.

Lemma hits_shift N i from len :
  (0 < N)%nat ->
  hits N i (from + N) len = hits N i from len.
Proof.
  intros HN. revert from. induction len as [|len IH]; intros from; simpl; [done|].
  replace (S (from + N)) with (S from + N)%nat by lia. rewrite IH.
  replace ((from + N) mod N)%nat with (from mod N)%nat; [done|].
  rewrite <- (Nat.Div0.add_mod_idemp_r from N N), Nat.Div0.mod_same, Nat.add_0_r.
  done.
Qed.

Lemma hits_small N i len :
  (len <= N)%nat ->
  hits N i 0 len = if bool_decide (i < len)%nat then 1%nat else 0%nat.
Proof.
  intros Hlen.
  assert (G : forall len from, (from + len <= N)%nat ->
            hits N i from len
            = if bool_decide (from <= i < from + len)%nat then 1%nat else 0%nat).
  { clear. intros len. induction len as [|len IH]; intros from Hb; simpl.
    - case_bool_decide; [lia|done].
    - rewrite IH by lia. rewrite Nat.mod_small by lia.
      repeat case_bool_decide; lia. }
  rewrite G by lia. repeat case_bool_decide; lia.
Qed.

Lemma hits_window N i from :
  (i < N)%nat -> hits N i from N = 1%nat.
Proof.
  intros Hi. induction from as [|from IH].
  - rewrite hits_small by lia. case_bool_decide; [done|lia].
  - (* the window slides by one: it loses [from] and gains [from + N] *)
    assert (E1 : hits N i from (1 + (N - 1)) = 1%nat)
      by (replace (1 + (N - 1))%nat with N by lia; exact IH).
    rewrite hits_app in E1. 
    replace N with ((N - 1) + 1)%nat at 2 by lia.
    rewrite hits_app.
    replace (from + 1)%nat with (S from) in E1 by lia.
    assert (E2 : hits N i (S from + (N - 1)) 1 = hits N i from 1).
    { replace (S from + (N - 1))%nat with (from + N)%nat by lia.
      apply hits_shift. lia. }
    lia.
Qed.

Lemma hits_blocks N i from k :
  (i < N)%nat -> hits N i from (k * N) = k.
Proof.
  intros Hi. revert from. induction k as [|k IH]; intros from; [done|].
  replace (S k * N)%nat with (N + k * N)%nat by lia.
  rewrite hits_app, hits_window, IH by done. lia.
Qed.

(** Without a wrap of the counter, the returns of [len] calls are the
    residues of the next [len] counter values. *)
Lemma rrCalls_hits rr i len :
  rrTargets rr <> [] ->
  allLive (rrTargets rr) ->
  0 <= rrCurrent rr ->
  rrCurrent rr + Z.of_nat len < uint64Modulus ->
  timesReturned i (rrCalls len rr)
  = hits (length (rrTargets rr)) i (S (Z.to_nat (rrCurrent rr))) len.
Proof.
  revert rr. induction len as [|len IH]; intros rr Hne Hall H0 Hfit; [done|].
  cbn [rrCalls]. rewrite rrNext_allLive by done. cbn [timesReturned hits].
  assert (Hmod : (rrCurrent rr + 1) mod uint64Modulus = rrCurrent rr + 1)
    by (apply Z.mod_small; lia).
  rewrite Hmod.
  rewrite IH; cbn [rrTargets rrCurrent]; try done; try lia.
  assert (Hn : (0 < length (rrTargets rr))%nat)
    by (destruct (rrTargets rr); [congruence|simpl; lia]).
  assert (Hidx : Z.to_nat ((rrCurrent rr + 1) mod Z.of_nat (length (rrTargets rr)))
                 = (S (Z.to_nat (rrCurrent rr)) mod length (rrTargets rr))%nat).
  { rewrite <- (Nat2Z.id (S (Z.to_nat (rrCurrent rr)) mod length (rrTargets rr))).
    f_equal. rewrite Nat2Z.inj_mod. f_equal. lia. }
  rewrite Hidx.
  replace (Z.to_nat (rrCurrent rr + 1)) with (S (Z.to_nat (rrCurrent rr))) by lia.
  f_equal. repeat case_bool_decide; congruence.
Qed.

End RoundRobinFacts.

(** C8, as stated, fails: the counter is a [uint64], and across its wrap
    from [2^64 - 1] to [0] three consecutive calls on three live targets
    return the first target twice and the third not at all. *)
Lemma round_robin_uneven_across_wrap : ~ Selections.round_robin_always_even.
Proof.
  intros Hclaim.
  specialize (Hclaim BalancerFixtures.nearWrap 1%nat 2%nat).
  assert (Hret : Selections.rrCalls 3 BalancerFixtures.nearWrap
                 = [Some 0%nat; Some 0%nat; Some 1%nat]) by (vm_compute; reflexivity).
  change (1 * length (LoadBalancer.rrTargets BalancerFixtures.nearWrap))%nat
    with 3%nat in Hclaim.
  rewrite Hret in Hclaim.
  assert (Hbad : Selections.timesReturned 2 [Some 0%nat; Some 0%nat; Some 1%nat] = 1%nat).
  { apply Hclaim.
    - unfold Selections.validCounter. vm_compute. split; [discriminate | reflexivity].
    - repeat constructor.
    - lia.
    - simpl. lia. }
  vm_compute in Hbad. discriminate Hbad.
Qed.

(** C8 (amended): for a round-robin balancer whose targets are all live,
    any [k * N] consecutive [Next] calls during which the 64-bit counter
    does not wrap return each of the [N] targets exactly [k] times. *)
Theorem round_robin_even_without_wrap
        (rr : LoadBalancer.RoundRobin) (k i : nat) :
  Selections.allLive (LoadBalancer.rrTargets rr) ->
  0 <= LoadBalancer.rrCurrent rr ->
  LoadBalancer.rrCurrent rr + Z.of_nat (k * length (LoadBalancer.rrTargets rr))
    < LoadBalancer.uint64Modulus ->
  (i < length (LoadBalancer.rrTargets rr))%nat ->
  Selections.timesReturned i
    (Selections.rrCalls (k * length (LoadBalancer.rrTargets rr)) rr) = k.
Proof.
  intros Hall H0 Hfit Hi.
  assert (Hne : LoadBalancer.rrTargets rr <> [])
    by (destruct (LoadBalancer.rrTargets rr); [simpl in Hi; lia | discriminate]).
  rewrite RoundRobinFacts.rrCalls_hits by done.
  apply RoundRobinFacts.hits_blocks. exact Hi.
Qed.

Lemma round_robin_even_without_wrap_witness :
  let rr := LoadBalancer.NewRoundRobin BalancerFixtures.threeTargets in
  Selections.allLive (LoadBalancer.rrTargets rr)
  /\ 0 <= LoadBalancer.rrCurrent rr
  /\ LoadBalancer.rrCurrent rr + Z.of_nat (3 * length (LoadBalancer.rrTargets rr))
     < LoadBalancer.uint64Modulus
  /\ (1 < length (LoadBalancer.rrTargets rr))%nat
  /\ Selections.timesReturned 1
       (Selections.rrCalls (3 * length (LoadBalancer.rrTargets rr)) rr) = 3%nat.
Proof.
  assert (Hlive : Selections.allLive
                    (LoadBalancer.rrTargets
                       (LoadBalancer.NewRoundRobin BalancerFixtures.threeTargets)))
    by (repeat constructor).
  assert (Hfit : LoadBalancer.rrCurrent
                   (LoadBalancer.NewRoundRobin BalancerFixtures.threeTargets)
                 + Z.of_nat (3 * length (LoadBalancer.rrTargets
                      (LoadBalancer.NewRoundRobin BalancerFixtures.threeTargets)))
                 < LoadBalancer.uint64Modulus)
    by (vm_compute; reflexivity).
  cbv zeta. split; [|split; [|split; [|split]]].
  - exact Hlive.
  - simpl. lia.
  - exact Hfit.
  - simpl. lia.
  - apply (round_robin_even_without_wrap
             (LoadBalancer.NewRoundRobin BalancerFixtures.threeTargets) 3 1).
    + exact Hlive.
    + simpl. lia.
    + exact Hfit.
    + simpl. lia.
Defined.

(** ** Weighted round robin *)

Module WeightedFacts.
Import LoadBalancer Selections.

(** *** The loop returns *)

Lemma gcdLoop_is_gcd fuel a b :
  0 <= a -> 0 <= b -> (Z.abs_nat b < fuel)%nat ->
  gcdLoop fuel a b = Z.gcd a b.
Proof.
  revert a b. induction fuel as [|fuel IH]; intros a b Ha Hb Hfuel; [lia|].
  cbn [gcdLoop]. destruct (Z.eqb_spec b 0) as [->|Hb0].
  - rewrite Z.gcd_0_r. lia.
  - rewrite Z.rem_mod_nonneg by lia.
    assert (0 <= a mod b < b) by (apply Z.mod_pos_bound; lia).
    rewrite IH by lia.
    rewrite (Z.gcd_comm b (a mod b)), Z.gcd_mod by lia. apply Z.gcd_comm.
Qed.

Lemma gcd_is_gcd a b : 0 <= a -> 0 <= b -> gcd a b = Z.gcd a b.
Proof. intros. unfold gcd. apply gcdLoop_is_gcd; lia. Qed.

Lemma gcdSlice_positive ws :
  Forall (fun w => 1 <= w) ws -> 1 <= gcdSlice ws.
Proof.
  destruct ws as [|first rest]; [simpl; lia|].
  intros Hall. apply Forall_cons in Hall as [Hfirst Hrest]. simpl.
  revert first Hfirst. induction Hrest as [|w rest Hw _ IH]; intros first Hfirst;
    [exact Hfirst|].
  simpl. apply IH. rewrite gcd_is_gcd by lia.
  assert (0 <= Z.gcd first w) by apply Z.gcd_nonneg.
  assert (Z.gcd first w <> 0) by (intros E; apply Z.gcd_eq_0_l in E; lia).
  lia.
Qed.

Lemma effectiveWeight_positive t : 1 <= effectiveWeight t.
Proof. unfold effectiveWeight. destruct (Z.leb_spec (Weight t) 0); lia. Qed.

Lemma wrrStep_next_index w :
  steady w ->
  Z.rem (current w + 1) (Z.of_nat (length (targets w)))
  = if current w + 1 =? Z.of_nat (length (targets w)) then 0 else current w + 1.
Proof.
  intros [_ Hcur]. destruct (Z.eqb_spec (current w + 1) (Z.of_nat (length (targets w))))
    as [E|E].
  - rewrite E. destruct (Z.eq_dec (Z.of_nat (length (targets w))) 0) as [->|Hn];
      [done | by apply Z.rem_same].
  - apply Z.rem_small. lia.
Qed.

Lemma wrrStep_returns_target w r :
  wrrStep w = inl r -> exists i w', r = (Some i, w').
Proof.
  unfold wrrStep. intros E.
  repeat match type of E with
         | (if ?c then _ else _) = _ => destruct c
         end; inversion E; eauto.
Qed.

Lemma wrrStep_continues w w' :
  steady w -> targets w <> [] ->
  wrrStep w = inr w' ->
  steady w' /\ targets w' = targets w /\ (potential w' < potential w)%nat.
Proof.
  intros Hst Hne E. pose proof (wrrStep_next_index w Hst) as Hidx.
  destruct Hst as [Hg Hcur].
  assert (Hpos : 0 < Z.of_nat (length (targets w)))
    by (destruct (targets w); [congruence|simpl; lia]).
  unfold wrrStep in E. rewrite Hidx in E. clear Hidx.
  set (n := Z.of_nat (length (targets w))) in *.
  destruct (Z.eqb_spec (current w + 1) n) as [Ewrap|Ewrap].
  - (* the index wraps to 0 *)
    change (0 =? 0) with true in E. cbv iota in E.
    destruct (Z.leb_spec (currentWeight w - gcd_ w) 0) as [Hreset|Hcw].
    + rewrite Z.eqb_refl in E. cbn [andb] in E.
      destruct (_ && _)%bool in E; discriminate E.
    + destruct (_ && _)%bool in E; [discriminate E|].
      destruct (_ && _)%bool in E; [discriminate E|].
      inversion E; subst w'; clear E. unfold steady, potential. cbn.
      fold n. split; [lia|]. split; [done|].
      replace (Z.to_nat (n - 1 - 0)) with (Z.to_nat n - 1)%nat by lia.
      assert (Hn : Z.to_nat n = length (targets w)) by (unfold n; lia).
      rewrite <- Hn.
      replace (Z.to_nat (currentWeight w)) with
        (Z.to_nat (currentWeight w - gcd_ w) + Z.to_nat (gcd_ w))%nat by lia.
      assert (1 <= Z.to_nat (gcd_ w))%nat by lia.
      assert (1 <= Z.to_nat n)%nat by lia.
      nia.
  - (* the index moves on inside the slice *)
    destruct (Z.eqb_spec (current w + 1) 0) as [E0|E0].
    + (* first call on a fresh balancer: index 0 *)
      rewrite E0 in *.
      destruct (Z.leb_spec (currentWeight w - gcd_ w) 0) as [Hreset|Hcw].
      * change (0 =? 0) with true in E. rewrite Z.eqb_refl in E. cbn [andb] in E.
        destruct (_ && _)%bool in E; discriminate E.
      * change (0 =? 0) with true in E.
        destruct (_ && _)%bool in E; [discriminate E|].
        destruct (_ && _)%bool in E; [discriminate E|].
        inversion E; subst w'; clear E. unfold steady, potential. cbn.
        fold n. split; [lia|]. split; [done|].
        assert (Hn : Z.to_nat n = length (targets w)) by (unfold n; lia).
        rewrite <- Hn.
        replace (Z.to_nat (currentWeight w)) with
          (Z.to_nat (currentWeight w - gcd_ w) + Z.to_nat (gcd_ w))%nat by lia.
        assert (1 <= Z.to_nat (gcd_ w))%nat by lia.
        assert (1 <= Z.to_nat n)%nat by lia.
        nia.
    + destruct (_ && _)%bool in E; [discriminate E|].
      cbn [andb] in E.
      inversion E; subst w'; clear E. unfold steady, potential. cbn.
      fold n. split; [lia|]. split; [done|]. lia.
Qed.

Lemma wrrStep_returns_steady w t w' :
  steady w -> targets w <> [] ->
  wrrStep w = inl (t, w') ->
  steady w' /\ targets w' = targets w.
Proof.
  intros Hst Hne E. pose proof (wrrStep_next_index w Hst) as Hidx.
  destruct Hst as [Hg Hcur].
  assert (0 < Z.of_nat (length (targets w)))
    by (destruct (targets w); [congruence|simpl; lia]).
  unfold wrrStep in E. rewrite Hidx in E.
  assert (Hrange : 0 <= (if current w + 1 =? Z.of_nat (length (targets w))
                         then 0 else current w + 1)
                   < Z.of_nat (length (targets w)))
    by (destruct (Z.eqb_spec (current w + 1) (Z.of_nat (length (targets w)))); lia).
  repeat match type of E with
         | (if ?c then inl _ else _) = _ => destruct c
         end; inversion E; subst; unfold steady; cbn; (split; [lia|done]).
Qed.

Lemma wrrLoop_returns fuel w :
  steady w -> targets w <> [] -> (potential w < fuel)%nat ->
  exists t w', wrrLoop fuel w = Some (t, w')
               /\ steady w' /\ targets w' = targets w.
Proof.
  revert w. induction fuel as [|fuel IH]; intros w Hst Hne Hfuel; [lia|].
  cbn [wrrLoop]. destruct (wrrStep w) as [[t w']|w'] eqn:E.
  - exists t, w'. split; [done|]. eapply wrrStep_returns_steady; eauto.
  - destruct (wrrStep_continues w w' Hst Hne E) as (Hst' & Hts & Hless).
    destruct (IH w' Hst') as (t & w'' & Hrun & Hst'' & Hts'').
    + congruence.
    + lia.
    + exists t, w''. rewrite Hrun. split; [done|]. split; [done|]. congruence.
Qed.

(** [Next] returns on every balancer the loop invariant holds of, and
    leaves it holding. *)
Lemma wrrNext_returns w :
  steady w -> targets w <> [] ->
  exists t w', wrrNext w = Some (t, w') /\ steady w' /\ targets w' = targets w.
Proof.
  intros Hst Hne. unfold wrrNext.
  destruct (targets w) as [|x xs] eqn:E; [congruence|]. rewrite <- E in *.
  apply wrrLoop_returns; try done.
  unfold wrrBound, potential. lia.
Qed.

Lemma New_steady ts : ts <> [] -> steady (NewWeightedRoundRobin ts).
Proof.
  intros Hne. unfold steady. cbn. split.
  - apply gcdSlice_positive. apply Forall_forall. intros w Hw.
    apply list_elem_of_fmap in Hw as (t & -> & _). apply effectiveWeight_positive.
  - rewrite length_map. destruct ts; [congruence|simpl; lia].
Qed.

(** Every one of [k] calls on a freshly built balancer returns. *)
Lemma wrrCalls_all_return ts k :
  ts <> [] -> length (wrrCalls k (NewWeightedRoundRobin ts)) = k.
Proof.
  intros Hne.
  assert (G : forall k w, steady w -> targets w <> [] -> length (wrrCalls k w) = k).
  { clear. intros k. induction k as [|k IH]; intros w Hst Hne; [done|].
    cbn [wrrCalls].
    destruct (wrrNext_returns w Hst Hne) as (t & w' & -> & Hst' & Hts).
    simpl. f_equal. apply IH; [done|congruence]. }
  apply G; [by apply New_steady|].
  cbn. destruct ts; [congruence|discriminate].
Qed.

(** *** Liveness flags are all the loop reads of the targets *)

Lemma healthyAt_map ts i :
  healthyAt ts i = default false (map Healthy ts !! i).
Proof. unfold healthyAt. rewrite list_lookup_fmap. by destruct (ts !! i). Qed.

Lemma sameSelectionState_length a b :
  sameSelectionState a b -> length (targets a) = length (targets b).
Proof.
  intros (Hh & _). apply (f_equal length) in Hh. by rewrite !length_map in Hh.
Qed.

Lemma wrrStep_same a b :
  sameSelectionState a b ->
  match wrrStep a, wrrStep b with
  | inl (t, a'), inl (u, b') => t = u /\ sameSelectionState a' b'
  | inr a', inr b' => sameSelectionState a' b'
  | _, _ => False
  end.
Proof.
  intros Hs. pose proof (sameSelectionState_length a b Hs) as Hlen.
  destruct Hs as (Hh & Hw & Hcw & Hmx & Hg & Hcur).
  unfold wrrStep. rewrite !healthyAt_map, Hh, Hw, Hcw, Hmx, Hg, Hcur, Hlen.
  repeat match goal with
         | |- context [if ?c then _ else _] => destruct c
         end; unfold sameSelectionState; cbn; auto 10.
Qed.

Lemma wrrLoop_same fuel a b :
  sameSelectionState a b ->
  match wrrLoop fuel a, wrrLoop fuel b with
  | Some (t, a'), Some (u, b') => t = u /\ sameSelectionState a' b'
  | None, None => True
  | _, _ => False
  end.
Proof.
  revert a b. induction fuel as [|fuel IH]; intros a b Hs; [done|].
  cbn [wrrLoop]. pose proof (wrrStep_same a b Hs) as Hstep.
  destruct (wrrStep a) as [[t a']|a'], (wrrStep b) as [[u b']|b']; try done.
  by apply IH.
Qed.

Lemma wrrCalls_same k a b :
  sameSelectionState a b -> wrrCalls k a = wrrCalls k b.
Proof.
  revert a b. induction k as [|k IH]; intros a b Hs; [done|].
  cbn [wrrCalls]. unfold wrrNext.
  pose proof (sameSelectionState_length a b Hs) as Hlen.
  assert (Hbound : wrrBound a = wrrBound b).
  { unfold wrrBound. destruct Hs as (_ & _ & -> & _ & _ & ->). by rewrite Hlen. }
  destruct (targets a) as [|x xs] eqn:Ea, (targets b) as [|y ys] eqn:Eb;
    try discriminate Hlen.
  - f_equal. apply IH. done.
  - rewrite Hbound. pose proof (wrrLoop_same (wrrBound b) a b Hs) as Hrun.
    destruct (wrrLoop (wrrBound b) a) as [[t a']|],
             (wrrLoop (wrrBound b) b) as [[u b']|]; try done.
    destruct Hrun as [-> Hs']. f_equal. by apply IH.
Qed.

End WeightedFacts.

(** C3: on the targets with weights 1 and 2, all live, the first three
    calls on the fresh balancer return the weight-1 target twice and the
    weight-2 target once; the claim asks for once and twice.  The final
    test of the loop returns [targets[0]] at the start of every pass in
    which [currentWeight] has just been reset and the first target is
    lighter than the heaviest one. *)
Theorem weighted_round_robin_light_first_target :
  let w := LoadBalancer.NewWeightedRoundRobin BalancerFixtures.lightFirst in
  LoadBalancer.weights w = [1; 2]
  /\ Selections.wrrCalls 3 w = [Some 0%nat; Some 1%nat; Some 0%nat]
  /\ Selections.timesReturned 0 (Selections.wrrCalls 3 w) = 2%nat
  /\ Selections.timesReturned 1 (Selections.wrrCalls 3 w) = 1%nat.
Proof. vm_compute. repeat split; reflexivity. Qed.

(** C4, as stated, fails: built from a weight-2 and a weight-0 target, the
    balancer returns the weight-0 target on the third call. *)
Lemma zero_weight_target_is_selected : ~ Selections.zero_weight_never_selected.
Proof.
  intros Hclaim.
  apply (Hclaim BalancerFixtures.zeroSecond 1%nat
                (BalancerFixtures.plainTarget "b:8080" 0) 3%nat).
  - reflexivity.
  - reflexivity.
  - apply Exists_cons_hd. simpl. lia.
  - assert (Hret : Selections.wrrCalls 3
                     (LoadBalancer.NewWeightedRoundRobin BalancerFixtures.zeroSecond)
                   = [Some 0%nat; Some 0%nat; Some 1%nat]) by (vm_compute; reflexivity).
    rewrite Hret. simpl. auto.
Qed.

(** C4 (amended): the constructor records weight 1 for a target given
    with weight 0; every [Next] call on the balancer returns, and every
    run of calls returns the targets it returns when that target is given
    weight 1 instead. *)
Theorem zero_weight_counts_as_one
        (ts : list LoadBalancer.Target) (z : nat) (t : LoadBalancer.Target) (k : nat) :
  ts !! z = Some t ->
  LoadBalancer.Weight t = 0 ->
  let t1 := {| LoadBalancer.URL := LoadBalancer.URL t;
               LoadBalancer.Weight := 1;
               LoadBalancer.Healthy := LoadBalancer.Healthy t;
               LoadBalancer.Connections := LoadBalancer.Connections t |} in
  LoadBalancer.weights (LoadBalancer.NewWeightedRoundRobin ts) !! z = Some 1
  /\ length (Selections.wrrCalls k (LoadBalancer.NewWeightedRoundRobin ts)) = k
  /\ Selections.wrrCalls k (LoadBalancer.NewWeightedRoundRobin ts)
     = Selections.wrrCalls k (LoadBalancer.NewWeightedRoundRobin (<[z := t1]> ts)).
Proof.
  intros Hz Hw t1.
  assert (Hew : LoadBalancer.effectiveWeight t = 1)
    by (unfold LoadBalancer.effectiveWeight; rewrite Hw; reflexivity).
  assert (Hweights : map LoadBalancer.effectiveWeight (<[z := t1]> ts)
                     = map LoadBalancer.effectiveWeight ts).
  { change (map LoadBalancer.effectiveWeight) with (fmap (M:=list) LoadBalancer.effectiveWeight).
    rewrite list_fmap_insert. apply list_insert_id.
    rewrite list_lookup_fmap, Hz. cbn. by rewrite Hew. }
  split; [|split].
  - cbn. change (map LoadBalancer.effectiveWeight ts)
      with (LoadBalancer.effectiveWeight <$> ts).
    rewrite list_lookup_fmap, Hz. cbn. by rewrite Hew.
  - apply WeightedFacts.wrrCalls_all_return. by intros ->.
  - apply WeightedFacts.wrrCalls_same.
    unfold Selections.sameSelectionState, LoadBalancer.NewWeightedRoundRobin. cbn.
    rewrite Hweights. repeat split.
    assert (G : forall l : list LoadBalancer.Target,
              map LoadBalancer.Healthy (map (LoadBalancer.setHealthy true) l)
              = replicate (length l) true).
    { induction l as [|x l IH]; [done|]. simpl. by rewrite IH. }
    rewrite !G. by rewrite length_insert.
Qed.

Lemma zero_weight_counts_as_one_witness :
  BalancerFixtures.zeroSecond !! 1%nat = Some (BalancerFixtures.plainTarget "b:8080" 0)
  /\ LoadBalancer.Weight (BalancerFixtures.plainTarget "b:8080" 0) = 0
  /\ LoadBalancer.weights (LoadBalancer.NewWeightedRoundRobin BalancerFixtures.zeroSecond)
       !! 1%nat = Some 1
  /\ length (Selections.wrrCalls 6
               (LoadBalancer.NewWeightedRoundRobin BalancerFixtures.zeroSecond)) = 6%nat
  /\ Selections.wrrCalls 6 (LoadBalancer.NewWeightedRoundRobin BalancerFixtures.zeroSecond)
     = Selections.wrrCalls 6
         (LoadBalancer.NewWeightedRoundRobin
            (<[1%nat := BalancerFixtures.plainTarget "b:8080" 1]>
               BalancerFixtures.zeroSecond)).
Proof.
  split; [reflexivity|]. split; [reflexivity|].
  apply (zero_weight_counts_as_one BalancerFixtures.zeroSecond 1
           (BalancerFixtures.plainTarget "b:8080" 0) 6); reflexivity.
Defined.

(** ** Token buckets *)

#[export] Instance exactLaws : @Float64Laws exactArith.
Proof.
  refine {| fle := Qle |}; cbn.
  - apply Qle_refl.
  - apply Qle_trans.
  - intros a b E. apply Qle_bool_imp_le. by destruct (Qle_bool a b).
  - intros a b E. by apply Qle_bool_imp_le.
  - intros m n Hmn. by rewrite <- Zle_Qle.
  - intros d Hd. unfold Qle. simpl. lia.
  - intros a b. apply Qmult_le_0_compat.
  - intros a b Hb. rewrite <- (Qplus_0_r a) at 1. by apply Qplus_le_r.
  - intros a Ha. unfold Qminus. apply (Qplus_le_l _ _ (inject_Z 1)).
    ring_simplify. exact Ha.
  - intros a. unfold Qminus. apply (Qplus_le_l _ _ (inject_Z 1)).
    ring_simplify. rewrite <- (Qplus_0_r a) at 1. by apply Qplus_le_r.
Defined.

Module BucketFacts.
Import GoTime RateLimit BucketRuns.

Lemma Sub_nonneg t u : u <= t -> 0 <= Sub t u.
Proof.
  intros Hle. unfold Sub, minDuration, maxDuration.
  assert (0 < 2 ^ 63) by (vm_compute; reflexivity). lia.
Qed.

Section WithLaws.
Context `{Float64Laws}.

Lemma New_sound rps burst created :
  0 <= rps -> 0 <= burst -> sound (NewTokenBucket rps burst created) created.
Proof.
  intros Hr Hb. unfold sound, withinCapacity. cbn.
  repeat split; try apply ofInt_mono; try apply fle_refl; lia.
Qed.

Lemma refill_sound tb now now' :
  sound tb now -> now <= now' -> sound (refill tb now') now'.
Proof.
  intros ((Hlow & Hcap) & Hrate & Hlast) Hnow.
  unfold sound, withinCapacity, refill. cbn.
  assert (Hadd : fle (ofInt 0)
                   (fadd (tokens tb)
                      (fmul (Seconds (Sub now' (lastRefill tb))) (refillRate tb)))).
  { eapply fle_trans; [exact Hlow|]. apply fadd_nonneg. apply fmul_nonneg; [|done].
    apply Seconds_nonneg. apply Sub_nonneg. lia. }
  destruct (fgt _ (maxTokens tb)) eqn:E.
  - repeat split; try done; try lia.
    + by apply (fle_trans _ (tokens tb)).
    + apply fle_refl.
  - repeat split; try done; try lia. by apply fgt_false.
Qed.

Lemma bucketAllow_sound tb now now' :
  sound tb now -> now <= now' -> sound (snd (bucketAllow tb now')) now'.
Proof.
  intros Hs Hnow. pose proof (refill_sound tb now now' Hs Hnow) as Hr.
  unfold bucketAllow. destruct (fge _ _) eqn:E; [|exact Hr].
  destruct Hr as ((Hlow & Hcap) & Hrate & Hlast).
  unfold sound, withinCapacity. cbn -[refill].
  repeat split; try done.
  - apply fsub_one_nonneg. by apply fge_true.
  - eapply fle_trans; [apply fsub_one_le|done].
Qed.

Lemma allowRun_sound advances tb now :
  sound tb now ->
  Forall (fun r => withinCapacity (snd r)) (allowRun tb now advances).
Proof.
  revert tb now. induction advances as [|d rest IH]; intros tb now Hs; [constructor|].
  cbn [allowRun].
  pose proof (bucketAllow_sound tb now (now + Z.of_N d) Hs ltac:(lia)) as Hs'.
  destruct (bucketAllow tb (now + Z.of_N d)) as [ok tb'] eqn:E.
  constructor; [apply Hs'|]. by apply IH.
Qed.

End WithLaws.

End BucketFacts.

(** C7, as stated, fails: a bucket built with rate -1 and burst 2 holds
    2 tokens, and an [Allow] five seconds later refills it by -5 and
    leaves it at -3 tokens. *)
Lemma negative_rate_goes_below_zero :
  ~ @BucketRuns.token_level_always_bounded exactArith exactLaws.
Proof.
  intros Hclaim.
  specialize (Hclaim (-1) 2 0 [5000000000%N]).
  apply Forall_cons in Hclaim as [[Hlow _] _].
  vm_compute in Hlow. apply Hlow. reflexivity.
Qed.

(** C7 (amended): for every token bucket built with a non-negative rate
    and a non-negative burst, [0 <= tokens <= capacity] holds after each
    of any sequence of [Allow] calls. *)
Theorem token_level_bounded
        `{Float64Laws} (rps burst : Z) (created : GoTime.Time) (advances : list N) :
  0 <= rps ->
  0 <= burst ->
  Forall (fun r => BucketRuns.withinCapacity (snd r))
         (BucketRuns.allowRun (RateLimit.NewTokenBucket rps burst created)
                              created advances).
Proof.
  intros Hr Hb. apply BucketFacts.allowRun_sound. by apply BucketFacts.New_sound.
Qed.

Lemma token_level_bounded_witness :
  0 <= 10 /\ 0 <= 10
  /\ Forall (fun r => @BucketRuns.withinCapacity exactArith exactLaws (snd r))
       (BucketRuns.allowRun (RateLimit.NewTokenBucket 10 10 0) 0
                            [0%N; 0%N; 250000000%N; 5000000000%N]).
Proof.
  split; [lia|]. split; [lia|].
  apply (@token_level_bounded exactArith exactLaws 10 10 0); lia.
Defined.

(** ** [sort.Slice] on short slices *)

Module SortFacts.

Lemma sinkLeft_perm {A} (less : A -> A -> bool) x l :
  Permutation (sinkLeft less x l) (x :: l).
Proof.
  induction l as [|y l IH]; simpl; [done|].
  destruct (less x y); [|done].
  rewrite IH. apply perm_swap.
Qed.

Lemma sinkLeft_sorted {A} (less : A -> A -> bool) x l :
  (forall a b, less a b = true -> less b a = false) ->
  (forall a b c, less a b = false -> less b c = false -> less a c = false) ->
  StronglySorted (fun a b => less a b = false) l ->
  StronglySorted (fun a b => less a b = false) (sinkLeft less x l).
Proof.
  intros Hasym Hneg. induction l as [|y l IH]; intros Hs; simpl.
  - repeat constructor.
  - apply StronglySorted_cons in Hs as [Hy Hl].
    destruct (less x y) eqn:E.
    + apply StronglySorted_cons. split; [|by apply IH].
      rewrite (sinkLeft_perm less x l). constructor; [by apply Hasym|done].
    + apply StronglySorted_cons. split.
      * constructor; [done|]. eapply Forall_impl; [exact Hy|].
        intros z Hz. by apply (Hneg x y z).
      * apply StronglySorted_cons. done.
Qed.

Lemma StronglySorted_rev {A} (R : A -> A -> Prop) l :
  StronglySorted R l -> StronglySorted (fun a b => R b a) (rev l).
Proof.
  induction l as [|x l IH]; intros Hs; simpl; [constructor|].
  apply StronglySorted_cons in Hs as [Hx Hl].
  apply StronglySorted_app. split; [|split].
  - intros a b Ha Hb. apply list_elem_of_singleton in Hb as ->.
    rewrite Forall_forall in Hx. apply Hx.
    apply list_elem_of_In. apply in_rev. by apply list_elem_of_In.
  - by apply IH.
  - repeat constructor.
Qed.

Lemma StronglySorted_weaken {A} (R S : A -> A -> Prop) l :
  (forall a b, R a b -> S a b) -> StronglySorted R l -> StronglySorted S l.
Proof.
  intros HRS Hs. induction Hs as [|a l Hs IH Ha]; constructor; [done|].
  eapply Forall_impl; [exact Ha|]. intros b. apply HRS.
Qed.

End SortFacts.

#[export] Instance insertionSortLaws : @SortLaws goInsertionSort.
Proof.
  split.
  - intros A less data. cbn. unfold insertionSort.
    rewrite <- Permutation_rev.
    assert (G : forall acc, Permutation
                  (fold_left (fun acc x => sinkLeft less x acc) data acc) (data ++ acc)).
    { induction data as [|x data IH]; intros acc; simpl; [done|].
      rewrite IH, SortFacts.sinkLeft_perm. symmetry. apply Permutation_middle. }
    rewrite G. by rewrite app_nil_r.
  - intros A less data Hasym Hneg. cbn. unfold insertionSort.
    apply (SortFacts.StronglySorted_rev (fun a b => less a b = false)).
    assert (G : forall acc,
              StronglySorted (fun a b => less a b = false) acc ->
              StronglySorted (fun a b => less a b = false)
                (fold_left (fun acc x => sinkLeft less x acc) data acc)).
    { induction data as [|x data IH]; intros acc Hacc; simpl; [done|].
      apply IH. by apply SortFacts.sinkLeft_sorted. }
    apply G. constructor.
Defined.

(** ** The route matcher *)

Module RouterFacts.
Import Router Routing.

Section WithLibraries.
Context `{CaseMapping} `{Sorter}.

(** *** Priority *)

Lemma calculatePriority_spec segs : calculatePriority segs = specPriority segs.
Proof.
  unfold calculatePriority, specPriority, howMany.
  assert (G : forall acc,
            fold_left
              (fun priority seg =>
                 if isWild seg then priority - 5
                 else if isParam seg then priority - 2 else priority + 3)
              segs acc
            = acc + 3 * Z.of_nat (length (List.filter literalSeg segs))
              - 2 * Z.of_nat (length (List.filter parameterSeg segs))
              - 5 * Z.of_nat (length (List.filter wildcardSeg segs))).
  { induction segs as [|s segs IH]; intros acc; [simpl; lia|].
    cbn [fold_left List.filter]. rewrite IH.
    unfold literalSeg, parameterSeg, wildcardSeg.
    destruct (isWild s), (isParam s); cbn [negb andb length]; lia. }
  rewrite G. lia.
Qed.

(** *** What [New] builds *)

Lemma buildEntries_In cfgs next e :
  In e (buildEntries cfgs next) ->
  exists (i : nat) cfg, cfgs !! i = Some cfg /\ e = newEntry (next + i)%nat cfg.
Proof.
  revert next. induction cfgs as [|cfg cfgs IH]; intros next; [done|].
  intros [<-|Hin].
  - exists 0%nat, cfg. split; [done|]. f_equal. lia.
  - destruct (IH (S next) Hin) as (i & cfg' & Hi & ->).
    exists (S i), cfg'. split; [done|]. f_equal. lia.
Qed.

Context `{!SortLaws}.

Lemma New_entries cfgs e :
  In e (routes (theRouter (New cfgs))) ->
  exists (i : nat) cfg,
    cfgs !! i = Some cfg /\ e = newEntry i cfg
    /\ cells (New cfgs) !! route e = Some (newRoute cfg).
Proof.
  cbn. intros Hin.
  eapply Permutation_in in Hin; [|apply sortSlice_perm].
  apply buildEntries_In in Hin as (i & cfg & Hi & ->).
  exists i, cfg. split; [done|]. split; [done|].
  cbn. change (map newRoute cfgs) with (newRoute <$> cfgs).
  by rewrite list_lookup_fmap, Hi.
Qed.

Lemma New_priority cfgs e :
  In e (routes (theRouter (New cfgs))) ->
  priority e = specPriority (segments e).
Proof.
  intros Hin. apply New_entries in Hin as (i & cfg & _ & -> & _).
  cbn. apply calculatePriority_spec.
Qed.

Lemma New_sorted cfgs :
  StronglySorted (fun a b => priority b <= priority a)
                 (routes (theRouter (New cfgs))).
Proof.
  cbn.
  pose proof (sortSlice_sorted routeEntry
                (fun a b => priority a >? priority b)
                (buildEntries cfgs 0%nat)) as Hs.
  eapply SortFacts.StronglySorted_weaken; [|apply Hs].
  - intros a b Hab. cbn in Hab. lia.
  - intros a b. lia.
  - intros a b c. lia.
Qed.

(** *** The scan of [Match] *)

Lemma matchEntries_frame es host path method m :
  match matchEntries es host path method m with
  | (Matched p, m') =>
      p = length (cells m)
      /\ exists e rt ps,
           In e es /\ cells m !! route e = Some rt
           /\ m' = {| theRouter := theRouter m;
                      cells := cells m ++ [withParams rt ps] |}
  | (_, m') => m' = m
  end.
Proof.
  induction es as [|e es IH]; cbn [matchEntries]; [done|].
  destruct (cells m !! route e) as [rt|] eqn:Ert; [|done].
  destruct (tryEntry rt e host path method) as [ps|] eqn:Etry.
  - split; [done|]. exists e, rt, ps. split; [by left|done].
  - destruct (matchEntries es host path method m) as [[p| |] m']; try done.
    destruct IH as (-> & e' & rt' & ps' & Hin & Hrt & ->).
    split; [done|]. exists e', rt', ps'. split; [by right|done].
Qed.

Lemma matchEntries_scan es host path method m :
  (forall e, In e es -> is_Some (cells m !! route e)) ->
  (matchEntries es host path method m = (NoMatch, m)
   /\ forall e, In e es -> hit m host path method e = None)
  \/ exists pre e post rt ps,
       es = pre ++ e :: post
       /\ (forall e', In e' pre -> hit m host path method e' = None)
       /\ cells m !! route e = Some rt
       /\ tryEntry rt e host path method = Some ps
       /\ matchEntries es host path method m
          = (Matched (length (cells m)),
             {| theRouter := theRouter m;
                cells := cells m ++ [withParams rt ps] |}).
Proof.
  induction es as [|e es IH]; intros Hvalid.
  - left. split; [done|]. intros e [].
  - destruct (Hvalid e (or_introl eq_refl)) as [rt Hrt].
    cbn [matchEntries]. rewrite Hrt.
    destruct (tryEntry rt e host path method) as [ps|] eqn:Etry.
    + right. exists [], e, es, rt, ps. by repeat split.
    + assert (Hmiss : hit m host path method e = None)
        by (unfold hit; by rewrite Hrt).
      destruct IH as [[Hres Hnone]|(pre & e' & post & rt' & ps' & -> & Hpre & Hrt' & Hps' & Hres)].
      * intros e' He'. apply Hvalid. by right.
      * left. split; [done|]. intros e' [<-|He']; [done|by apply Hnone].
      * right. exists (e :: pre), e', post, rt', ps'.
        repeat split; try done. intros e'' [<-|He'']; [done|by apply Hpre].
Qed.

End WithLibraries.

End RouterFacts.

(** C2 (amended): when two routes match a request and the first has the
    strictly greater priority (ten per segment, plus three per literal,
    minus two per named parameter, minus five per wildcard), [Match]
    returns the per-call copy of a matching route whose priority is the
    greatest among all matching routes; that route is never the second
    one, and it is the first one whenever every other matching route has a
    smaller priority than the first. *)
Theorem Match_returns_best_match
        `{CaseMapping} `{Sorter} `{!SortLaws}
        (cfgs : list Config.Route) (req : Router.Request)
        (e1 e2 : Router.routeEntry) (ps1 ps2 : Router.params) :
  let m := Router.New cfgs in
  In e1 (Router.routes (Router.theRouter m)) ->
  In e2 (Router.routes (Router.theRouter m)) ->
  Routing.entryMatches m e1 req = Some ps1 ->
  Routing.entryMatches m e2 req = Some ps2 ->
  Routing.specPriority (Router.segments e1) > Routing.specPriority (Router.segments e2) ->
  exists e rt ps,
    In e (Router.routes (Router.theRouter m))
    /\ Router.cells m !! Router.route e = Some rt
    /\ Routing.entryMatches m e req = Some ps
    /\ Router.Match m req
       = (Router.Matched (length (Router.cells m)),
          {| Router.theRouter := Router.theRouter m;
             Router.cells := Router.cells m ++ [Router.withParams rt ps] |})
    /\ (forall e',
          In e' (Router.routes (Router.theRouter m)) ->
          is_Some (Routing.entryMatches m e' req) ->
          Routing.specPriority (Router.segments e')
          <= Routing.specPriority (Router.segments e))
    /\ e <> e2
    /\ ((forall e',
           In e' (Router.routes (Router.theRouter m)) ->
           is_Some (Routing.entryMatches m e' req) ->
           e' <> e1 ->
           Routing.specPriority (Router.segments e')
           < Routing.specPriority (Router.segments e1)) ->
        e = e1).
Proof.
  intros m He1 He2 Hm1 Hm2 Hgt.
  destruct (RouterFacts.matchEntries_scan
              (Router.routes (Router.theRouter m))
              (Routing.requestHost req) (Router.reqPath req) (Router.reqMethod req) m)
    as [[_ Hnone]|(pre & e & post & rt & ps & Hsplit & Hpre & Hrt & Hps & Hres)].
  - intros e He. apply RouterFacts.New_entries in He as (i & cfg & _ & _ & Hc).
    fold m in Hc. rewrite Hc. eauto.
  - specialize (Hnone e1 He1). unfold Routing.entryMatches in Hm1.
    unfold Routing.hit in Hnone. congruence.
  - assert (Hin : In e (Router.routes (Router.theRouter m)))
      by (rewrite Hsplit; apply in_elt).
    assert (Hmatch : Routing.entryMatches m e req = Some ps)
      by (unfold Routing.entryMatches; by rewrite Hrt).
    assert (Hmax : forall e',
               In e' (Router.routes (Router.theRouter m)) ->
               is_Some (Routing.entryMatches m e' req) ->
               Routing.specPriority (Router.segments e')
               <= Routing.specPriority (Router.segments e)).
    { intros e' He' [ps' Hps'].
      rewrite <- (RouterFacts.New_priority cfgs e' He'),
              <- (RouterFacts.New_priority cfgs e Hin).
      pose proof (RouterFacts.New_sorted cfgs) as Hsorted. fold m in Hsorted.
      rewrite Hsplit in He', Hsorted.
      apply in_app_or in He' as [He'|[<-|He']].
      - specialize (Hpre e' He'). unfold Routing.entryMatches in Hps'.
        unfold Routing.hit in Hpre. congruence.
      - lia.
      - apply StronglySorted_app_1_r, StronglySorted_cons in Hsorted as [Hall _].
        rewrite Forall_forall in Hall. apply Hall. by apply list_elem_of_In. }
    exists e, rt, ps. repeat split; try done.
    + intros ->. specialize (Hmax e1 He1 ltac:(eauto)). lia.
    + intros Hunique. destruct (decide (e = e1)) as [|Hne]; [done|].
      specialize (Hunique e Hin ltac:(eauto) Hne).
      specialize (Hmax e1 He1 ltac:(eauto)). lia.
Qed.

(** C2, as stated, fails: with the routes [/**], [/api/**],
    [/api/v1/users] and [/api/v1/*], the request [/api/v1/users] matches
    [/api/v1/*] (priority 31) and [/api/**] (priority 18), and [Match]
    returns neither: it returns [/api/v1/users] (priority 39). *)
Lemma third_route_outranks_both :
  ~ @Routing.higher_priority_match_returned asciiCase goInsertionSort.
Proof.
  intros Hclaim.
  destruct (Hclaim Fixtures.priorityRoutes (Fixtures.get "/api/v1/users")
              (Fixtures.entryOf 3 "/api/v1/*" "v1")
              (Fixtures.entryOf 1 "/api/**" "api")
              (Router.newRoute (Fixtures.routeTo "/api/v1/*" "v1"))
              (Some ∅) (Some {[ "**" := "v1/users" ]}))
    as (at_ & m' & HMatch & Hcell).
  - vm_compute. auto.
  - vm_compute. auto.
  - reflexivity.
  - vm_compute. reflexivity.
  - vm_compute. reflexivity.
  - vm_compute. reflexivity.
  - set (r := Router.Match (Router.New Fixtures.priorityRoutes)
                           (Fixtures.get "/api/v1/users")) in HMatch.
    assert (Hfst : fst r = Router.Matched 4%nat) by (vm_compute; reflexivity).
    assert (Hup : Router.Upstream <$> Router.cells (snd r) !! 4%nat
                  = Some "users-exact") by (vm_compute; reflexivity).
    rewrite HMatch in Hfst, Hup. cbn [fst snd] in Hfst, Hup.
    injection Hfst as ->.
    pose proof (eq_trans (eq_sym Hup) (f_equal (fmap Router.Upstream) Hcell)) as Hbad.
    discriminate Hbad.
Qed.

Lemma Match_returns_best_match_witness :
  let m := @Router.New asciiCase goInsertionSort Fixtures.priorityRoutes in
  let req := Fixtures.get "/api/v1/users" in
  let e1 := Fixtures.entryOf 2 "/api/v1/users" "users-exact" in
  let e2 := Fixtures.entryOf 3 "/api/v1/*" "v1" in
  In e1 (Router.routes (Router.theRouter m))
  /\ In e2 (Router.routes (Router.theRouter m))
  /\ Routing.entryMatches m e1 req = Some (Some ∅)
  /\ Routing.entryMatches m e2 req = Some (Some ∅)
  /\ Routing.specPriority (Router.segments e1) > Routing.specPriority (Router.segments e2)
  /\ exists e rt ps,
       In e (Router.routes (Router.theRouter m))
       /\ Router.cells m !! Router.route e = Some rt
       /\ Routing.entryMatches m e req = Some ps
       /\ Router.Match m req
          = (Router.Matched (length (Router.cells m)),
             {| Router.theRouter := Router.theRouter m;
                Router.cells := Router.cells m ++ [Router.withParams rt ps] |})
       /\ (forall e',
             In e' (Router.routes (Router.theRouter m)) ->
             is_Some (Routing.entryMatches m e' req) ->
             Routing.specPriority (Router.segments e')
             <= Routing.specPriority (Router.segments e))
       /\ e <> e2
       /\ ((forall e',
              In e' (Router.routes (Router.theRouter m)) ->
              is_Some (Routing.entryMatches m e' req) ->
              e' <> e1 ->
              Routing.specPriority (Router.segments e')
              < Routing.specPriority (Router.segments e1)) ->
           e = e1).
Proof.
  intros m req e1 e2.
  assert (Hin1 : In e1 (Router.routes (Router.theRouter m))) by (vm_compute; auto).
  assert (Hin2 : In e2 (Router.routes (Router.theRouter m))) by (vm_compute; auto).
  assert (Hm1 : Routing.entryMatches m e1 req = Some (Some ∅))
    by (vm_compute; reflexivity).
  assert (Hm2 : Routing.entryMatches m e2 req = Some (Some ∅))
    by (vm_compute; reflexivity).
  assert (Hgt : Routing.specPriority (Router.segments e1)
                > Routing.specPriority (Router.segments e2))
    by (vm_compute; reflexivity).
  split; [exact Hin1|]. split; [exact Hin2|]. split; [exact Hm1|].
  split; [exact Hm2|]. split; [exact Hgt|].
  exact (@Match_returns_best_match asciiCase goInsertionSort insertionSortLaws
           Fixtures.priorityRoutes req e1 e2 (Some ∅) (Some ∅)
           Hin1 Hin2 Hm1 Hm2 Hgt).
Defined.

(** C9: [Match] never mutates the router.  Along any run of [Match]
    calls, after each call the router object (its entries with their
    segments and priorities, in their sorted order) is the one the run
    started with and every [Route] object that existed at the start is
    unchanged; a call that matches allocates one fresh object, the copy of
    the matched entry's route with the captured parameters, and a call
    that does not match changes nothing. *)
Theorem Match_never_mutates_router
        `{CaseMapping} `{Sorter} (m0 : Router.Memory) (reqs : list Router.Request) :
  Forall
    (fun call : Router.Memory * Router.MatchResult * Router.Memory =>
       let '(before, res, after) := call in
       Router.theRouter after = Router.theRouter m0
       /\ (forall a rt, Router.cells m0 !! a = Some rt ->
                        Router.cells after !! a = Some rt)
       /\ match res with
          | Router.Matched p =>
              p = length (Router.cells before)
              /\ exists e rt ps,
                   In e (Router.routes (Router.theRouter m0))
                   /\ Router.cells before !! Router.route e = Some rt
                   /\ Router.cells after
                      = Router.cells before ++ [Router.withParams rt ps]
          | _ => after = before
          end)
    (Routing.matchAll reqs m0).
Proof.
  assert (G : forall m,
            Router.theRouter m = Router.theRouter m0 ->
            (forall a rt, Router.cells m0 !! a = Some rt ->
                          Router.cells m !! a = Some rt) ->
            Forall
              (fun call : Router.Memory * Router.MatchResult * Router.Memory =>
                 let '(before, res, after) := call in
                 Router.theRouter after = Router.theRouter m0
                 /\ (forall a rt, Router.cells m0 !! a = Some rt ->
                                  Router.cells after !! a = Some rt)
                 /\ match res with
                    | Router.Matched p =>
                        p = length (Router.cells before)
                        /\ exists e rt ps,
                             In e (Router.routes (Router.theRouter m0))
                             /\ Router.cells before !! Router.route e = Some rt
                             /\ Router.cells after
                                = Router.cells before ++ [Router.withParams rt ps]
                    | _ => after = before
                    end)
              (Routing.matchAll reqs m)).
  { induction reqs as [|req reqs IH]; intros m Hrouter Hcells; [constructor|].
    cbn [Routing.matchAll].
    pose proof (RouterFacts.matchEntries_frame
                  (Router.routes (Router.theRouter m))
                  (Routing.requestHost req) (Router.reqPath req)
                  (Router.reqMethod req) m) as Hframe.
    change (Router.matchEntries _ _ _ _ m) with (Router.Match m req) in Hframe.
    destruct (Router.Match m req) as [res m'].
    destruct res as [p| |].
    - destruct Hframe as (-> & e & rt & ps & Hin & Hrt & ->).
      assert (Hkeep : forall a rt0, Router.cells m0 !! a = Some rt0 ->
                (Router.cells m ++ [Router.withParams rt ps]) !! a = Some rt0)
        by (intros a rt0 Ha; apply lookup_app_l_Some; auto).
      constructor.
      + split; [done|]. split; [exact Hkeep|]. split; [done|].
        exists e, rt, ps. rewrite <- Hrouter. done.
      + apply IH; done.
    - subst m'. constructor; [done|]. by apply IH.
    - subst m'. constructor; [done|]. by apply IH. }
  by apply G.
Qed.

(** ** Strings *)

Module StringFacts.

Local Open Scope string_scope.

Lemma append_cons a s t : String a s ++ t = String a (s ++ t).
Proof. reflexivity. Qed.

Lemma append_nil_l s : "" ++ s = s.
Proof. reflexivity. Qed.

Lemma append_nil_r s : s ++ "" = s.
Proof.
  induction s as [|a s IH]; [done|]. by rewrite append_cons, IH.
Qed.

Lemma append_assoc s t u : (s ++ t) ++ u = s ++ (t ++ u).
Proof.
  induction s as [|a s IH]; [done|]. by rewrite !append_cons, IH.
Qed.

Lemma rev_onto_append s acc : rev_onto s acc = reversed s ++ acc.
Proof.
  unfold reversed. revert acc. induction s as [|a s IH]; intros acc; [done|].
  cbn [rev_onto]. rewrite IH, (IH (String a "")), append_assoc. done.
Qed.

Lemma reversed_cons a s : reversed (String a s) = reversed s ++ String a "".
Proof. unfold reversed at 1. cbn [rev_onto]. apply rev_onto_append. Qed.

Lemma reversed_append s t : reversed (s ++ t) = reversed t ++ reversed s.
Proof.
  induction s as [|a s IH].
  - by rewrite append_nil_l, append_nil_r.
  - by rewrite append_cons, !reversed_cons, IH, append_assoc.
Qed.

Lemma reversed_involutive s : reversed (reversed s) = s.
Proof.
  induction s as [|a s IH]; [done|].
  rewrite reversed_cons, reversed_append, IH. done.
Qed.

Lemma dropPrefix_append p r : dropPrefix (p ++ r) p = Some r.
Proof.
  induction p as [|a p IH]; [by destruct r|].
  rewrite append_cons. cbn [dropPrefix]. by rewrite Ascii.eqb_refl.
Qed.

Lemma TrimPrefix_append p r : TrimPrefix (p ++ r) p = r.
Proof. unfold TrimPrefix. by rewrite dropPrefix_append. Qed.

Lemma TrimSuffix_append s p : TrimSuffix (s ++ p) p = s.
Proof.
  unfold TrimSuffix. rewrite reversed_append, dropPrefix_append.
  apply reversed_involutive.
Qed.

Lemma TrimLeft_clear c s : clearOf c (TrimLeft c s).
Proof.
  induction s as [|a s IH]; simpl; [by left|].
  destruct (Ascii.eqb_spec a c) as [->|Hne]; [done|].
  right. by exists a, s.
Qed.

Lemma TrimLeft_keeps_last c a l :
  a <> c -> exists l', TrimLeft c (l ++ String a "") = l' ++ String a "".
Proof.
  intros Hne. induction l as [|b l IH].
  - rewrite append_nil_l. cbn [TrimLeft].
    destruct (Ascii.eqb_spec a c); [done|]. by exists "".
  - rewrite append_cons. cbn [TrimLeft].
    destruct (Ascii.eqb_spec b c); [done|]. by exists (String b l).
Qed.

Lemma Trim_clear c s : clearOf c (Trim c s).
Proof.
  unfold Trim, TrimRight.
  destruct (TrimLeft_clear c s) as [->|(a & t & -> & Hne)]; [by left|].
  rewrite reversed_cons.
  destruct (TrimLeft_keeps_last c a (reversed t) Hne) as [l' ->].
  rewrite reversed_append. right. by exists a, (reversed l').
Qed.

Lemma Split_head c a t :
  a <> c -> exists h rest, Split c (String a t) = String a h :: rest.
Proof.
  intros Hne. simpl. destruct (Ascii.eqb_spec a c); [done|].
  destruct (Split c t); eauto.
Qed.

Lemma mapBytes_nonempty f s : mapBytes f s = "" -> s = "".
Proof. by destruct s. Qed.

End StringFacts.

#[export] Instance asciiCaseLaws : @CaseLaws asciiCase.
Proof. split. apply StringFacts.mapBytes_nonempty. Defined.

(** ** Path patterns *)

Module PathFacts.
Import Router Routing StringFacts.

Section WithCase.
Context `{CaseMapping}.

Lemma matchLoop_rest post parts bound :
  matchLoop (restWildcard :: post) parts bound
  = (Some (match parts with
           | [] => bound
           | _ :: _ => <["**" := Join parts "/"]> bound
           end), true).
Proof. reflexivity. Qed.

Lemma matchLoop_ignores_after_rest pre post parts bound :
  matchLoop (pre ++ restWildcard :: post) parts bound
  = matchLoop (pre ++ [restWildcard]) parts bound.
Proof.
  revert parts bound. induction pre as [|seg pre IH]; intros parts bound; [done|].
  cbn [app matchLoop].
  destruct (isWild seg); [destruct (String.eqb (value seg) "**"); [done|]|].
  - destruct parts; [done|apply IH].
  - destruct (isParam seg); destruct parts as [|part parts]; try done; try apply IH.
    destruct (String.eqb (ToLower part) (value seg)); [apply IH|done].
Qed.

Lemma Split_rest_nonempty pattern pre post :
  Split "/" (Trim "/" pattern) = pre ++ "**" :: post ->
  String.eqb (Trim "/" pattern) "" = false.
Proof.
  intros E. apply String.eqb_neq. intros E0. rewrite E0 in E. cbn in E.
  destruct pre as [|x pre]; [discriminate E|].
  destruct pre; discriminate E.
Qed.

(** *** The prefix [StripPrefix] computes *)

Lemma slashEnded_slashJoined run :
  ("/" ++ slashEnded run)%string = (slashJoined run ++ "/")%string.
Proof.
  induction run as [|s run IH]; [done|].
  cbn [slashEnded slashJoined].
  rewrite !append_assoc, <- IH. done.
Qed.

Lemma StripPrefix_unfold r path :
  StripPath r = true ->
  StripPrefix r path
  = let prefix := slashJoined (literalRun (parseSegments (Pattern r))) in
    if String.eqb prefix "/" then path else TrimPrefix path prefix.
Proof.
  intros E. unfold StripPrefix. rewrite E. cbn [negb].
  assert (G : forall segs acc,
            (fix walk (segs : list segment) (prefix : string) {struct segs} : string :=
               match segs with
               | [] => prefix
               | seg :: segs' =>
                   if (isWild seg || isParam seg)%bool then prefix
                   else walk segs' (prefix ++ value seg ++ "/")%string
               end) segs acc
            = (acc ++ slashEnded (literalRun segs))%string).
  { induction segs as [|seg segs IH]; intros acc.
    - cbn [literalRun slashEnded]. by rewrite append_nil_r.
    - cbn [literalRun]. unfold literalSeg.
      destruct (isWild seg), (isParam seg); cbn [orb negb andb slashEnded];
        try by rewrite append_nil_r.
      rewrite IH, !append_assoc. done. }
  rewrite G, slashEnded_slashJoined, TrimSuffix_append. done.
Qed.

Lemma parsePart_literal part :
  literalSeg (parsePart part) = true -> value (parsePart part) = ToLower part.
Proof.
  unfold parsePart, literalSeg.
  repeat match goal with
         | |- context [if ?c then _ else _] => destruct c
         end; cbn; done.
Qed.

Context `{!CaseLaws}.

(** The computed prefix is never the bare slash: a pattern that is not
    empty after trimming starts with a non-empty piece. *)
Lemma strippablePrefix_not_slash pattern :
  slashJoined (literalRun (parseSegments pattern)) <> "/".
Proof.
  unfold parseSegments.
  destruct (String.eqb_spec (Trim "/" pattern) "") as [E|Hne]; [done|].
  destruct (Trim_clear "/" pattern) as [E|(a & t & E & Ha)]; [done|].
  rewrite E. destruct (Split_head "/" a t Ha) as (h & rest & ->).
  cbn [map literalRun].
  destruct (literalSeg (parsePart (String a h))) eqn:Elit; [|done].
  cbn [slashJoined]. rewrite (parsePart_literal _ Elit).
  destruct (ToLower (String a h)) as [|b low] eqn:Elow.
  - apply ToLower_nonempty in Elow. discriminate Elow.
  - rewrite append_cons. discriminate.
Qed.

End WithCase.

End PathFacts.

(** C10: a pattern whose [**] is followed by further pieces compiles like
    any other, the [**] becoming a wildcard segment wherever it stands;
    when matching reaches that segment it succeeds at once, binding the
    remaining path components, joined with slashes, under the key [**]
    (nothing is added when no component remains), and the segments after
    it play no part: the pattern matches exactly like the pattern cut
    after its [**]. *)
Theorem rest_wildcard_ends_the_match
        `{CaseMapping} (pattern : string) (pre post : list string) :
  Split "/" (Trim "/" pattern) = pre ++ "**" :: post ->
  let before := map Router.parsePart pre in
  let after := map Router.parsePart post in
  Router.parseSegments pattern = before ++ Routing.restWildcard :: after
  /\ (forall parts bound,
        Router.matchLoop (Routing.restWildcard :: after) parts bound
        = (Some (match parts with
                 | [] => bound
                 | _ :: _ => <["**" := Join parts "/"]> bound
                 end), true))
  /\ (forall parts bound,
        Router.matchLoop (before ++ Routing.restWildcard :: after) parts bound
        = Router.matchLoop (before ++ [Routing.restWildcard]) parts bound)
  /\ (forall path,
        Router.matchPath (Router.parseSegments pattern) path
        = Router.matchPath (before ++ [Routing.restWildcard]) path).
Proof.
  intros Hsplit before after.
  assert (Hsegs : Router.parseSegments pattern
                  = before ++ Routing.restWildcard :: after).
  { unfold Router.parseSegments.
    rewrite (PathFacts.Split_rest_nonempty pattern pre post Hsplit), Hsplit.
    by rewrite map_app. }
  split; [exact Hsegs|]. split; [intros; apply PathFacts.matchLoop_rest|].
  split; [intros; apply PathFacts.matchLoop_ignores_after_rest|].
  intros path. rewrite Hsegs. unfold Router.matchPath.
  destruct before as [|seg before]; [done|].
  cbn [app]. apply (PathFacts.matchLoop_ignores_after_rest (seg :: before)).
Qed.

Lemma rest_wildcard_ends_the_match_witness :
  let pattern := "/api/**/admin/:id" in
  Split "/" (Trim "/" pattern) = ["api"] ++ "**" :: ["admin"; ":id"]
  /\ @Router.parseSegments asciiCase pattern
     = map Router.parsePart ["api"]
       ++ Routing.restWildcard :: map Router.parsePart ["admin"; ":id"]
  /\ (forall path,
        @Router.matchPath asciiCase (Router.parseSegments pattern) path
        = Router.matchPath (map Router.parsePart ["api"] ++ [Routing.restWildcard]) path)
  /\ @Router.matchPath asciiCase (Router.parseSegments pattern) "/api/v1/users"
     = (Some {[ "**" := "v1/users" ]}, true).
Proof.
  intros pattern.
  assert (Hsplit : Split "/" (Trim "/" pattern) = ["api"] ++ "**" :: ["admin"; ":id"])
    by reflexivity.
  destruct (@rest_wildcard_ends_the_match asciiCase pattern ["api"] ["admin"; ":id"] Hsplit)
    as (Hsegs & _ & _ & Hpath).
  split; [exact Hsplit|]. split; [exact Hsegs|]. split; [exact Hpath|].
  rewrite Hpath. vm_compute. reflexivity.
Defined.

(** The slash for an empty remainder comes from the join with the
    target's base path: the joined path is the base path ending in one
    slash. *)
Lemma empty_remainder_joined (base : string) :
  Proxy.singleJoiningSlash base ""
  = if HasSuffix base "/" then base else (base ++ "/")%string.
Proof.
  unfold Proxy.singleJoiningSlash. change (HasPrefix "" "/") with false.
  destruct (HasSuffix base "/"); cbn [andb negb].
  - apply StringFacts.append_nil_r.
  - reflexivity.
Qed.

(** C6, as stated, fails: the route [/api] with [strip_path] matches the
    path [/api], the whole path is the prefix, and [StripPrefix] returns
    the empty remainder as it is, not ["/"]. *)
Lemma empty_remainder_stays_empty :
  ~ @Routing.strip_returns_remainder_or_slash asciiCase.
Proof.
  intros Hclaim.
  destruct (Hclaim (StripFixtures.stripping "/api") "/api")
    as (rest & Hpath & Hstrip).
  - reflexivity.
  - vm_compute. reflexivity.
  - destruct rest as [|a t].
    + vm_compute in Hstrip. discriminate Hstrip.
    + vm_compute in Hpath. discriminate Hpath.
Qed.

(** C6 (amended): for a route with [strip_path], the strippable prefix is
    the leading run of literal segments of its pattern, each written
    after a slash, and a non-literal segment ends it; on every path that
    begins with that prefix [StripPrefix] returns what follows the
    prefix, which is the empty string when nothing follows. *)
Theorem StripPrefix_removes_literal_prefix
        `{CaseMapping} `{!CaseLaws} (r : Router.Route) (rest : string) :
  Router.StripPath r = true ->
  Router.StripPrefix r (Routing.strippablePrefix (Router.Pattern r) ++ rest)%string = rest
  /\ (forall lits s more,
        Router.parseSegments (Router.Pattern r) = lits ++ s :: more ->
        forallb Routing.literalSeg lits = true ->
        Routing.literalSeg s = false ->
        Routing.strippablePrefix (Router.Pattern r) = Routing.slashJoined lits).
Proof.
  intros Hstrip. split.
  - rewrite PathFacts.StripPrefix_unfold by done. cbv zeta.
    fold (Routing.strippablePrefix (Router.Pattern r)).
    destruct (String.eqb_spec (Routing.strippablePrefix (Router.Pattern r)) "/") as [E|_].
    + by apply PathFacts.strippablePrefix_not_slash in E.
    + apply StringFacts.TrimPrefix_append.
  - intros lits s more Hsegs Hlits Hs. unfold Routing.strippablePrefix.
    rewrite Hsegs. f_equal. clear Hsegs.
    induction lits as [|l lits IH]; cbn [app Routing.literalRun].
    + by rewrite Hs.
    + cbn [forallb] in Hlits. apply andb_prop in Hlits as [-> Hlits].
      f_equal. by apply IH.
Qed.

Lemma StripPrefix_removes_literal_prefix_witness :
  let r := StripFixtures.stripping "/api/v1/*" in
  Router.StripPath r = true
  /\ @Routing.strippablePrefix asciiCase (Router.Pattern r) = "/api/v1"
  /\ @Router.StripPrefix asciiCase r "/api/v1/users/123" = "/users/123".
Proof.
  intros r.
  destruct (@StripPrefix_removes_literal_prefix asciiCase asciiCaseLaws
              r "/users/123" eq_refl) as [Hrest _].
  split; [reflexivity|]. split; [reflexivity|]. exact Hrest.
Defined.

(** ** Rate limits in the proxy *)

Module LimitFacts.
Import Proxy Limits.

Section WithFloat.
Context `{Float64}.

Lemma AllowWithLimits_defaults rl c key rps burst :
  RateLimit.defaultRPS (RateLimit.AllowWithLimits rl c key rps burst).1.2
  = RateLimit.defaultRPS rl
  /\ RateLimit.defaultBurst (RateLimit.AllowWithLimits rl c key rps burst).1.2
     = RateLimit.defaultBurst rl.
Proof.
  unfold RateLimit.AllowWithLimits.
  repeat match goal with
         | |- context [let '(_, _) := ?x in _] => destruct x
         end.
  done.
Qed.

Lemma AllowWithLimits_frame rl c key rps burst k :
  k <> key ->
  RateLimit.buckets (RateLimit.AllowWithLimits rl c key rps burst).1.2 !! k
  = RateLimit.buckets rl !! k.
Proof.
  intros Hne. unfold RateLimit.AllowWithLimits.
  repeat match goal with
         | |- context [let '(_, _) := ?x in _] => destruct x
         end.
  cbn. by apply lookup_insert_ne.
Qed.

(** [checkRateLimits] walks the tiers of the specification. *)
Lemma checkRateLimits_runTiers p w route clientIP apiKey routeName :
  checkRateLimits p w route clientIP apiKey routeName
  = runTiers (tiersFor p route clientIP apiKey routeName) p w routeName.
Proof.
  assert (Hip : forall q,
            config q = config p ->
            RateLimit.defaultRPS (rateLimiter q) = RateLimit.defaultRPS (rateLimiter p) ->
            RateLimit.defaultBurst (rateLimiter q) = RateLimit.defaultBurst (rateLimiter p) ->
            ipBlock q w clientIP routeName
            = runTiers
                (if (Config.PerIP (Config.RateLimits (config p))
                     && negb (String.eqb clientIP ""))%bool
                 then [ {| tierLabel := "ip"; tierKey := ("ip:" ++ clientIP)%string;
                           tierRPS := RateLimit.defaultRPS (rateLimiter p);
                           tierBurst := RateLimit.defaultBurst (rateLimiter p) |} ]
                 else []) q w routeName).
  { intros q Hc Hr Hb. unfold ipBlock, RateLimit.Allow. rewrite Hc, Hr, Hb.
    destruct (_ && _)%bool; [|done]. cbn [runTiers tierKey tierRPS tierBurst tierLabel].
    destruct (RateLimit.AllowWithLimits _ _ _ _ _) as [[ok rl] c].
    by destruct ok. }
  assert (Hkey : forall q,
            config q = config p ->
            RateLimit.defaultRPS (rateLimiter q) = RateLimit.defaultRPS (rateLimiter p) ->
            RateLimit.defaultBurst (rateLimiter q) = RateLimit.defaultBurst (rateLimiter p) ->
            apiKeyBlock q w clientIP apiKey routeName
            = runTiers
                ((if (Config.PerAPIKey (Config.RateLimits (config p))
                      && negb (String.eqb apiKey ""))%bool
                  then [ {| tierLabel := "apikey";
                            tierKey := ("apikey:" ++ apiKey)%string;
                            tierRPS := RateLimit.defaultRPS (rateLimiter p);
                            tierBurst := RateLimit.defaultBurst (rateLimiter p) |} ]
                  else [])
                 ++ (if (Config.PerIP (Config.RateLimits (config p))
                         && negb (String.eqb clientIP ""))%bool
                     then [ {| tierLabel := "ip"; tierKey := ("ip:" ++ clientIP)%string;
                               tierRPS := RateLimit.defaultRPS (rateLimiter p);
                               tierBurst := RateLimit.defaultBurst (rateLimiter p) |} ]
                     else [])) q w routeName).
  { intros q Hc Hr Hb. unfold apiKeyBlock, RateLimit.Allow. rewrite Hc, Hr, Hb.
    destruct (Config.PerAPIKey _ && _)%bool; [|by apply Hip].
    cbn [app runTiers tierKey tierRPS tierBurst tierLabel].
    pose proof (AllowWithLimits_defaults (rateLimiter q) (clock q)
                  ("apikey:" ++ apiKey)%string
                  (RateLimit.defaultRPS (rateLimiter p))
                  (RateLimit.defaultBurst (rateLimiter p))) as [Hr' Hb'].
    destruct (RateLimit.AllowWithLimits _ _ _ _ _) as [[ok rl] c].
    destruct ok; [|done]. cbn [negb]. apply Hip; cbn in *; congruence. }
  unfold checkRateLimits, tiersFor.
  destruct (Router.RateLimit route) as [limit|]; [|by apply Hkey].
  destruct (Config.Enabled limit); [|by apply Hkey].
  cbn [app runTiers tierKey tierRPS tierBurst tierLabel].
  pose proof (AllowWithLimits_defaults (rateLimiter p) (clock p)
                ("route:" ++ routeName)%string
                (Config.RequestsPerSecond limit) (Config.BurstSize limit))
    as [Hr' Hb'].
  destruct (RateLimit.AllowWithLimits _ _ _ _ _) as [[ok rl] c].
  destruct ok; [|done]. cbn [negb]. apply Hkey; cbn in *; congruence.
Qed.

Lemma tooManyRequests_answer w :
  respStatus (tooManyRequests w) = StatusTooManyRequests
  /\ respHeader (tooManyRequests w) !! "Retry-After" = Some "1".
Proof.
  split; [done|]. unfold tooManyRequests, httpError, setHeader. cbn.
  rewrite !lookup_insert_ne by discriminate. apply lookup_insert_eq.
Qed.

(** What a walk over tiers does to the buckets, the writer and the
    metrics. *)
Lemma runTiers_outcome tiers p w routeName :
  match runTiers tiers p w routeName with
  | (ok, w', p') =>
      (forall k, ~ In k (consulted tiers p) ->
                 RateLimit.buckets (rateLimiter p') !! k
                 = RateLimit.buckets (rateLimiter p) !! k)
      /\ if ok then
           w' = w /\ consulted tiers p = map tierKey tiers
           /\ metrics p' = metrics p
         else
           respStatus w' = StatusTooManyRequests
           /\ respHeader w' !! "Retry-After" = Some "1"
           /\ exists pre t post,
                tiers = pre ++ t :: post
                /\ consulted tiers p = map tierKey (pre ++ [t])
                /\ metrics p'
                   = metrics p ++ [RecordRateLimitHit routeName (tierLabel t)]
  end.
Proof.
  revert p. induction tiers as [|t tiers IH]; intros p; [done|].
  cbn [runTiers consulted].
  pose proof (fun k => AllowWithLimits_frame (rateLimiter p) (clock p) (tierKey t)
                         (tierRPS t) (tierBurst t) k) as Hframe.
  destruct (RateLimit.AllowWithLimits _ _ _ _ _) as [[ok rl] c].
  cbn [fst snd] in Hframe. destruct ok.
  - specialize (IH (withLimiter p rl c)).
    destruct (runTiers tiers (withLimiter p rl c) w routeName) as [[ok w'] p'].
    destruct IH as [Hkeep Hrest]. split.
    + intros k Hk. rewrite Hkeep by (intros Hin; apply Hk; by right).
      cbn. apply Hframe. intros ->. apply Hk. by left.
    + destruct ok.
      * destruct Hrest as (-> & -> & ->). done.
      * destruct Hrest as (Hs & Hh & pre & t' & post & -> & -> & ->).
        split; [done|]. split; [done|].
        by exists (t :: pre), t', post.
  - split.
    + intros k Hk. cbn. apply Hframe. intros ->. apply Hk. by left.
    + destruct (tooManyRequests_answer w) as [Hs Hh].
      split; [done|]. split; [done|]. by exists [], t, tiers.
Qed.

End WithFloat.

End LimitFacts.

(** C5: with the limiter enabled the handler calls [checkRateLimits],
    which evaluates the applicable limits in the order route
    ([route:<name>], when the route carries an enabled limit), API key
    ([apikey:<key>], when per-key limiting is configured and a key is
    present), client address ([ip:<addr>], when per-address limiting is
    configured and the address is non-empty); at the first that rejects it
    answers 429 with [Retry-After: 1], records the hit under that tier's
    label and consults no later bucket; when none rejects it admits the
    request and writes nothing. *)
Theorem rate_limits_checked_in_order
        `{Float64} (p : Proxy.Proxy) (w : Proxy.ResponseWriter) (route : Router.Route)
        (clientIP apiKey routeName : string) :
  let tiers := Limits.tiersFor p route clientIP apiKey routeName in
  Proxy.checkRateLimits p w route clientIP apiKey routeName
  = Limits.runTiers tiers p w routeName
  /\ match Proxy.checkRateLimits p w route clientIP apiKey routeName with
     | (ok, w', p') =>
         (forall k, ~ In k (Limits.consulted tiers p) ->
                    RateLimit.buckets (Proxy.rateLimiter p') !! k
                    = RateLimit.buckets (Proxy.rateLimiter p) !! k)
         /\ if ok then
              w' = w /\ Limits.consulted tiers p = map Limits.tierKey tiers
              /\ Proxy.metrics p' = Proxy.metrics p
            else
              Proxy.respStatus w' = 429
              /\ Proxy.respHeader w' !! "Retry-After" = Some "1"
              /\ exists pre t post,
                   tiers = pre ++ t :: post
                   /\ Limits.consulted tiers p = map Limits.tierKey (pre ++ [t])
                   /\ Proxy.metrics p'
                      = Proxy.metrics p
                        ++ [Proxy.RecordRateLimitHit routeName (Limits.tierLabel t)]
     end.
Proof.
  intros tiers. split; [apply LimitFacts.checkRateLimits_runTiers|].
  rewrite LimitFacts.checkRateLimits_runTiers.
  apply LimitFacts.runTiers_outcome.
Qed.

(** ** Selection never comes back empty-handed *)

Module NextFacts.
Import LoadBalancer.

Lemma rrScan_some left rr : exists i rr', rrScan left rr = (Some i, rr').
Proof.
  revert rr. induction left as [|left IH]; intros rr; cbn [rrScan]; [eauto|].
  destruct (healthyAt _ _); eauto.
Qed.

Lemma wrrLoop_some fuel w r :
  wrrLoop fuel w = Some r -> exists i w', r = (Some i, w').
Proof.
  revert w. induction fuel as [|fuel IH]; intros w; cbn [wrrLoop]; [done|].
  destruct (wrrStep w) as [r'|w'] eqn:E.
  - intros [= <-]. eapply WeightedFacts.wrrStep_returns_target; eauto.
  - apply IH.
Qed.

(** Over a non-empty slice [Next] returns a target, whatever the
    liveness flags are: nil is returned for the empty slice only. *)
Lemma Next_returns_target lb draw t lb' :
  Targets lb <> [] ->
  Next lb draw = Some (t, lb') ->
  exists i, t = Some i.
Proof.
  intros Hne. destruct lb as [rr|lc|r|w]; cbn [Next Targets] in *.
  - unfold rrNext. destruct (rrTargets rr) eqn:E; [done|].
    destruct (rrScan_some (length (rrTargets rr)) rr) as (i & rr' & Hs).
    rewrite E in Hs. rewrite Hs. intros [= <- _]. eauto.
  - unfold lcNext. destruct (lcTargets lc); [done|].
    destruct (lcScan _ _ _ _); intros [= <- _]; eauto.
  - unfold rndNext. destruct (rndTargets r) eqn:E; [done|]. rewrite <- E.
    destruct (healthyPositions (rndTargets r) 0) as [|h hs] eqn:Eh.
    + intros [= <- _]. eauto.
    + intros [= <- _]. apply lookup_lt_is_Some_2.
      exact (Nat.mod_upper_bound draw (S (length hs)) ltac:(done)).
  - unfold wrrNext. destruct (targets w); [done|].
    destruct (wrrLoop _ w) as [r|] eqn:E; [|done].
    destruct (wrrLoop_some _ _ _ E) as (i & w' & ->). intros [= <- _]. eauto.
Qed.

End NextFacts.

(** C1: a gateway whose route matches and whose upstream has one target,
    marked not live, does not answer 503: [Next] returns the target
    (round robin falls back to [targets[0]]), the handler only tests the
    returned pointer for nil, and the request is forwarded.  The client
    gets the target's answer, or 502 with the label [proxy_error] when
    the target cannot be reached; [no_healthy_upstream] is never
    recorded. *)
Theorem all_targets_down_is_not_503 :
  (exists p, DownFixture.gateway = Some p
             /\ DownFixture.liveTargets p "backend" = [false])
  /\ DownFixture.statusOf (DownFixture.serve DownFixture.answers) = Some 200
  /\ DownFixture.errorsOf (DownFixture.serve DownFixture.answers) = []
  /\ DownFixture.statusOf (DownFixture.serve DownFixture.refuses) = Some 502
  /\ DownFixture.errorsOf (DownFixture.serve DownFixture.refuses)
     = [("/**", "proxy_error")].
Proof.
  split.
  - destruct DownFixture.gateway as [p|] eqn:E; [|by vm_compute in E].
    exists p. split; [done|].
    transitivity (match DownFixture.gateway with
                  | Some q => DownFixture.liveTargets q "backend"
                  | None => []
                  end); [by rewrite E|].
    vm_compute. reflexivity.
  - repeat split; vm_compute; reflexivity.
Qed.

(** ** The handler and [no_healthy_upstream] *)

Module HandlerFacts.
Import Proxy Limits Recorded.

Section WithLibraries.
Context `{CaseMapping} `{Float64}.

Lemma runTiers_upstreams tiers p w routeName :
upstreams (runTiers tiers p w routeName).2 = upstreams p.
Proof.
revert p. induction tiers as [|t tiers IH]; intros p; [done|].
cbn [runTiers].
destruct (RateLimit.AllowWithLimits _ _ _ _ _) as [[ok rl] c].
destruct ok; [by rewrite IH|done].
Qed.

Lemma runTiers_metrics tiers p w routeName :
noHealthyRecorded (runTiers tiers p w routeName).2 -> noHealthyRecorded p.
Proof.
pose proof (LimitFacts.runTiers_outcome tiers p w routeName) as Hout.
destruct (runTiers tiers p w routeName) as [[ok w'] p'].
destruct Hout as [_ Hout]. cbn [snd]. intros [route Hin].
destruct ok.
- destruct Hout as (_ & _ & Hm). rewrite Hm in Hin. by exists route.
- destruct Hout as (_ & _ & pre & t & post & _ & _ & Hm). rewrite Hm in Hin.
apply in_app_or in Hin as [Hin|[Hin|[]]]; [by exists route|discriminate Hin].
Qed.

Lemma record_other p e :
(forall route, e <> RecordError route "no_healthy_upstream") ->
noHealthyRecorded (record p e) -> noHealthyRecorded p.
Proof.
intros He [route Hin]. cbn in Hin.
apply in_app_or in Hin as [Hin|[Hin|[]]]; [by exists route|].
by destruct (He route).
Qed.

Variable httpDo : LoadBalancer.GoURL -> string -> string -> RoundTrip.

Lemma checked_keeps p w route clientIP apiKey routeName admitted w1 p1 :
(if Config.limitsEnabled (Config.RateLimits (config p))
then checkRateLimits p w route clientIP apiKey routeName
else (true, w, p)) = (admitted, w1, p1) ->
upstreams p1 = upstreams p /\ (noHealthyRecorded p1 -> noHealthyRecorded p).
Proof.
destruct (Config.limitsEnabled _).
- rewrite LimitFacts.checkRateLimits_runTiers. intros E.
pose proof (runTiers_upstreams (tiersFor p route clientIP apiKey routeName) p w routeName) as Hu.
pose proof (runTiers_metrics (tiersFor p route clientIP apiKey routeName) p w routeName) as Hm.
rewrite E in Hu, Hm. done.
- intros [= _ _ <-]. done.
Qed.

(** Whatever the liveness flags, a handler call on a gateway whose
upstreams all have targets never records [no_healthy_upstream]: the
branch that answers 503 is not taken. *)
Lemma ServeHTTP_never_no_healthy p w r w' p' :
upstreamsPopulated p ->
ServeHTTP httpDo p w r = Some (w', p') ->
noHealthyRecorded p' -> noHealthyRecorded p.
Proof.
intros Hpop Hserve Hrec. unfold ServeHTTP in Hserve.
destruct (GoTime.Now (clock p)) as [start c].
destruct (Router.Match _ r) as [[at_| |] m]; [| |discriminate Hserve].
2:{ injection Hserve as <- <-. apply record_other in Hrec; [|done].
  destruct Hrec as [route Hin]. by exists route. }
destruct (Router.cells m !! at_) as [route|]; [|discriminate Hserve].
set (routeName := if String.eqb (Router.Name route) "" then Router.Pattern route else Router.Name route) in *.
destruct (extractAPIKey _ r) as [apiKey apiKeyName].
destruct (if Config.limitsEnabled _ then _ else _) as [[admitted w1] p1] eqn:Echeck.
apply checked_keeps in Echeck as [Hups Hmet].
assert (Hback : noHealthyRecorded p1 -> noHealthyRecorded p).
{ intros Hp1. apply Hmet in Hp1. apply record_other in Hp1; [|done].
destruct Hp1 as [rt Hin]. by exists rt. }
destruct admitted; cbn [negb] in Hserve.
2:{ injection Hserve as <- <-. apply record_other in Hrec; [|done]. auto. }
destruct (upstreams p1 !! Router.Upstream route) as [lb|] eqn:Elb.
2:{ injection Hserve as <- <-. do 2 (apply record_other in Hrec; [|done]). auto. }
assert (Hlb : LoadBalancer.Targets lb <> []).
{ rewrite Hups in Elb. by apply (Hpop _ _ Elb). }
assert (Hnext : forall t lb' q, nextTarget p1 lb = Some (t, lb', q) ->
        (exists i, t = Some i) /\ (noHealthyRecorded q -> noHealthyRecorded p1)).
{ intros t lb' q. unfold nextTarget.
destruct lb; try (destruct (LoadBalancer.Next _ _) as [[t0 lb0]|] eqn:En; [|done];
  intros [= <- <- <-]; split; [by eapply NextFacts.Next_returns_target|done]).
destruct (draws p1); (destruct (LoadBalancer.Next _ _) as [[t0 lb0]|] eqn:En; [|done];
  intros [= <- <- <-]; split; [by eapply NextFacts.Next_returns_target|done]). }
destruct (nextTarget p1 lb) as [[[t lb'] q]|]; [|discriminate Hserve].
destruct (Hnext t lb' q eq_refl) as [[i ->] Hq].
destruct (LoadBalancer.Targets lb' !! i) as [target|]; [|discriminate Hserve].
destruct (proxyRequest httpDo w1 r route target) as [[statusCode err] w2].
destruct (GoTime.Now _) as [now c2].
injection Hserve as <- <-.
apply Hback, Hq.
repeat match type of Hrec with
     | noHealthyRecorded (record _ _) => apply record_other in Hrec; [|done]
     | noHealthyRecorded (match ?x with _ => _ end) => destruct x
     | noHealthyRecorded (withUpstreams ?q _) => change (noHealthyRecorded q) in Hrec
     | noHealthyRecorded (withClock ?q _) => change (noHealthyRecorded q) in Hrec
     end.
all: exact Hrec.
Qed.
End WithLibraries.

End HandlerFacts.

(** ** The model on the repository's tests and scenarios *)

Module ModelChecks.
Import TestRuns.

(** [TestRouter_PathMatching] *)
Example router_path_matching :
map (fun path => upstreamFor pathRoutes (Fixtures.get path))
    ["/api/v1/users"; "/api/v1/users/123"; "/api/v1/orders/456";
     "/api/v2/anything/here"; "/api/v1/unknown"]
= [Some "users"; Some "users"; Some "orders"; Some "catchall"; Some "catchall"].
Proof. vm_compute. reflexivity. Qed.

(** [TestRouter_Priority] *)
Example router_priority :
map (fun path => upstreamFor Fixtures.priorityRoutes (Fixtures.get path))
    ["/api/v1/users"; "/api/v1/orders"; "/api/v2/test"; "/other/path"]
= [Some "users-exact"; Some "v1"; Some "api"; Some "catchall"].
Proof. vm_compute. reflexivity. Qed.

(** [TestRouter_PathParams] *)
Example router_path_params :
paramsFor [Fixtures.routeTo "/users/:id/orders/:orderId" "orders"]
          (Fixtures.get "/users/123/orders/456")
= Some (Some {[ "id" := "123"; "orderId" := "456" ]}).
Proof. vm_compute. reflexivity. Qed.

(** [TestRouter_StripPath] *)
Example router_strip_path :
Router.StripPrefix (StripFixtures.stripping "/api/v1/*") "/api/v1/users/123"
= "/users/123".
Proof. vm_compute. reflexivity. Qed.

(** [TestRoundRobin_Next]: nine calls, three per target *)
Example round_robin_nine_calls :
let calls := Selections.rrCalls 9
               (LoadBalancer.NewRoundRobin BalancerFixtures.threeTargets) in
map (fun i => Selections.timesReturned i calls) [0; 1; 2]%nat = [3; 3; 3]%nat.
Proof. vm_compute. reflexivity. Qed.

(** [TestRoundRobin_SkipUnhealthy] *)
Example round_robin_skips_unhealthy :
let rr := LoadBalancer.NewRoundRobin BalancerFixtures.threeTargets in
let rr := {| LoadBalancer.rrTargets :=
               LoadBalancer.markAt (LoadBalancer.rrTargets rr) 1 false;
             LoadBalancer.rrCurrent := LoadBalancer.rrCurrent rr |} in
map (fun i => Selections.timesReturned i (Selections.rrCalls 6 rr)) [0; 1; 2]%nat
= [3; 0; 3]%nat.
Proof. vm_compute. reflexivity. Qed.

(** Scenario 3 of the specification: weights 5, 3, 1 over nine calls *)
Example weighted_five_three_one :
let calls := Selections.wrrCalls 9
               (LoadBalancer.NewWeightedRoundRobin
                  [BalancerFixtures.plainTarget "a:8080" 5;
                   BalancerFixtures.plainTarget "b:8080" 3;
                   BalancerFixtures.plainTarget "c:8080" 1]) in
map (fun i => Selections.timesReturned i calls) [0; 1; 2]%nat = [5; 3; 1]%nat.
Proof. vm_compute. reflexivity. Qed.

(** [TestTokenBucket_Allow]: ten admissions from a full bucket, then none *)
Example token_bucket_burst :
map fst (BucketRuns.allowRun (RateLimit.NewTokenBucket 10 10 0) 0
                             (replicate 11 0%N))
= replicate 10 true ++ [false].
Proof. vm_compute. reflexivity. Qed.

(** Scenario 4 of the specification: eleven immediate requests from one
  address against 10 rps with burst 10 *)
Example eleven_requests_one_address :
(statuses 11 <$> Proxy.New DownFixture.parseAsHost limitedCfg stillClock [])
= Some (replicate 10 200 ++ [429]).
Proof. vm_compute. reflexivity. Qed.

End ModelChecks.

(** * Further properties of the code *)

(** ** Patterns and paths *)

Module PatternFacts.
Import Router Routing PathShapes StringFacts.

Lemma Split_nonempty c s : Split c s <> [].
Proof.
  induction s as [|a s IH]; cbn [Split]; [done|].
  destruct (Ascii.eqb a c); [done|]. by destruct (Split c s).
Qed.

Lemma HasPrefix_append p r : HasPrefix (p ++ r)%string p = true.
Proof.
  induction p as [|a p IH]; [by destruct r|].
  rewrite append_cons. cbn [HasPrefix]. by rewrite Ascii.eqb_refl.
Qed.

Lemma HasPrefix_length s p :
  HasPrefix s p = true -> (String.length p <= String.length s)%nat.
Proof.
  revert s. induction p as [|b p IH]; intros s; [cbn [String.length]; lia|].
  destruct s as [|a s]; cbn [HasPrefix String.length]; [done|].
  destruct (Ascii.eqb a b); [|done]. intros E%IH. lia.
Qed.

Lemma length_append s t :
  String.length (s ++ t)%string = (String.length s + String.length t)%nat.
Proof.
  induction s as [|a s IH]; [done|].
  rewrite append_cons. cbn [String.length]. by rewrite IH.
Qed.

Lemma length_reversed s : String.length (reversed s) = String.length s.
Proof.
  induction s as [|a s IH]; [done|].
  rewrite reversed_cons, length_append, IH. cbn [String.length]. lia.
Qed.

Lemma HasSuffix_append s p : HasSuffix (s ++ p)%string p = true.
Proof. unfold HasSuffix. rewrite reversed_append. apply HasPrefix_append. Qed.

Lemma HasSuffix_length s p :
  HasSuffix s p = true -> (String.length p <= String.length s)%nat.
Proof.
  unfold HasSuffix. intros E%HasPrefix_length. by rewrite !length_reversed in E.
Qed.

(** Each segment is of exactly one kind. *)
Lemma kinds_partition segs :
  howMany literalSeg segs + howMany parameterSeg segs + howMany wildcardSeg segs
  = Z.of_nat (length segs).
Proof.
  unfold howMany. induction segs as [|s segs IH]; [done|].
  cbn [List.filter length]. unfold literalSeg, parameterSeg, wildcardSeg in *.
  destruct (isWild s), (isParam s); cbn [negb andb length]; lia.
Qed.

Lemma all_literal segs :
  forallb literalSeg segs = true -> howMany literalSeg segs = Z.of_nat (length segs).
Proof.
  unfold howMany. induction segs as [|s segs IH]; [done|].
  cbn [forallb List.filter]. intros [Hs Hrest]%andb_true_iff.
  rewrite Hs. cbn [length]. specialize (IH Hrest). lia.
Qed.

Lemma not_all_literal segs :
  forallb literalSeg segs = false -> howMany literalSeg segs < Z.of_nat (length segs).
Proof.
  unfold howMany. induction segs as [|s segs IH]; [done|].
  cbn [forallb List.filter]. destruct (literalSeg s) eqn:Hs; cbn [andb length].
  - intros Hrest. specialize (IH Hrest). lia.
  - intros _. pose proof (filter_length_le literalSeg segs). lia.
Qed.

Section WithCase.
Context `{CaseMapping}.

(** The three arms of the [switch] in [parseSegments] *)
Lemma parsePart_kind part :
  (isWild (parsePart part) = true)
  \/ (isWild (parsePart part) = false /\ isParam (parsePart part) = true)
  \/ (isWild (parsePart part) = false /\ isParam (parsePart part) = false
      /\ value (parsePart part) = ToLower part).
Proof.
  unfold parsePart.
  destruct (String.eqb part "*" || String.eqb part "**")%bool; [by left|].
  destruct (HasPrefix part ":"); [by right; left|].
  destruct (HasPrefix part "{" && HasSuffix part "}")%bool; [by right; left|].
  by right; right.
Qed.

Lemma matchLoop_self parts bound :
  snd (matchLoop (map parsePart parts) parts bound) = true.
Proof.
  revert bound. induction parts as [|part parts IH]; intros bound; [done|].
  cbn [map matchLoop].
  destruct (parsePart_kind part) as [Hw|[[Hw Hp]|(Hw & Hp & Hv)]]; rewrite Hw.
  - destruct (String.eqb (value (parsePart part)) "**"); [done|apply IH].
  - rewrite Hp. apply IH.
  - rewrite Hp, Hv, String.eqb_refl. apply IH.
Qed.

Lemma matchLoop_length segs parts bound :
  noRest segs = true ->
  snd (matchLoop segs parts bound) = true ->
  length parts = length segs.
Proof.
  unfold noRest. revert parts bound.
  induction segs as [|seg segs IH]; intros parts bound Hno Hm.
  - cbn in Hm. by apply bool_decide_eq_true in Hm as ->.
  - cbn [forallb] in Hno. apply andb_true_iff in Hno as [Hseg Hno].
    unfold restSeg in Hseg. cbn [matchLoop] in Hm.
    destruct (isWild seg).
    + destruct (String.eqb (value seg) "**"); [done|].
      destruct parts as [|part parts]; [done|].
      cbn [length]. f_equal. by eapply IH.
    + destruct (isParam seg); destruct parts as [|part parts]; try done.
      * cbn [length]. f_equal. by eapply IH.
      * destruct (String.eqb (ToLower part) (value seg)); [|done].
        cbn [length]. f_equal. by eapply IH.
Qed.

Lemma matchLoop_binds segs parts bound ps :
  noRest segs = true ->
  matchLoop segs parts bound = (Some ps, true) ->
  (forall (i : nat) seg,
      segs !! i = Some seg -> parameterSeg seg = true ->
      notNamed (value seg) (drop (S i) segs) ->
      exists part, parts !! i = Some part /\ ps !! value seg = Some part)
  /\ (forall k, notNamed k segs -> ps !! k = bound !! k).
Proof.
  unfold noRest, notNamed. revert parts bound.
  induction segs as [|seg segs IH]; intros parts bound Hno Hm.
  - cbn in Hm. injection Hm as <- _. split; [|done]. intros i seg Hi. done.
  - cbn [forallb] in Hno. apply andb_true_iff in Hno as [Hseg Hno].
    unfold restSeg in Hseg. cbn [matchLoop] in Hm.
    destruct (isWild seg) eqn:Hw.
    + destruct (String.eqb (value seg) "**"); [done|].
      destruct parts as [|part parts]; [done|].
      destruct (IH _ _ Hno Hm) as [IH1 IH2]. split.
      * intros [|i] s Hi Hs Hlater.
        { injection Hi as <-. unfold parameterSeg in Hs. by rewrite Hw in Hs. }
        apply (IH1 i s Hi Hs Hlater).
      * intros k Hk. apply IH2. by inversion Hk.
    + destruct (isParam seg) eqn:Hp.
      * destruct parts as [|part parts]; [done|].
        destruct (IH _ _ Hno Hm) as [IH1 IH2]. split.
        { intros [|i] s Hi Hs Hlater.
          - injection Hi as <-. exists part. split; [done|].
            cbn [drop] in Hlater. rewrite (IH2 _ Hlater).
            by simplify_map_eq.
          - apply (IH1 i s Hi Hs Hlater). }
        intros k Hk. inversion Hk as [|? ? Hseg' Hrest]; subst.
        rewrite (IH2 _ Hrest).
        assert (value seg <> k)
          by (apply Hseg'; unfold parameterSeg; by rewrite Hw, Hp).
        by simplify_map_eq.
      * destruct parts as [|part parts]; [done|].
        destruct (String.eqb (ToLower part) (value seg)); [|done].
        destruct (IH _ _ Hno Hm) as [IH1 IH2]. split.
        { intros [|i] s Hi Hs Hlater.
          - injection Hi as <-. unfold parameterSeg in Hs. by rewrite Hw, Hp in Hs.
          - apply (IH1 i s Hi Hs Hlater). }
        intros k Hk. apply IH2. by inversion Hk.
Qed.

End WithCase.

End PatternFacts.

(** X1: every pattern accepts the path spelled like the pattern itself, so
    no configured pattern is unmatchable: a literal piece matches its own
    text, a named parameter and [*] take the piece in their place, and
    [**] takes what is left. *)
Theorem pattern_matches_its_own_text `{CaseMapping} (pattern : string) :
  snd (Router.matchPath (Router.parseSegments pattern) pattern) = true.
Proof.
  unfold Router.parseSegments, Router.matchPath.
  destruct (String.eqb (Trim "/" pattern) "") eqn:E; [done|].
  destruct (Split "/" (Trim "/" pattern)) as [|part parts] eqn:Es.
  - by apply PatternFacts.Split_nonempty in Es.
  - cbn [map]. apply (PatternFacts.matchLoop_self (part :: parts)).
Qed.

(** X2: a pattern without a [**] segment matches only paths that have
    exactly as many components as the pattern has segments. *)
Theorem match_needs_as_many_components_as_segments
        `{CaseMapping} (segs : list Router.segment) (path : string) :
  PathShapes.noRest segs = true ->
  snd (Router.matchPath segs path) = true ->
  length (PathShapes.components path) = length segs.
Proof.
  intros Hno Hm. unfold Router.matchPath in Hm. unfold PathShapes.components.
  destruct segs as [|seg segs].
  - cbn in Hm. by rewrite Hm.
  - by eapply PatternFacts.matchLoop_length.
Qed.

Lemma match_needs_as_many_components_as_segments_witness :
  let segs := @Router.parseSegments asciiCase "/users/:id/orders/*" in
  PathShapes.noRest segs = true
  /\ snd (Router.matchPath segs "/users/42/orders/7") = true
  /\ length (PathShapes.components "/users/42/orders/7") = length segs.
Proof.
  split; [reflexivity|]. split; [reflexivity|].
  apply (@match_needs_as_many_components_as_segments asciiCase); reflexivity.
Defined.

(** X3: when a pattern without [**] matches, every named parameter is
    bound to the path component at the parameter's position (of several
    parameters with one name the last one counts), and nothing is bound
    under a name that no parameter of the pattern carries. *)
Theorem named_parameters_are_bound
        `{CaseMapping} (segs : list Router.segment) (path : string)
        (ps : gmap string string) :
  PathShapes.noRest segs = true ->
  Router.matchPath segs path = (Some ps, true) ->
  (forall (i : nat) seg,
      segs !! i = Some seg ->
      Routing.parameterSeg seg = true ->
      PathShapes.notNamed (Router.value seg) (drop (S i) segs) ->
      exists part,
        PathShapes.components path !! i = Some part
        /\ ps !! Router.value seg = Some part)
  /\ (forall k, PathShapes.notNamed k segs -> ps !! k = None).
Proof.
  intros Hno Hm. unfold Router.matchPath in Hm.
  destruct segs as [|seg segs]; [done|].
  destruct (PatternFacts.matchLoop_binds _ _ _ _ Hno Hm) as [H1 H2].
  split; [exact H1|]. intros k Hk. by rewrite (H2 k Hk).
Qed.

Lemma named_parameters_are_bound_witness :
  let segs := @Router.parseSegments asciiCase "/users/:id/orders/{orderId}" in
  let ps : gmap string string := {[ "id" := "123"; "orderId" := "456" ]} in
  PathShapes.noRest segs = true
  /\ Router.matchPath segs "/users/123/orders/456" = (Some ps, true)
  /\ (forall (i : nat) seg,
         segs !! i = Some seg ->
         Routing.parameterSeg seg = true ->
         PathShapes.notNamed (Router.value seg) (drop (S i) segs) ->
         exists part,
           PathShapes.components "/users/123/orders/456" !! i = Some part
           /\ ps !! Router.value seg = Some part)
  /\ (forall k, PathShapes.notNamed k segs -> ps !! k = None).
Proof.
  split; [reflexivity|]. split; [vm_compute; reflexivity|].
  apply (@named_parameters_are_bound asciiCase); [reflexivity|vm_compute; reflexivity].
Defined.

(** X4: of two patterns with the same number of segments, one made of
    literal segments only has priority 13 per segment and outranks every
    one that has a named parameter or a wildcard. *)
Theorem exact_pattern_outranks_same_length (a b : list Router.segment) :
  length a = length b ->
  forallb Routing.literalSeg a = true ->
  forallb Routing.literalSeg b = false ->
  Router.calculatePriority a = 13 * Z.of_nat (length a)
  /\ Router.calculatePriority a > Router.calculatePriority b.
Proof.
  intros Hlen Ha Hb.
  rewrite !RouterFacts.calculatePriority_spec. unfold Routing.specPriority.
  pose proof (PatternFacts.kinds_partition a).
  pose proof (PatternFacts.kinds_partition b).
  pose proof (PatternFacts.all_literal a Ha).
  pose proof (PatternFacts.not_all_literal b Hb).
  assert (0 <= Routing.howMany Routing.parameterSeg a) by (unfold Routing.howMany; lia).
  assert (0 <= Routing.howMany Routing.wildcardSeg a) by (unfold Routing.howMany; lia).
  assert (0 <= Routing.howMany Routing.parameterSeg b) by (unfold Routing.howMany; lia).
  assert (0 <= Routing.howMany Routing.wildcardSeg b) by (unfold Routing.howMany; lia).
  lia.
Qed.

Lemma exact_pattern_outranks_same_length_witness :
  let a := @Router.parseSegments asciiCase "/api/v1/users" in
  let b := @Router.parseSegments asciiCase "/api/v1/:id" in
  length a = length b
  /\ forallb Routing.literalSeg a = true
  /\ forallb Routing.literalSeg b = false
  /\ Router.calculatePriority a = 13 * Z.of_nat (length a)
  /\ Router.calculatePriority a > Router.calculatePriority b.
Proof.
  split; [reflexivity|]. split; [reflexivity|]. split; [reflexivity|].
  apply exact_pattern_outranks_same_length; reflexivity.
Defined.

(** X5: a wildcard host [*.d] accepts every host that ends in [.d],
    whatever stands before the dot, and does not accept the bare host
    [d]. *)
Theorem wildcard_host_takes_subdomains_only (domain sub : string) :
  Router.matchWildcardHost ("*." ++ domain)%string (sub ++ "." ++ domain)%string = true
  /\ Router.matchWildcardHost ("*." ++ domain)%string domain = false.
Proof.
  unfold Router.matchWildcardHost.
  rewrite (PatternFacts.HasPrefix_append "*." domain). cbn [negb].
  change (GoStrings.tail ("*." ++ domain)%string) with ("." ++ domain)%string.
  split; [apply PatternFacts.HasSuffix_append|].
  destruct (HasSuffix domain ("." ++ domain)%string) eqn:E; [|done].
  apply PatternFacts.HasSuffix_length in E.
  rewrite PatternFacts.length_append in E. cbn [String.length] in E. lia.
Qed.

(** ** Balancers *)

Module SelectionFacts.
Import LoadBalancer Selections BalancerRuns.

(** *** Round robin *)

Lemma rotation_0 c n : rotation c n 0 = Z.to_nat ((c + 1) mod Z.of_nat n).
Proof. unfold rotation. do 2 f_equal. lia. Qed.

Lemma rotation_next c n k : rotation (c + 1) n k = rotation c n (S k).
Proof. unfold rotation. do 2 f_equal. lia. Qed.

Lemma rotation_onto c n j :
  (j < n)%nat -> exists k, (k < n)%nat /\ rotation c n k = j.
Proof.
  intros Hj. exists (Z.to_nat ((Z.of_nat j - (c + 1)) mod Z.of_nat n)).
  pose proof (Z.mod_pos_bound (Z.of_nat j - (c + 1)) (Z.of_nat n) ltac:(lia)).
  split; [lia|]. unfold rotation. rewrite Z2Nat.id by lia.
  rewrite Z.add_mod_idemp_r by lia.
  replace (c + 1 + (Z.of_nat j - (c + 1))) with (Z.of_nat j) by lia.
  rewrite Z.mod_small by lia. lia.
Qed.

Lemma healthyAt_lt ts i : healthyAt ts i = true -> (i < length ts)%nat.
Proof.
  unfold healthyAt. destruct (ts !! i) eqn:E; [|done].
  intros _. by eapply lookup_lt_Some.
Qed.

Lemma rrScan_spec left ts c :
  0 <= c -> c + Z.of_nat left < uint64Modulus ->
  (exists k, (k < left)%nat
     /\ rrScan left {| rrTargets := ts; rrCurrent := c |}
        = (Some (rotation c (length ts) k),
           {| rrTargets := ts; rrCurrent := c + 1 + Z.of_nat k |})
     /\ healthyAt ts (rotation c (length ts) k) = true
     /\ forall k', (k' < k)%nat -> healthyAt ts (rotation c (length ts) k') = false)
  \/ (rrScan left {| rrTargets := ts; rrCurrent := c |}
      = (Some 0%nat, {| rrTargets := ts; rrCurrent := c + Z.of_nat left |})
      /\ forall k', (k' < left)%nat ->
                    healthyAt ts (rotation c (length ts) k') = false).
Proof.
  revert c. induction left as [|left IH]; intros c Hc Hwrap.
  - right. split; [cbn; do 2 f_equal; lia|intros; lia].
  - cbn [rrScan rrTargets rrCurrent].
    assert (Hcnt : (c + 1) mod uint64Modulus = c + 1) by (apply Z.mod_small; lia).
    rewrite Hcnt, <- rotation_0.
    destruct (healthyAt ts (rotation c (length ts) 0)) eqn:Eh.
    + left. exists 0%nat. split; [lia|]. split; [do 2 f_equal; lia|].
      split; [done|]. intros; lia.
    + destruct (IH (c + 1)) as [(k & Hk & Hs & Hh & Hd)|[Hs Hd]]; [lia|lia| |].
      * left. exists (S k). rewrite Hs, !rotation_next. rewrite rotation_next in Hh.
        split; [lia|].
        split; [do 2 f_equal; lia|]. split; [done|].
        intros [|k'] Hk'; [done|]. rewrite <- rotation_next. apply Hd. lia.
      * right. rewrite Hs. split; [do 2 f_equal; lia|].
        intros [|k'] Hk'; [done|]. rewrite <- rotation_next. apply Hd. lia.
Qed.

Lemma rrScan_range left rr :
  rrTargets rr <> [] ->
  exists i rr', rrScan left rr = (Some i, rr')
                /\ (i < length (rrTargets rr))%nat
                /\ rrTargets rr' = rrTargets rr.
Proof.
  intros Hne.
  assert (Hpos : (0 < length (rrTargets rr))%nat)
    by (destruct (rrTargets rr); [done|cbn; lia]).
  revert rr Hne Hpos. induction left as [|left IH]; intros rr Hne Hpos.
  - cbn. eauto.
  - cbn [rrScan].
    destruct (healthyAt _ _).
    + eexists _, _. split; [done|]. split; [|done].
      pose proof (Z.mod_pos_bound ((rrCurrent rr + 1) mod uint64Modulus)
                    (Z.of_nat (length (rrTargets rr))) ltac:(lia)).
      lia.
    + destruct (IH {| rrTargets := rrTargets rr;
                      rrCurrent := (rrCurrent rr + 1) mod uint64Modulus |} Hne Hpos)
        as (i & rr' & Hs & Hi & Hts).
      eauto.
Qed.

(** *** Least connections *)

Lemma lcScan_spec ts pre best minConn :
  Forall (fun t => 0 <= Connections t) (pre ++ ts) ->
  ((best = None /\ minConn = -1 /\ Forall (fun t => Healthy t = false) pre)
   \/ (exists b tb, best = Some b /\ pre !! b = Some tb
                    /\ minConn = Connections tb /\ leastLoaded pre b)) ->
  match lcScan ts (length pre) best minConn with
  | None => Forall (fun t => Healthy t = false) (pre ++ ts)
  | Some b => leastLoaded (pre ++ ts) b
  end.
Proof.
  revert pre best minConn.
  induction ts as [|t rest IH]; intros pre best minConn Hnn Hinv.
  - rewrite app_nil_r. cbn.
    destruct Hinv as [(-> & _ & Hd)|(b & tb & -> & _ & _ & Hl)]; done.
  - cbn [lcScan].
    assert (Hlen : S (length pre) = length (pre ++ [t]))
      by (rewrite length_app; cbn; lia).
    rewrite Hlen, (cons_middle t pre rest), app_assoc.
    rewrite (cons_middle t pre rest), app_assoc in Hnn.
    assert (Ht : 0 <= Connections t).
    { apply Forall_app in Hnn as [Hnn _]. apply Forall_app in Hnn as [_ Hnn].
      by inversion Hnn. }
    assert (Hkeep : forall b, leastLoaded pre b ->
              (Healthy t = true ->
               forall tb, pre !! b = Some tb -> Connections tb <= Connections t) ->
              leastLoaded (pre ++ [t]) b).
    { intros b (tb & Hb & Hh & Hmin) Hnew. exists tb.
      split; [by apply lookup_app_l_Some|]. split; [done|].
      intros j u Hj Hu. apply lookup_app_Some in Hj as [Hj|[Hge Hj]].
      - by apply Hmin.
      - apply list_lookup_singleton_Some in Hj as [_ <-].
        split; [by apply Hnew|]. intros _. apply lookup_lt_Some in Hb. lia. }
    destruct (Healthy t) eqn:Eh; cbn [negb].
    + destruct Hinv as [(-> & -> & Hd)|(b & tb & -> & Hb & -> & Hl)].
      * cbn [Z.ltb Z.compare orb]. apply IH; [done|]. right.
        exists (length pre), t. split; [done|].
        split; [by apply list_lookup_middle|]. split; [done|].
        exists t. split; [by apply list_lookup_middle|]. split; [done|].
        intros j u Hj Hu. apply lookup_app_Some in Hj as [Hj|[Hge Hj]].
        -- rewrite Forall_forall in Hd.
           assert (Healthy u = false)
             by (apply Hd; by eapply list_elem_of_lookup_2).
           congruence.
        -- apply list_lookup_singleton_Some in Hj as [_ <-]. split; [lia|done].
      * assert (Htb : 0 <= Connections tb).
        { rewrite Forall_forall in Hnn. apply Hnn.
          eapply list_elem_of_lookup_2, lookup_app_l_Some, lookup_app_l_Some, Hb. }
        destruct (Z.ltb_spec (Connections tb) 0) as [?|_]; [lia|]. cbn [orb].
        destruct (Z.ltb_spec (Connections t) (Connections tb)) as [Hlt|Hge].
        -- apply IH; [done|]. right.
           exists (length pre), t. split; [done|].
           split; [by apply list_lookup_middle|]. split; [done|].
           exists t. split; [by apply list_lookup_middle|]. split; [done|].
           destruct Hl as (tb' & Hb' & _ & Hmin).
           assert (tb' = tb) as -> by congruence.
           intros j u Hj Hu. apply lookup_app_Some in Hj as [Hj|[Hge Hj]].
           ++ destruct (Hmin j u Hj Hu) as [Hle _]. split; [lia|]. intros; lia.
           ++ apply list_lookup_singleton_Some in Hj as [_ <-]. split; [lia|done].
        -- apply IH; [done|]. right. exists b, tb. split; [done|].
           split; [by apply lookup_app_l_Some|]. split; [done|].
           apply Hkeep; [done|]. intros _ tb' Hb'. assert (tb' = tb) as -> by congruence.
           lia.
    + apply IH; [done|].
      destruct Hinv as [(-> & -> & Hd)|(b & tb & -> & Hb & -> & Hl)].
      * left. split; [done|]. split; [done|].
        apply Forall_app. split; [done|]. by constructor.
      * right. exists b, tb. split; [done|].
        split; [by apply lookup_app_l_Some|]. split; [done|].
        apply Hkeep; [done|]. intros; congruence.
Qed.

Lemma lcScan_range ts i best minConn :
  match best with Some b => (b < i)%nat | None => True end ->
  match lcScan ts i best minConn with
  | Some b => (b < i + length ts)%nat
  | None => True
  end.
Proof.
  revert i best minConn. induction ts as [|t rest IH]; intros i best minConn Hb.
  - cbn. destruct best; [lia|done].
  - cbn [lcScan length].
    destruct (negb (Healthy t)).
    + specialize (IH (S i) best minConn).
      destruct (lcScan rest (S i) best minConn); [|done].
      assert (n < S i + length rest)%nat; [|lia].
      apply IH. destruct best; [lia|done].
    + destruct (_ || _)%bool.
      * specialize (IH (S i) (Some i) (Connections t)).
        destruct (lcScan rest (S i) (Some i) (Connections t)); [|done].
        assert (n < S i + length rest)%nat; [|lia]. apply IH. lia.
      * specialize (IH (S i) best minConn).
        destruct (lcScan rest (S i) best minConn); [|done].
        assert (n < S i + length rest)%nat; [|lia].
        apply IH. destruct best; [lia|done].
Qed.

(** *** Random *)

Lemma healthyPositions_spec ts i p :
  p ∈ healthyPositions ts i <-> (i <= p)%nat /\ healthyAt ts (p - i) = true.
Proof.
  revert i. induction ts as [|t rest IH]; intros i.
  - cbn. split; [by intros ?%elem_of_nil|]. intros [_ ?]. done.
  - cbn [healthyPositions].
    assert (Hstep : (S i <= p)%nat ->
              healthyAt (t :: rest) (p - i) = healthyAt rest (p - S i)).
    { intros Hp. replace (p - i)%nat with (S (p - S i)) by lia. done. }
    assert (Hhere : healthyAt (t :: rest) (i - i) = Healthy t)
      by (by rewrite Nat.sub_diag).
    destruct (Healthy t) eqn:Eh.
    + rewrite elem_of_cons, IH. split.
      * intros [->|[Hp Hh]]; [split; [lia|done]|].
        split; [lia|]. by rewrite Hstep.
      * intros [Hp Hh]. destruct (decide (p = i)) as [->|Hne]; [by left|].
        right. split; [lia|]. rewrite <- Hstep by lia. done.
    + rewrite IH. split.
      * intros [Hp Hh]. split; [lia|]. by rewrite Hstep.
      * intros [Hp Hh]. destruct (decide (p = i)) as [->|Hne]; [congruence|].
        split; [lia|]. rewrite <- Hstep by lia. done.
Qed.

(** *** Weighted round robin *)

Lemma wrrStep_range w t w' :
  steady w -> targets w <> [] ->
  wrrStep w = inl (t, w') ->
  exists i, t = Some i /\ (i < length (targets w))%nat.
Proof.
  intros Hst Hne E. pose proof (WeightedFacts.wrrStep_next_index w Hst) as Hidx.
  destruct Hst as [Hg Hcur].
  assert (0 < Z.of_nat (length (targets w)))
    by (destruct (targets w); [congruence|simpl; lia]).
  unfold wrrStep in E. rewrite Hidx in E.
  assert (Hrange : 0 <= (if current w + 1 =? Z.of_nat (length (targets w))
                         then 0 else current w + 1)
                   < Z.of_nat (length (targets w)))
    by (destruct (Z.eqb_spec (current w + 1) (Z.of_nat (length (targets w)))); lia).
  repeat match type of E with
         | (if ?c then inl _ else _) = _ => destruct c
         end; inversion E; subst; eexists; (split; [done|lia]).
Qed.

Lemma wrrLoop_range fuel w t w' :
  steady w -> targets w <> [] ->
  wrrLoop fuel w = Some (t, w') ->
  exists i, t = Some i /\ (i < length (targets w))%nat.
Proof.
  revert w. induction fuel as [|fuel IH]; intros w Hst Hne; cbn [wrrLoop]; [done|].
  destruct (wrrStep w) as [[t0 w0]|w0] eqn:E.
  - intros [= <- <-]. by eapply wrrStep_range.
  - destruct (WeightedFacts.wrrStep_continues w w0 Hst Hne E) as (Hst' & Hts & _).
    intros Hrun. rewrite <- Hts. apply IH; [done|congruence|done].
Qed.

(** *** All four *)

Lemma Next_in_range lb draw :
  wellFormed lb -> Targets lb <> [] ->
  exists i lb', Next lb draw = Some (Some i, lb')
                /\ (i < length (Targets lb))%nat
                /\ wellFormed lb' /\ Targets lb' = Targets lb.
Proof.
  intros Hwf Hne. destruct lb as [rr|lc|r|w]; cbn [Next Targets wellFormed] in *.
  - unfold rrNext. destruct (rrTargets rr) eqn:E; [done|]. rewrite <- E in *.
    destruct (rrScan_range (length (rrTargets rr)) rr Hne) as (i & rr' & -> & Hi & Hts).
    by exists i, (IsRoundRobin rr').
  - unfold lcNext. destruct (lcTargets lc) eqn:E; [done|]. rewrite <- E in *.
    pose proof (lcScan_range (lcTargets lc) 0 None (-1) I) as Hr.
    destruct (lcScan _ _ _ _) as [b|].
    + exists b, (IsLeastConn lc). split; [done|]. split; [lia|done].
    + exists 0%nat, (IsLeastConn lc). split; [done|]. split; [|done].
      destruct (lcTargets lc); [done|cbn; lia].
  - unfold rndNext. destruct (rndTargets r) eqn:E; [done|]. rewrite <- E in *.
    assert (Hpos : (0 < length (rndTargets r))%nat)
      by (destruct (rndTargets r); [done|cbn; lia]).
    destruct (healthyPositions (rndTargets r) 0) as [|h hs] eqn:Eh.
    + eexists _, (IsRandom r). split; [done|]. split; [|done].
      apply Nat.mod_upper_bound. lia.
    + destruct (lookup_lt_is_Some_2 (h :: hs) (draw mod length (h :: hs))%nat) as [p Hp].
      { apply Nat.mod_upper_bound. done. }
      exists p, (IsRandom r). rewrite Hp. split; [done|]. split; [|done].
      apply list_elem_of_lookup_2 in Hp. rewrite <- Eh in Hp.
      apply healthyPositions_spec in Hp as [_ Hp]. apply healthyAt_lt in Hp. lia.
  - destruct (WeightedFacts.wrrNext_returns w Hwf Hne) as (t & w' & Hn & Hst & Hts).
    rewrite Hn. unfold wrrNext in Hn. destruct (targets w) eqn:E; [done|].
    rewrite <- E in *.
    destruct (wrrLoop_range _ _ _ _ Hwf Hne Hn) as (i & -> & Hi).
    by exists i, (IsWeightedRoundRobin w').
Qed.

Lemma withTargets_same lb ts :
  length ts = length (Targets lb) ->
  wellFormed lb ->
  wellFormed (withTargets lb ts) /\ Targets (withTargets lb ts) = ts.
Proof.
  intros Hlen Hwf. destruct lb as [rr|lc|r|w]; cbn in *; try done.
  split; [|done]. unfold steady in *. cbn. by rewrite Hlen.
Qed.

Lemma New_wellFormed strategy ts :
  ts <> [] ->
  wellFormed (New strategy ts) /\ length (Targets (New strategy ts)) = length ts.
Proof.
  intros Hne. unfold New.
  repeat match goal with
         | |- context [if ?c then _ else _] => destruct c
         end; cbn [wellFormed Targets NewLeastConn NewRandom NewRoundRobin
                   NewWeightedRoundRobin lcTargets rndTargets rrTargets targets];
    rewrite ?length_map; (split; [|done]); try done.
  by apply WeightedFacts.New_steady.
Qed.

(** *** The constructor of the weighted balancer *)

Lemma fold_max ws acc :
  let mx := fold_left (fun mx w => if w >? mx then w else mx) ws acc in
  acc <= mx /\ Forall (fun w => w <= mx) ws /\ (mx = acc \/ In mx ws).
Proof.
  revert acc. induction ws as [|w ws IH]; intros acc; cbn [fold_left].
  - split; [lia|]. split; [done|by left].
  - destruct (IH (if w >? acc then w else acc)) as (Hacc & Hall & Hin).
    destruct (Z.gtb_spec w acc) as [Hgt|Hle].
    + split; [lia|]. split; [constructor; [lia|done]|].
      right. destruct Hin as [->|Hin]; [by left|by right].
    + split; [lia|]. split; [constructor; [lia|done]|].
      destruct Hin as [->|Hin]; [by left|right; by right].
Qed.

Lemma fold_gcd rest first :
  0 <= first -> Forall (fun w => 0 <= w) rest ->
  let g := fold_left gcd rest first in
  0 <= g /\ (g | first) /\ Forall (fun w => (g | w)) rest
  /\ forall d, (d | first) -> Forall (fun w => (d | w)) rest -> (d | g).
Proof.
  revert first. induction rest as [|w rest IH]; intros first Hf Hr; cbn [fold_left].
  - split; [done|]. split; [done|]. split; [done|]. intros d Hd _. done.
  - inversion Hr as [|? ? Hw Hrest]; subst.
    rewrite WeightedFacts.gcd_is_gcd by done.
    destruct (IH (Z.gcd first w) (Z.gcd_nonneg _ _) Hrest) as (Hg & Hdiv & Hall & Hgreatest).
    split; [done|].
    split; [etrans; [exact Hdiv|apply Z.gcd_divide_l]|].
    split; [constructor; [etrans; [exact Hdiv|apply Z.gcd_divide_r]|done]|].
    intros d Hd Hds. inversion Hds; subst. apply Hgreatest; [|done].
    by apply Z.gcd_greatest.
Qed.

End SelectionFacts.

(** X6: while the 64-bit counter does not wrap during the call,
    round-robin [Next] on a balancer with a live target returns the first
    live target in rotation order after the counter's position, skipping
    the targets that are down, and leaves the counter on the position it
    returned. *)
Theorem round_robin_returns_next_live_target
        (rr : LoadBalancer.RoundRobin) (j : nat) :
  0 <= LoadBalancer.rrCurrent rr ->
  LoadBalancer.rrCurrent rr + Z.of_nat (length (LoadBalancer.rrTargets rr))
    < LoadBalancer.uint64Modulus ->
  LoadBalancer.healthyAt (LoadBalancer.rrTargets rr) j = true ->
  exists k,
    let at_ := BalancerRuns.rotation (LoadBalancer.rrCurrent rr)
                 (length (LoadBalancer.rrTargets rr)) in
    (k < length (LoadBalancer.rrTargets rr))%nat
    /\ LoadBalancer.rrNext rr
       = (Some (at_ k),
          {| LoadBalancer.rrTargets := LoadBalancer.rrTargets rr;
             LoadBalancer.rrCurrent := LoadBalancer.rrCurrent rr + 1 + Z.of_nat k |})
    /\ LoadBalancer.healthyAt (LoadBalancer.rrTargets rr) (at_ k) = true
    /\ forall k', (k' < k)%nat ->
                  LoadBalancer.healthyAt (LoadBalancer.rrTargets rr) (at_ k') = false.
Proof.
  destruct rr as [ts c]. cbn [LoadBalancer.rrTargets LoadBalancer.rrCurrent].
  intros Hc Hwrap Hj. pose proof (SelectionFacts.healthyAt_lt _ _ Hj) as Hlt.
  unfold LoadBalancer.rrNext. cbn [LoadBalancer.rrTargets].
  destruct ts as [|t ts'] eqn:E; [cbn in Hlt; lia|]. rewrite <- E in *.
  destruct (SelectionFacts.rrScan_spec (length ts) ts c Hc Hwrap)
    as [(k & Hk & Hs & Hh & Hd)|[_ Hd]].
  - exists k. cbn zeta. by rewrite Hs.
  - destruct (SelectionFacts.rotation_onto c (length ts) j Hlt) as (k & Hk & Hrot).
    specialize (Hd k Hk). congruence.
Qed.

Lemma round_robin_returns_next_live_target_witness :
  let rr := {| LoadBalancer.rrTargets := BalancerRuns.loaded;
               LoadBalancer.rrCurrent := 4 |} in
  0 <= LoadBalancer.rrCurrent rr
  /\ LoadBalancer.rrCurrent rr + Z.of_nat (length (LoadBalancer.rrTargets rr))
     < LoadBalancer.uint64Modulus
  /\ LoadBalancer.healthyAt (LoadBalancer.rrTargets rr) 3 = true
  /\ exists k,
       let at_ := BalancerRuns.rotation (LoadBalancer.rrCurrent rr)
                    (length (LoadBalancer.rrTargets rr)) in
       (k < length (LoadBalancer.rrTargets rr))%nat
       /\ LoadBalancer.rrNext rr
          = (Some (at_ k),
             {| LoadBalancer.rrTargets := LoadBalancer.rrTargets rr;
                LoadBalancer.rrCurrent := LoadBalancer.rrCurrent rr + 1 + Z.of_nat k |})
       /\ LoadBalancer.healthyAt (LoadBalancer.rrTargets rr) (at_ k) = true
       /\ forall k', (k' < k)%nat ->
                     LoadBalancer.healthyAt (LoadBalancer.rrTargets rr) (at_ k') = false.
Proof.
  split; [done|]. split; [done|]. split; [reflexivity|].
  apply (round_robin_returns_next_live_target
           {| LoadBalancer.rrTargets := BalancerRuns.loaded;
              LoadBalancer.rrCurrent := 4 |} 3); done.
Defined.

(** X7: with connection counters that are not negative and at least one
    live target, least-connections [Next] returns a live target that
    carries the fewest connections among the live targets, the first
    such target in slice order. *)
Theorem least_conn_returns_least_loaded_live_target
        (lc : LoadBalancer.LeastConn) (j : nat) :
  Forall (fun t => 0 <= LoadBalancer.Connections t) (LoadBalancer.lcTargets lc) ->
  LoadBalancer.healthyAt (LoadBalancer.lcTargets lc) j = true ->
  exists i,
    LoadBalancer.lcNext lc = Some i
    /\ BalancerRuns.leastLoaded (LoadBalancer.lcTargets lc) i.
Proof.
  intros Hnn Hj. unfold LoadBalancer.lcNext.
  pose proof (SelectionFacts.lcScan_spec (LoadBalancer.lcTargets lc) [] None (-1)) as Hs.
  cbn [app length] in Hs.
  specialize (Hs Hnn (or_introl (conj eq_refl (conj eq_refl (List.Forall_nil _))))).
  destruct (LoadBalancer.lcTargets lc) as [|t ts] eqn:E; [done|]. rewrite <- E in *.
  destruct (LoadBalancer.lcScan _ _ _ _) as [b|]; [by exists b|].
  unfold LoadBalancer.healthyAt in Hj.
  destruct (LoadBalancer.lcTargets lc !! j) as [u|] eqn:Eu; [|done].
  rewrite Forall_forall in Hs.
  assert (LoadBalancer.Healthy u = false)
    by (apply Hs; by eapply list_elem_of_lookup_2).
  congruence.
Qed.

Lemma least_conn_returns_least_loaded_live_target_witness :
  let lc := {| LoadBalancer.lcTargets := BalancerRuns.loaded |} in
  Forall (fun t => 0 <= LoadBalancer.Connections t) (LoadBalancer.lcTargets lc)
  /\ LoadBalancer.healthyAt (LoadBalancer.lcTargets lc) 0 = true
  /\ LoadBalancer.lcNext lc = Some 2%nat
  /\ exists i,
       LoadBalancer.lcNext lc = Some i
       /\ BalancerRuns.leastLoaded (LoadBalancer.lcTargets lc) i.
Proof.
  assert (Hnn : Forall (fun t => 0 <= LoadBalancer.Connections t) BalancerRuns.loaded)
    by (repeat constructor; cbn; lia).
  split; [exact Hnn|]. split; [reflexivity|]. split; [reflexivity|].
  exact (least_conn_returns_least_loaded_live_target
           {| LoadBalancer.lcTargets := BalancerRuns.loaded |} 0 Hnn eq_refl).
Defined.

(** X8: when some target is live, random [Next] returns a live target
    whatever number the generator draws, and every live target is
    returned for some draw. *)
Theorem random_returns_live_targets_only
        (r : LoadBalancer.Random) (draw j : nat) :
  LoadBalancer.healthyAt (LoadBalancer.rndTargets r) j = true ->
  (exists i, LoadBalancer.rndNext r draw = Some i
             /\ LoadBalancer.healthyAt (LoadBalancer.rndTargets r) i = true)
  /\ (exists draw', LoadBalancer.rndNext r draw' = Some j).
Proof.
  intros Hj. unfold LoadBalancer.rndNext.
  pose proof (SelectionFacts.healthyAt_lt _ _ Hj) as Hlt.
  destruct (LoadBalancer.rndTargets r) as [|t ts] eqn:E; [cbn in Hlt; lia|].
  rewrite <- E in *.
  assert (Hin : j ∈ LoadBalancer.healthyPositions (LoadBalancer.rndTargets r) 0).
  { apply SelectionFacts.healthyPositions_spec. rewrite Nat.sub_0_r. split; [lia|done]. }
  destruct (LoadBalancer.healthyPositions (LoadBalancer.rndTargets r) 0)
    as [|h hs] eqn:Eh; [by apply elem_of_nil in Hin|].
  split.
  - destruct (lookup_lt_is_Some_2 (h :: hs) (draw mod length (h :: hs))%nat) as [p Hp].
    { apply Nat.mod_upper_bound. done. }
    exists p. split; [done|].
    apply list_elem_of_lookup_2 in Hp. rewrite <- Eh in Hp.
    apply SelectionFacts.healthyPositions_spec in Hp as [_ Hp].
    by rewrite Nat.sub_0_r in Hp.
  - apply list_elem_of_lookup_1 in Hin as [d Hd]. exists d.
    rewrite Nat.mod_small; [done|]. by eapply lookup_lt_Some.
Qed.

Lemma random_returns_live_targets_only_witness :
  let r := {| LoadBalancer.rndTargets := BalancerRuns.loaded |} in
  LoadBalancer.healthyAt (LoadBalancer.rndTargets r) 3 = true
  /\ (exists i, LoadBalancer.rndNext r 7 = Some i
                /\ LoadBalancer.healthyAt (LoadBalancer.rndTargets r) i = true)
  /\ (exists draw', LoadBalancer.rndNext r draw' = Some 3%nat).
Proof.
  split; [reflexivity|].
  exact (random_returns_live_targets_only
           {| LoadBalancer.rndTargets := BalancerRuns.loaded |} 7 3 eq_refl).
Defined.

(** X9: on a balancer that [New] builds over a non-empty target list,
    whatever the strategy, every [Next] call returns, and returns one of
    the targets, never nil, however the liveness flags and connection
    counters are changed between the calls; in particular the loop of the
    weighted balancer always ends. *)
Theorem Next_always_returns_a_target
        (strategy : string) (ts : list LoadBalancer.Target)
        (ops : list BalancerRuns.Op) :
  ts <> [] ->
  exists returns,
    BalancerRuns.run ops (LoadBalancer.New strategy ts) = Some returns
    /\ length returns = BalancerRuns.calls ops
    /\ Forall (fun t => exists i, t = Some i /\ (i < length ts)%nat) returns.
Proof.
  intros Hne.
  destruct (SelectionFacts.New_wellFormed strategy ts Hne) as [Hwf Hlen].
  revert Hwf Hlen. generalize (LoadBalancer.New strategy ts). clear strategy.
  assert (Hpos : (0 < length ts)%nat) by (destruct ts; [done|cbn; lia]).
  induction ops as [|op ops IH]; intros lb Hwf Hlen.
  - exists []. by repeat split.
  - assert (Hlb : LoadBalancer.Targets lb <> [])
      by (intros E; rewrite E in Hlen; cbn in Hlen; lia).
    destruct op as [draw|i h|i d]; cbn [BalancerRuns.run].
    + destruct (SelectionFacts.Next_in_range lb draw Hwf Hlb)
        as (i & lb' & -> & Hi & Hwf' & Hts).
      destruct (IH lb' Hwf') as (returns & -> & Hcount & Hall); [by rewrite Hts|].
      exists (Some i :: returns). split; [done|].
      split; [unfold BalancerRuns.calls in *; cbn; by rewrite Hcount|].
      constructor; [|done]. exists i. split; [done|lia].
    + unfold LoadBalancer.MarkHealthy, LoadBalancer.markAt.
      destruct (SelectionFacts.withTargets_same lb
                  (alter (LoadBalancer.setHealthy h) i (LoadBalancer.Targets lb)))
        as [Hwf' Hts]; [by rewrite length_alter|done|].
      apply IH; [done|]. by rewrite Hts, length_alter.
    + destruct (SelectionFacts.withTargets_same lb
                  (alter (LoadBalancer.addConnections d) i (LoadBalancer.Targets lb)))
        as [Hwf' Hts]; [by rewrite length_alter|done|].
      apply IH; [done|]. by rewrite Hts, length_alter.
Qed.

Lemma Next_always_returns_a_target_witness :
  BalancerRuns.fourTargets <> []
  /\ exists returns,
       BalancerRuns.run
         [BalancerRuns.CallNext 0; BalancerRuns.Mark 3 false; BalancerRuns.CallNext 0;
          BalancerRuns.Mark 0 false; BalancerRuns.Mark 1 false; BalancerRuns.Mark 2 false;
          BalancerRuns.CallNext 0; BalancerRuns.Connect 1 1; BalancerRuns.CallNext 0]
         (LoadBalancer.New "weighted_round_robin" BalancerRuns.fourTargets)
       = Some returns
       /\ length returns = 4%nat
       /\ Forall (fun t => exists i, t = Some i
                                     /\ (i < length BalancerRuns.fourTargets)%nat) returns.
Proof.
  split; [done|].
  apply (Next_always_returns_a_target "weighted_round_robin" BalancerRuns.fourTargets).
  done.
Defined.

(** X10: the constructor of the weighted balancer records one weight per
    target, each at least 1; [maxWeight] is the greatest of them and
    [gcd] is their greatest common divisor: it divides every weight and
    every common divisor of the weights divides it. *)
Theorem weighted_constructor_records_max_and_gcd (ts : list LoadBalancer.Target) :
  let w := LoadBalancer.NewWeightedRoundRobin ts in
  length (LoadBalancer.weights w) = length ts
  /\ Forall (fun x => 1 <= x <= LoadBalancer.maxWeight w /\ (LoadBalancer.gcd_ w | x))
            (LoadBalancer.weights w)
  /\ (ts = [] \/ In (LoadBalancer.maxWeight w) (LoadBalancer.weights w))
  /\ 1 <= LoadBalancer.gcd_ w
  /\ (forall d, ts <> [] -> Forall (fun x => (d | x)) (LoadBalancer.weights w) ->
                (d | LoadBalancer.gcd_ w)).
Proof.
  cbn. set (ws := map LoadBalancer.effectiveWeight ts).
  assert (Hpos : Forall (fun x => 1 <= x) ws).
  { apply Forall_forall. intros x Hx. apply list_elem_of_fmap in Hx as (t & -> & _).
    apply WeightedFacts.effectiveWeight_positive. }
  destruct (SelectionFacts.fold_max ws 0) as (_ & Hmax & Hin).
  split; [apply length_map|].
  assert (Hgcd : Forall (fun x => (LoadBalancer.gcdSlice ws | x)) ws
                 /\ forall d, ws <> [] -> Forall (fun x => (d | x)) ws ->
                              (d | LoadBalancer.gcdSlice ws)).
  { unfold LoadBalancer.gcdSlice. destruct ws as [|first rest]; [done|].
    inversion Hpos as [|? ? Hf Hr]; subst.
    destruct (SelectionFacts.fold_gcd rest first) as (_ & Hd1 & Hd2 & Hgr); [lia| |].
    - eapply Forall_impl; [exact Hr|]. cbn. intros; lia.
    - split; [by constructor|]. intros d _ Hds. inversion Hds; subst. by apply Hgr. }
  destruct Hgcd as [Hdiv Hgreatest].
  split.
  { rewrite Forall_forall in Hpos, Hmax, Hdiv. apply Forall_forall. intros x Hx.
    split; [split; [by apply Hpos|by apply Hmax]|by apply Hdiv]. }
  split.
  { destruct ts as [|t ts']; [by left|right].
    destruct Hin as [E|Hin]; [|done]. exfalso.
    rewrite Forall_forall in Hpos, Hmax.
    assert (Hx : LoadBalancer.effectiveWeight t ∈ ws) by (subst ws; cbn; left).
    specialize (Hpos _ Hx). specialize (Hmax _ Hx). rewrite E in Hmax. lia. }
  split; [by apply WeightedFacts.gcdSlice_positive|].
  intros d Hne. apply Hgreatest. subst ws. by destruct ts.
Qed.

(** ** Token buckets over time *)

Module BucketBounds.
Import GoTime RateLimit BucketRuns BucketCounts.











End BucketBounds.





(** ** The limiter's buckets *)

Module KeyFacts.
Import Proxy StringFacts.

Lemma append_inj_l p a b : (p ++ a)%string = (p ++ b)%string -> a = b.
Proof.
  induction p as [|x p IH]; [done|].
  rewrite !append_cons. intros [= E]. by apply IH.
Qed.

Section WithFloat.
Context `{Float64}.

Lemma bucketAllow_limits b now :
  RateLimit.maxTokens (RateLimit.bucketAllow b now).2 = RateLimit.maxTokens b
  /\ RateLimit.refillRate (RateLimit.bucketAllow b now).2 = RateLimit.refillRate b.
Proof. unfold RateLimit.bucketAllow. by destruct (fge _ _). Qed.

Lemma newAPIKeys_app before after acc rl c :
  newAPIKeys (before ++ after) acc rl c
  = let '(acc', rl', c') := newAPIKeys before acc rl c in
    newAPIKeys after acc' rl' c'.
Proof.
  revert acc rl c. induction before as [|k before IH]; intros acc rl c.
  - cbn [app newAPIKeys]. done.
  - cbn [app newAPIKeys]. destruct (Config.keyEnabled k); [|apply IH].
    destruct (RateLimit.SetLimits _ _ _ _ _) as [rl' c']. apply IH.
Qed.

(** Entries that do not enable the key [K] leave its registration and
    its bucket as they are. *)
Lemma newAPIKeys_keeps keys K acc rl c :
  Forall (fun k' => Config.keyEnabled k' = true -> Config.Key k' <> K) keys ->
  (newAPIKeys keys acc rl c).1.1 !! K = acc !! K
  /\ RateLimit.buckets (newAPIKeys keys acc rl c).1.2 !! ("apikey:" ++ K)%string
     = RateLimit.buckets rl !! ("apikey:" ++ K)%string.
Proof.
  revert acc rl c. induction keys as [|k keys IH]; intros acc rl c Hall; [done|].
  inversion Hall as [|? ? Hk Hrest]; subst. cbn [newAPIKeys].
  destruct (Config.keyEnabled k); [|by apply IH].
  specialize (Hk eq_refl).
  unfold RateLimit.SetLimits. destruct (GoTime.Now c) as [now c'].
  destruct (IH (<[Config.Key k := k]> acc)
               (RateLimit.withBuckets rl
                  (<[("apikey:" ++ Config.Key k)%string
                     := RateLimit.NewTokenBucket (Config.keyRequestsPerSecond k)
                          (Config.keyBurstSize k) now]> (RateLimit.buckets rl)))
               c' Hrest) as [-> ->].
  cbn. split; apply lookup_insert_ne; [done|].
  intros E. by apply append_inj_l in E.
Qed.

End WithFloat.

End KeyFacts.

(** X13: once a key has a bucket, the limits passed to [AllowWithLimits]
    are not looked at: the call answers and leaves the limiter as it does
    with any other limits, and the bucket keeps the capacity and the rate
    it was created with. *)
Theorem existing_bucket_keeps_its_limits
        `{Float64} (rl : RateLimit.RateLimiter) (c : GoTime.Clock) (key : string)
        (rps burst rps' burst' : Z) (b : RateLimit.TokenBucket) :
  RateLimit.buckets rl !! key = Some b ->
  RateLimit.AllowWithLimits rl c key rps burst
  = RateLimit.AllowWithLimits rl c key rps' burst'
  /\ exists b',
       RateLimit.buckets (RateLimit.AllowWithLimits rl c key rps burst).1.2 !! key
       = Some b'
       /\ RateLimit.maxTokens b' = RateLimit.maxTokens b
       /\ RateLimit.refillRate b' = RateLimit.refillRate b.
Proof.
  intros Hb. unfold RateLimit.AllowWithLimits. rewrite Hb.
  split; [done|].
  destruct (GoTime.Now c) as [now c'].
  pose proof (KeyFacts.bucketAllow_limits b now) as [Hm Hr].
  destruct (RateLimit.bucketAllow b now) as [ok b']. cbn in *.
  exists b'. split; [apply lookup_insert_eq|done].
Qed.

Lemma existing_bucket_keeps_its_limits_witness :
  let b := @RateLimit.NewTokenBucket exactArith 5 5 0 in
  RateLimit.buckets KeyedFixture.oneBucket !! "route:orders" = Some b
  /\ RateLimit.AllowWithLimits KeyedFixture.oneBucket TestRuns.stillClock "route:orders" 5 5
     = RateLimit.AllowWithLimits KeyedFixture.oneBucket TestRuns.stillClock
         "route:orders" 1000 2000
  /\ exists b',
       RateLimit.buckets
         (RateLimit.AllowWithLimits KeyedFixture.oneBucket TestRuns.stillClock
            "route:orders" 5 5).1.2 !! "route:orders" = Some b'
       /\ RateLimit.maxTokens b' = RateLimit.maxTokens b
       /\ RateLimit.refillRate b' = RateLimit.refillRate b.
Proof.
  split; [reflexivity|].
  apply (@existing_bucket_keeps_its_limits exactArith). reflexivity.
Defined.

(** X14: [proxy.New] registers every enabled API key under its key string
    and gives it a full bucket with the key's own rate and burst, which
    the per-key limit then consults (X13); where several enabled entries
    carry one key string the last one counts. *)
Theorem enabled_api_key_gets_its_own_bucket
        `{CaseMapping} `{Sorter} `{Float64}
        (urlParse : string -> option LoadBalancer.GoURL)
        (cfg : Config.Config) (c : GoTime.Clock) (ds : list nat) (p : Proxy.Proxy)
        (before : list Config.APIKey) (k : Config.APIKey) (after : list Config.APIKey) :
  Proxy.New urlParse cfg c ds = Some p ->
  Config.APIKeys cfg = before ++ k :: after ->
  Config.keyEnabled k = true ->
  Forall (fun k' => Config.keyEnabled k' = true -> Config.Key k' <> Config.Key k) after ->
  Proxy.apiKeys p !! Config.Key k = Some k
  /\ exists now,
       RateLimit.buckets (Proxy.rateLimiter p) !! ("apikey:" ++ Config.Key k)%string
       = Some (RateLimit.NewTokenBucket (Config.keyRequestsPerSecond k)
                 (Config.keyBurstSize k) now).
Proof.
  intros Hnew Hkeys Hk Hafter. unfold Proxy.New in Hnew.
  destruct (Proxy.newUpstreams _ _ _) as [ups|]; [|done].
  rewrite Hkeys, KeyFacts.newAPIKeys_app in Hnew.
  destruct (Proxy.newAPIKeys before _ _ _) as [[acc rl] c1].
  cbn [Proxy.newAPIKeys] in Hnew. rewrite Hk in Hnew.
  unfold RateLimit.SetLimits in Hnew. destruct (GoTime.Now c1) as [now c2].
  match type of Hnew with
  | context [Proxy.newAPIKeys after ?a ?r ?cl] =>
      pose proof (KeyFacts.newAPIKeys_keeps after (Config.Key k) a r cl Hafter) as [Hreg Hbucket];
      destruct (Proxy.newAPIKeys after a r cl) as [[keys rl'] c3]
  end.
  injection Hnew as <-. cbn in *.
  split; [rewrite Hreg; apply lookup_insert_eq|].
  exists now. rewrite Hbucket. apply lookup_insert_eq.
Qed.

Lemma enabled_api_key_gets_its_own_bucket_witness :
  exists p,
    KeyedFixture.gateway = Some p
    /\ Config.APIKeys KeyedFixture.cfg = [KeyedFixture.revoked] ++ KeyedFixture.gold :: []
    /\ Config.keyEnabled KeyedFixture.gold = true
    /\ Proxy.apiKeys p !! "k-gold" = Some KeyedFixture.gold
    /\ exists now,
         RateLimit.buckets (Proxy.rateLimiter p) !! "apikey:k-gold"
         = Some (RateLimit.NewTokenBucket 50 80 now).
Proof.
  destruct KeyedFixture.gateway as [p|] eqn:E; [|by vm_compute in E].
  exists p. split; [done|]. split; [done|]. split; [done|].
  apply (@enabled_api_key_gets_its_own_bucket asciiCase goInsertionSort exactArith
           DownFixture.parseAsHost KeyedFixture.cfg TestRuns.stillClock [] p
           [KeyedFixture.revoked] KeyedFixture.gold []); done.
Defined.

(** X15: a key string that no enabled entry of the configuration carries
    is not registered by [proxy.New] and gets no bucket of its own, so
    requests presenting it are counted against a bucket with the default
    limits. *)
Theorem other_keys_are_not_registered
        `{CaseMapping} `{Sorter} `{Float64}
        (urlParse : string -> option LoadBalancer.GoURL)
        (cfg : Config.Config) (c : GoTime.Clock) (ds : list nat) (p : Proxy.Proxy)
        (K : string) :
  Proxy.New urlParse cfg c ds = Some p ->
  Forall (fun k' => Config.keyEnabled k' = true -> Config.Key k' <> K)
         (Config.APIKeys cfg) ->
  Proxy.apiKeys p !! K = None
  /\ RateLimit.buckets (Proxy.rateLimiter p) !! ("apikey:" ++ K)%string = None.
Proof.
  intros Hnew Hall. unfold Proxy.New in Hnew.
  destruct (Proxy.newUpstreams _ _ _) as [ups|]; [|done].
  match type of Hnew with
  | context [Proxy.newAPIKeys ?ks ?a ?r ?cl] =>
      pose proof (KeyFacts.newAPIKeys_keeps ks K a r cl Hall) as [Hreg Hbucket];
      destruct (Proxy.newAPIKeys ks a r cl) as [[keys rl'] c3]
  end.
  injection Hnew as <-. cbn in *. by rewrite Hreg, Hbucket.
Qed.

Lemma other_keys_are_not_registered_witness :
  exists p,
    KeyedFixture.gateway = Some p
    /\ Proxy.apiKeys p !! "k-old" = None
    /\ RateLimit.buckets (Proxy.rateLimiter p) !! "apikey:k-old" = None.
Proof.
  destruct KeyedFixture.gateway as [p|] eqn:E; [|by vm_compute in E].
  exists p. split; [done|].
  apply (@other_keys_are_not_registered asciiCase goInsertionSort exactArith
           DownFixture.parseAsHost KeyedFixture.cfg TestRuns.stillClock [] p "k-old");
    [done|].
  repeat constructor; cbn; done.
Defined.

(** ** Joining the upstream path *)

Module JoinFacts.
Import StringFacts.

Lemma HasPrefix_dropPrefix s p :
  match dropPrefix s p with
  | Some r => HasPrefix s p = true /\ s = (p ++ r)%string
  | None => HasPrefix s p = false
  end.
Proof.
  revert s. induction p as [|b p IH]; intros s; [by destruct s|].
  destruct s as [|a s]; cbn [dropPrefix HasPrefix]; [done|].
  destruct (Ascii.eqb_spec a b) as [->|Hne]; [|done].
  specialize (IH s). destruct (dropPrefix s p); [|done].
  destruct IH as [-> ->]. by rewrite append_cons.
Qed.

Lemma TrimPrefix_spec s p :
  s = if HasPrefix s p then (p ++ TrimPrefix s p)%string else TrimPrefix s p.
Proof.
  unfold TrimPrefix. pose proof (HasPrefix_dropPrefix s p) as Hs.
  destruct (dropPrefix s p); [by destruct Hs as [-> Hs]|by rewrite Hs].
Qed.

Lemma TrimSuffix_spec s p :
  s = if HasSuffix s p then (TrimSuffix s p ++ p)%string else TrimSuffix s p.
Proof.
  unfold TrimSuffix, HasSuffix.
  pose proof (HasPrefix_dropPrefix (reversed s) (reversed p)) as Hs.
  destruct (dropPrefix (reversed s) (reversed p)) as [r|]; [|by rewrite Hs].
  destruct Hs as [-> Hs].
  rewrite <- (reversed_involutive s), Hs, reversed_append, !reversed_involutive.
  done.
Qed.

End JoinFacts.

(** X16: [singleJoiningSlash] puts exactly one slash between the two
    parts: the result is the first part without one trailing slash, a
    slash, and the second part without one leading slash. *)
Theorem one_slash_between_base_and_path (a b : string) :
  Proxy.singleJoiningSlash a b
  = (TrimSuffix a "/" ++ "/" ++ TrimPrefix b "/")%string.
Proof.
  unfold Proxy.singleJoiningSlash.
  pose proof (JoinFacts.TrimSuffix_spec a "/") as Ha.
  pose proof (JoinFacts.TrimPrefix_spec b "/") as Hb.
  destruct (HasSuffix a "/"), (HasPrefix b "/"); cbn [andb negb].
  - rewrite Hb at 1. change (GoStrings.tail ("/" ++ TrimPrefix b "/")%string)
      with (TrimPrefix b "/").
    rewrite Ha at 1. by rewrite StringFacts.append_assoc.
  - rewrite Ha at 1. rewrite Hb at 1. by rewrite StringFacts.append_assoc.
  - rewrite Ha at 1. rewrite Hb at 1. done.
  - rewrite Ha at 1. rewrite Hb at 1. done.
Qed.

(** ** Validation *)

Module ValidationFacts.
Import Validation.

Lemma checkUpstreams_spec us acc :
  match checkUpstreams us acc with
  | inl _ =>
      ~ Forall (fun u => Config.upstreamName u <> "" /\ Config.Targets u <> []) us
  | inr m =>
      Forall (fun u => Config.upstreamName u <> "" /\ Config.Targets u <> []) us
      /\ forall k, default false (m !! k) = true
                   <-> default false (acc !! k) = true
                       \/ Exists (fun u => Config.upstreamName u = k) us
  end.
Proof.
  revert acc. induction us as [|u us IH]; intros acc; cbn [checkUpstreams].
  - split; [done|]. intros k. rewrite Exists_nil. tauto.
  - destruct (String.eqb_spec (Config.upstreamName u) "") as [E|Hname].
    { intros Hall. inversion Hall as [|? ? [Hn _] _]; subst. done. }
    destruct (Config.Targets u) as [|t ts] eqn:Et.
    { intros Hall. inversion Hall as [|? ? [_ Hn] _]; subst. done. }
    specialize (IH (<[Config.upstreamName u := true]> acc)).
    destruct (checkUpstreams us _) as [e|m].
    + intros Hall. inversion Hall; subst. done.
    + destruct IH as [Hall Hkeys]. split.
      * constructor; [|done]. rewrite Et. done.
      * intros k. rewrite Hkeys, Exists_cons.
        destruct (decide (Config.upstreamName u = k)) as [<-|Hne].
        -- rewrite lookup_insert_eq. cbn. tauto.
        -- rewrite lookup_insert_ne by done. tauto.
Qed.

Lemma checkRoutes_spec rs m :
  checkRoutes rs m = None
  <-> Forall (fun r => Config.Path r <> "" /\ Config.Upstream r <> ""
                       /\ default false (m !! Config.Upstream r) = true) rs.
Proof.
  induction rs as [|r rs IH]; cbn [checkRoutes]; [done|].
  rewrite Forall_cons.
  destruct (String.eqb_spec (Config.Path r) "") as [E|Hp]; [split; [done|tauto]|].
  destruct (String.eqb_spec (Config.Upstream r) "") as [E|Hu]; [split; [done|tauto]|].
  destruct (default false (m !! Config.Upstream r)); cbn [negb].
  - rewrite IH. tauto.
  - split; [done|]. intros [(_ & _ & ?) _]. done.
Qed.

Lemma Validate_spec port c : Validate port c = None <-> wellFormed port c.
Proof.
  unfold Validate, wellFormed.
  destruct (Z.leb_spec port 0) as [Hlow|Hlow]; cbn [orb]; [split; [done|lia]|].
  destruct (Z.gtb_spec port 65535) as [Hhigh|Hhigh]; [split; [done|lia]|].
  destruct (Config.Routes c) as [|r rs] eqn:Er; [split; [done|tauto]|].
  rewrite <- Er.
  pose proof (checkUpstreams_spec (Config.Upstreams c) ∅) as Hups.
  destruct (checkUpstreams (Config.Upstreams c) ∅) as [e|m].
  - split; [done|]. intros (_ & _ & Hall & _). done.
  - destruct Hups as [Hall Hkeys]. rewrite checkRoutes_spec.
    assert (Hsame : forall r0,
              (Config.Path r0 <> "" /\ Config.Upstream r0 <> ""
               /\ default false (m !! Config.Upstream r0) = true)
              <-> (Config.Path r0 <> "" /\ Config.Upstream r0 <> ""
                   /\ Exists (fun u => Config.upstreamName u = Config.Upstream r0)
                             (Config.Upstreams c))).
    { intros r0. rewrite Hkeys, lookup_empty. cbn. intuition congruence. }
    split.
    + intros Hroutes. split; [lia|]. split; [by rewrite Er|]. split; [done|].
      eapply Forall_impl; [exact Hroutes|]. intros r0. apply Hsame.
    + intros (_ & _ & _ & Hroutes).
      eapply Forall_impl; [exact Hroutes|]. intros r0. apply Hsame.
Qed.

End ValidationFacts.

(** X17: [Validate] accepts a configuration exactly when the port lies
    in 1..65535, there is at least one route, every upstream has a name
    and at least one target, and every route has a path and names an
    upstream that is configured; nothing else is looked at. *)
Theorem Validate_accepts_exactly (port : Z) (c : Config.Config) :
  Validation.Validate port c = None <-> Validation.wellFormed port c.
Proof. apply ValidationFacts.Validate_spec. Qed.

(** ** The handler on a sound gateway *)

Module GatewayFacts.
Import Proxy GatewayRuns Limits.

Lemma Next_targets lb draw t lb' :
  LoadBalancer.Next lb draw = Some (t, lb') ->
  LoadBalancer.Targets lb' = LoadBalancer.Targets lb.
Proof.
  destruct lb as [rr|lc|r|w]; cbn [LoadBalancer.Next LoadBalancer.Targets].
  - unfold LoadBalancer.rrNext. destruct (LoadBalancer.rrTargets rr) eqn:E.
    + intros [= _ <-]. done.
    + assert (G : forall left rr0,
                LoadBalancer.rrTargets (LoadBalancer.rrScan left rr0).2
                = LoadBalancer.rrTargets rr0).
      { induction left as [|left IH]; intros rr0; cbn [LoadBalancer.rrScan]; [done|].
        destruct (LoadBalancer.healthyAt _ _); [done|]. by rewrite IH. }
      specialize (G (length (t0 :: l)) rr).
      destruct (LoadBalancer.rrScan _ rr) as [t1 rr']. intros [= _ <-]. cbn in *.
      congruence.
  - by intros [= _ <-].
  - by intros [= _ <-].
  - unfold LoadBalancer.wrrNext. destruct (LoadBalancer.targets w) eqn:E.
    + intros [= _ <-]. done.
    + assert (G : forall fuel w0 r0,
                LoadBalancer.wrrLoop fuel w0 = Some r0 ->
                LoadBalancer.targets r0.2 = LoadBalancer.targets w0).
      { induction fuel as [|fuel IH]; intros w0 r0; cbn [LoadBalancer.wrrLoop]; [done|].
        unfold LoadBalancer.wrrStep.
        repeat match goal with
               | |- context [if ?c then inl _ else _] => destruct c
               end; try (intros [= <-]; done).
        intros Hr. by rewrite (IH _ _ Hr). }
      destruct (LoadBalancer.wrrLoop _ w) as [[t1 w']|] eqn:Ew; [|done].
      intros [= _ <-]. cbn. rewrite <- E. exact (G _ _ _ Ew).
Qed.

Section WithLibraries.
Context `{CaseMapping} `{Sorter} `{Float64}.

Variable urlParse : string -> option LoadBalancer.GoURL.
Variable httpDo : LoadBalancer.GoURL -> string -> string -> RoundTrip.

(** *** What [New] builds *)



(** *** What the rate limits leave alone *)

Lemma runTiers_keeps tiers p w routeName :
  let p' := (runTiers tiers p w routeName).2 in
  router p' = router p /\ upstreams p' = upstreams p
  /\ errorLabels p' = errorLabels p.
Proof.
  revert p. induction tiers as [|t tiers IH]; intros p; [done|].
  cbn [runTiers].
  destruct (RateLimit.AllowWithLimits _ _ _ _ _) as [[ok rl] c].
  destruct ok.
  - destruct (IH (withLimiter p rl c)) as (-> & -> & ->). done.
  - cbn. split; [done|]. split; [done|]. unfold errorLabels. cbn.
    rewrite flat_map_app. cbn. by rewrite app_nil_r.
Qed.



(** *** Soundness is kept *)







(** *** What one handler call does to the balancers and the metrics *)

Lemma nextTarget_frame p lb t lb' q :
  nextTarget p lb = Some (t, lb', q) ->
  LoadBalancer.Targets lb' = LoadBalancer.Targets lb
  /\ upstreams q = upstreams p /\ metrics q = metrics p.
Proof.
  unfold nextTarget.
  assert (Hcall : forall draw q0,
            upstreams q0 = upstreams p -> metrics q0 = metrics p ->
            match LoadBalancer.Next lb draw with
            | Some (t, lb') => Some (t, lb', q0)
            | None => None
            end = Some (t, lb', q) ->
            LoadBalancer.Targets lb' = LoadBalancer.Targets lb
            /\ upstreams q = upstreams p /\ metrics q = metrics p).
  { intros draw q0 Hu Hm.
    destruct (LoadBalancer.Next lb draw) as [[t0 lb0]|] eqn:En; [|done].
    intros [= <- <- <-]. split; [by eapply Next_targets|done]. }
  destruct lb; try (by apply Hcall).
  destruct (draws p); by apply Hcall.
Qed.

Lemma checked_calls p w route clientIP apiKey routeName admitted w1 p1 :
  (if Config.limitsEnabled (Config.RateLimits (config p))
   then checkRateLimits p w route clientIP apiKey routeName
   else (true, w, p)) = (admitted, w1, p1) ->
  upstreams p1 = upstreams p
  /\ exists hits, metrics p1 = metrics p ++ hits
                  /\ forallb (fun e => negb (gaugeCall e)) hits = true.
Proof.
  destruct (Config.limitsEnabled _).
  - rewrite LimitFacts.checkRateLimits_runTiers. intros E.
    pose proof (runTiers_keeps (tiersFor p route clientIP apiKey routeName)
                  p w routeName) as (_ & Hu & _).
    pose proof (LimitFacts.runTiers_outcome
                  (tiersFor p route clientIP apiKey routeName) p w routeName) as Ho.
    rewrite E in Hu, Ho. cbn in Hu. split; [done|].
    destruct Ho as [_ Ho]. destruct admitted.
    + destruct Ho as (_ & _ & ->). exists []. by rewrite app_nil_r.
    + destruct Ho as (_ & _ & pre & t & post & _ & _ & ->). by eexists.
  - intros [= _ _ <-]. split; [done|]. exists []. by rewrite app_nil_r.
Qed.

Lemma addConnections_back lb i :
  LoadBalancer.Targets (addConnectionsAt (addConnectionsAt lb i 1) i (-1))
  = LoadBalancer.Targets lb.
Proof.
  unfold addConnectionsAt.
  assert (G : forall lb0 ts, LoadBalancer.Targets (LoadBalancer.withTargets lb0 ts) = ts)
    by (by intros []).
  rewrite !G, list_alter_alter_eq. apply list_alter_id. intros t.
  destruct t. unfold LoadBalancer.addConnections. cbn. f_equal. lia.
Qed.

Lemma ServeHTTP_outcome p w r w' p' :
  ServeHTTP httpDo p w r = Some (w', p') ->
  (forall name, LoadBalancer.Targets <$> upstreams p' !! name
                = LoadBalancer.Targets <$> upstreams p !! name)
  /\ exists calls,
       metrics p' = metrics p ++ calls
       /\ (calls = [RecordError "unknown" "not_found"]
           \/ exists routeName middle,
                calls = InFlightRequests routeName :: middle
                        ++ [InFlightDone routeName]
                /\ forallb (fun e => negb (gaugeCall e)) middle = true).
Proof.
  unfold ServeHTTP. destruct (GoTime.Now (clock p)) as [start c].
  destruct (Router.Match _ r) as [[at_| |] m]; [| |done].
  2:{ intros [= <- <-]. split; [done|]. eexists. split; [done|]. by left. }
  destruct (Router.cells m !! at_) as [route|]; [|done].
  set (routeName := if String.eqb (Router.Name route) "" then Router.Pattern route
                    else Router.Name route).
  destruct (extractAPIKey _ r) as [apiKey apiKeyName].
  destruct (if Config.limitsEnabled _ then _ else _) as [[admitted w1] p1] eqn:Echeck.
  apply checked_calls in Echeck as (Hu1 & hits & Hm1 & Hhits).
  cbn in Hu1, Hm1.
  destruct admitted; cbn [negb].
  2:{ intros [= <- <-]. cbn. rewrite Hu1, Hm1. split; [done|].
      eexists. split; [by rewrite <- !app_assoc|]. right.
      exists routeName, hits. done. }
  destruct (upstreams p1 !! Router.Upstream route) as [lb|] eqn:Elb.
  2:{ intros [= <- <-]. cbn. rewrite Hu1, Hm1. split; [done|].
      eexists. split; [by rewrite <- !app_assoc|]. right.
      exists routeName, (hits ++ [RecordError routeName "upstream_not_found"]).
      split; [by rewrite <- !app_assoc|].
      rewrite forallb_app, Hhits. done. }
  destruct (nextTarget p1 lb) as [[[t lb'] q]|] eqn:Enext; [|done].
  apply nextTarget_frame in Enext as (Hts & Huq & Hmq).
  destruct t as [i|].
  2:{ intros [= <- <-]. cbn. rewrite Huq, Hu1, Hmq, Hm1. split.
      - intros name. destruct (decide (Router.Upstream route = name)) as [<-|Hne].
        + rewrite lookup_insert_eq. rewrite Hu1 in Elb. rewrite Elb. cbn. by rewrite Hts.
        + by rewrite lookup_insert_ne.
      - eexists. split; [by rewrite <- !app_assoc|]. right.
        exists routeName, (hits ++ [RecordError routeName "no_healthy_upstream"]).
        split; [by rewrite <- !app_assoc|].
        rewrite forallb_app, Hhits. done. }
  destruct (LoadBalancer.Targets lb' !! i) as [target|]; [|done].
  destruct (proxyRequest httpDo w1 r route target) as [[statusCode err] w2].
  destruct (GoTime.Now _) as [now c2].
  intros [= <- <-]. split.
  - intros name.
    assert (Hfinal : forall x,
              upstreams x = <[Router.Upstream route := addConnectionsAt lb' i 1]>
                              (upstreams q) ->
              LoadBalancer.Targets
                <$> upstreams
                      (record
                         match upstreams x !! Router.Upstream route with
                         | Some lb0 =>
                             withUpstreams x
                               (<[Router.Upstream route := addConnectionsAt lb0 i (-1)]>
                                  (upstreams x))
                         | None => x
                         end (InFlightDone routeName)) !! name
              = LoadBalancer.Targets <$> upstreams p !! name).
    { intros x Hx. rewrite Hx, lookup_insert_eq. cbn. rewrite Huq, Hu1.
      destruct (decide (Router.Upstream route = name)) as [<-|Hne].
      - rewrite lookup_insert_eq. rewrite Hu1 in Elb. cbn in Elb. rewrite Elb. cbn.
        by rewrite addConnections_back, Hts.
      - by rewrite !lookup_insert_ne. }
    apply Hfinal. by destruct err, (negb (String.eqb apiKeyName "")).
  - assert (Hfinal : forall x tail,
              metrics x = metrics q ++ tail ->
              forallb (fun e => negb (gaugeCall e)) tail = true ->
              exists calls,
                metrics
                  (record
                     match upstreams x !! Router.Upstream route with
                     | Some lb0 =>
                         withUpstreams x
                           (<[Router.Upstream route := addConnectionsAt lb0 i (-1)]>
                              (upstreams x))
                     | None => x
                     end (InFlightDone routeName))
                = metrics p ++ calls
                /\ (calls = [RecordError "unknown" "not_found"]
                    \/ exists routeName0 middle,
                         calls = InFlightRequests routeName0 :: middle
                                 ++ [InFlightDone routeName0]
                         /\ forallb (fun e => negb (gaugeCall e)) middle = true)).
    { intros x tail Hx Htail.
      exists (InFlightRequests routeName :: (hits ++ tail) ++ [InFlightDone routeName]).
      split.
      - destruct (upstreams x !! Router.Upstream route); cbn;
          rewrite Hx, Hmq, Hm1; by rewrite <- !app_assoc.
      - right. exists routeName, (hits ++ tail). split; [done|].
        by rewrite forallb_app, Hhits, Htail. }
    destruct err, (negb (String.eqb apiKeyName "")).
    all: eapply Hfinal; [cbn; rewrite <- ?app_assoc; reflexivity|done].
Qed.

Context `{!SortLaws}.




End WithLibraries.

End GatewayFacts.



(** X19: when the handler returns, every target of every upstream has
    the URL, the weight, the liveness flag and the connection counter it
    had before the call: the counter that is incremented for the
    forwarded request has been decremented again, and no upstream has
    been added or removed. *)
Theorem handler_restores_connection_counts
        `{CaseMapping} `{Float64}
        (httpDo : LoadBalancer.GoURL -> string -> string -> Proxy.RoundTrip)
        (p : Proxy.Proxy) (w : Proxy.ResponseWriter) (r : Router.Request)
        (w' : Proxy.ResponseWriter) (p' : Proxy.Proxy) :
  Proxy.ServeHTTP httpDo p w r = Some (w', p') ->
  forall name,
    LoadBalancer.Targets <$> Proxy.upstreams p' !! name
    = LoadBalancer.Targets <$> Proxy.upstreams p !! name.
Proof. intros Hs. by destruct (GatewayFacts.ServeHTTP_outcome httpDo p w r w' p' Hs). Qed.

Lemma handler_restores_connection_counts_witness :
  exists p w' p',
    KeyedFixture.gateway = Some p
    /\ Proxy.ServeHTTP DownFixture.answers p Proxy.freshWriter GatewayFixture.users
       = Some (w', p')
    /\ forall name,
         LoadBalancer.Targets <$> Proxy.upstreams p' !! name
         = LoadBalancer.Targets <$> Proxy.upstreams p !! name.
Proof.
  destruct GatewayFixture.served as [[w' p']|] eqn:Es; [|by vm_compute in Es].
  unfold GatewayFixture.served in Es.
  destruct KeyedFixture.gateway as [p|] eqn:E; [|done].
  exists p, w', p'. split; [done|]. split; [done|].
  exact (@handler_restores_connection_counts asciiCase exactArith DownFixture.answers
           p Proxy.freshWriter GatewayFixture.users w' p' Es).
Defined.

(** X20: a handler call that returns has either recorded the single
    error [not_found] for a request that matched no route, or it has
    incremented the in-flight gauge of the route first and decremented it
    last, once each, on whichever path it left: rate-limited, upstream
    missing, no target, or forwarded. *)
Theorem in_flight_gauge_is_released
        `{CaseMapping} `{Float64}
        (httpDo : LoadBalancer.GoURL -> string -> string -> Proxy.RoundTrip)
        (p : Proxy.Proxy) (w : Proxy.ResponseWriter) (r : Router.Request)
        (w' : Proxy.ResponseWriter) (p' : Proxy.Proxy) :
  Proxy.ServeHTTP httpDo p w r = Some (w', p') ->
  exists calls,
    Proxy.metrics p' = Proxy.metrics p ++ calls
    /\ (calls = [Proxy.RecordError "unknown" "not_found"]
        \/ exists routeName middle,
             calls = Proxy.InFlightRequests routeName :: middle
                     ++ [Proxy.InFlightDone routeName]
             /\ forallb (fun e => negb (GatewayRuns.gaugeCall e)) middle = true).
Proof. intros Hs. by destruct (GatewayFacts.ServeHTTP_outcome httpDo p w r w' p' Hs). Qed.

Lemma in_flight_gauge_is_released_witness :
  exists p w' p',
    KeyedFixture.gateway = Some p
    /\ Proxy.ServeHTTP DownFixture.answers p Proxy.freshWriter GatewayFixture.users
       = Some (w', p')
    /\ exists calls,
         Proxy.metrics p' = Proxy.metrics p ++ calls
         /\ (calls = [Proxy.RecordError "unknown" "not_found"]
             \/ exists routeName middle,
                  calls = Proxy.InFlightRequests routeName :: middle
                          ++ [Proxy.InFlightDone routeName]
                  /\ forallb (fun e => negb (GatewayRuns.gaugeCall e)) middle = true).
Proof.
  destruct GatewayFixture.served as [[w' p']|] eqn:Es; [|by vm_compute in Es].
  unfold GatewayFixture.served in Es.
  destruct KeyedFixture.gateway as [p|] eqn:E; [|done].
  exists p, w', p'. split; [done|]. split; [done|].
  exact (@in_flight_gauge_is_released asciiCase exactArith DownFixture.answers
           p Proxy.freshWriter GatewayFixture.users w' p' Es).
Defined.

(** ** The health checker *)

Module HealthFacts.
Import LoadBalancer Health.

Lemma withTargets_twice lb a b : withTargets (withTargets lb a) b = withTargets lb b.
Proof. by destruct lb. Qed.

Lemma Targets_withTargets lb ts : Targets (withTargets lb ts) = ts.
Proof. by destruct lb. Qed.

Lemma withTargets_self lb : withTargets lb (Targets lb) = lb.
Proof. by destruct lb as [[]|[]|[]|[]]. Qed.

Section WithClient.
Variable probe : GoURL -> HealthCheck -> ProbeResult.

Lemma checkFrom_spec name cfg todo pre lb reports :
  Targets lb = pre ++ todo ->
  checkFrom probe name cfg todo (length pre) lb reports
  = (withTargets lb
       (pre ++ map (fun t => setHealthy (checkTarget probe t cfg) t) todo),
     reports ++ flat_map (outcome probe name cfg) todo).
Proof.
  revert pre lb reports. induction todo as [|t rest IH]; intros pre lb reports Hts.
  - cbn. rewrite !app_nil_r. rewrite <- (app_nil_r pre), <- Hts.
    by rewrite withTargets_self.
  - cbn [checkFrom map flat_map].
    set (healthy := checkTarget probe t cfg).
    assert (Hmark : MarkHealthy lb (length pre) healthy
                    = withTargets lb ((pre ++ [setHealthy healthy t]) ++ rest)).
    { unfold MarkHealthy, markAt. rewrite Hts. f_equal.
      rewrite <- (Nat.add_0_r (length pre)), alter_app_r. cbn.
      by rewrite <- app_assoc. }
    assert (Hlen : S (length pre) = length (pre ++ [setHealthy healthy t]))
      by (rewrite length_app; cbn; lia).
    rewrite Hmark, Hlen, IH by apply Targets_withTargets.
    rewrite withTargets_twice, <- !app_assoc. cbn [app]. f_equal.
    unfold outcome. fold healthy. destruct healthy; cbn [negb app];
      by rewrite <- ?app_assoc.
Qed.

End WithClient.

End HealthFacts.

(** X21: one round of the health checker stores in the liveness flag of
    every target the outcome of that target's own probe, live exactly when
    the probe got a response with a status from 200 to 399, and changes
    nothing else of the balancer or its targets; it reports each outcome
    to the metrics, and each failure to the log, in target order. *)
Theorem checkAll_sets_each_flag_to_its_probe
        (probe : LoadBalancer.GoURL -> Health.HealthCheck -> Health.ProbeResult)
        (name : string) (lb : LoadBalancer.LoadBalancer) (cfg : Health.HealthCheck) :
  Health.checkAll probe name lb cfg
  = (LoadBalancer.withTargets lb
       (map (fun t => LoadBalancer.setHealthy (Health.checkTarget probe t cfg) t)
            (LoadBalancer.Targets lb)),
     flat_map (Health.outcome probe name cfg) (LoadBalancer.Targets lb))
  /\ forall i : nat,
       LoadBalancer.healthyAt
         (LoadBalancer.Targets (Health.checkAll probe name lb cfg).1) i = true
       <-> exists t statusCode,
             LoadBalancer.Targets lb !! i = Some t
             /\ probe (LoadBalancer.URL t) cfg = Health.Responded statusCode
             /\ 200 <= statusCode < 400.
Proof.
  assert (Hall : Health.checkAll probe name lb cfg
                 = (LoadBalancer.withTargets lb
                      (map (fun t => LoadBalancer.setHealthy
                                       (Health.checkTarget probe t cfg) t)
                           (LoadBalancer.Targets lb)),
                    flat_map (Health.outcome probe name cfg) (LoadBalancer.Targets lb))).
  { unfold Health.checkAll.
    exact (HealthFacts.checkFrom_spec probe name cfg (LoadBalancer.Targets lb) [] lb []
             eq_refl). }
  split; [exact Hall|]. intros i. rewrite Hall. cbn [fst].
  rewrite HealthFacts.Targets_withTargets. unfold LoadBalancer.healthyAt.
  change (map ?f ?l) with (f <$> l). rewrite list_lookup_fmap.
  destruct (LoadBalancer.Targets lb !! i) as [t|]; cbn.
  - unfold Health.checkTarget. split.
    + destruct (probe (LoadBalancer.URL t) cfg) as [code|] eqn:Ep; [|done].
      intros [Hlo Hhi]%andb_true_iff. exists t, code. split; [done|]. split; [done|]. lia.
    + intros (t' & code & [= <-] & -> & Hcode).
      apply andb_true_iff. split; lia.
  - split; [done|]. by intros (t & code & ? & _).
Qed.

(** ** Histograms *)

Module HistogramFacts.
Import Metrics Tallies.

Lemma wrap64_range x : - 2 ^ 63 <= wrap64 x < 2 ^ 63.
Proof.
  unfold wrap64. pose proof (Z.mod_pos_bound (x + 2 ^ 63) (2 ^ 64) ltac:(lia)).
  change (2 ^ 64) with (2 * 2 ^ 63) in *. lia.
Qed.

Lemma wrap64_small x : - 2 ^ 63 <= x < 2 ^ 63 -> wrap64 x = x.
Proof.
  intros Hx. unfold wrap64. rewrite Z.mod_small; [lia|].
  change (2 ^ 64) with (2 * 2 ^ 63). lia.
Qed.

Lemma wrap64_add_l x y : wrap64 (wrap64 x + y) = wrap64 (x + y).
Proof.
  unfold wrap64. f_equal.
  replace ((x + 2 ^ 63) mod 2 ^ 64 - 2 ^ 63 + y + 2 ^ 63)
    with ((x + 2 ^ 63) mod 2 ^ 64 + y) by lia.
  rewrite Z.add_mod_idemp_l by lia. f_equal. lia.
Qed.

Lemma wrap64_add_r x y : wrap64 (x + wrap64 y) = wrap64 (x + y).
Proof. by rewrite Z.add_comm, wrap64_add_l, Z.add_comm. Qed.

Lemma searchLoop_range fuel f i j :
  (i <= j)%nat -> (i <= searchLoop fuel f i j <= j)%nat.
Proof.
  revert i j. induction fuel as [|fuel IH]; intros i j Hij; cbn [searchLoop]; [lia|].
  destruct (Nat.ltb_spec i j) as [Hlt|Hge]; [|lia].
  assert (i <= (i + j) / 2 < j)%nat as [Hlo Hhi].
  { split; [apply Nat.div_le_lower_bound; lia|apply Nat.Div0.div_lt_upper_bound; lia]. }
  destruct (f ((i + j) / 2)%nat); cbn [negb].
  - specialize (IH i ((i + j) / 2)%nat Hlo). lia.
  - specialize (IH ((i + j) / 2 + 1)%nat j ltac:(lia)). lia.
Qed.

(** On a predicate that, once true, stays true, the search returns the
    least index from which on it holds. *)
Lemma searchLoop_least fuel f n i j :
  (forall a b, (a <= b)%nat -> (b < n)%nat -> f a = true -> f b = true) ->
  (i <= j)%nat -> (j <= n)%nat -> (j - i <= fuel)%nat ->
  (forall k, (k < i)%nat -> f k = false) ->
  (forall k, (j <= k < n)%nat -> f k = true) ->
  let r := searchLoop fuel f i j in
  (forall k, (k < r)%nat -> f k = false)
  /\ (forall k, (r <= k < n)%nat -> f k = true).
Proof.
  intros Hmono. revert i j.
  induction fuel as [|fuel IH]; intros i j Hij Hjn Hfuel Hlow Hhigh; cbn [searchLoop].
  - split; [done|]. intros k Hk. apply Hhigh. lia.
  - destruct (Nat.ltb_spec i j) as [Hlt|Hge].
    2:{ cbv zeta. split; [done|]. intros k Hk. apply Hhigh. lia. }
    assert (i <= (i + j) / 2 < j)%nat as [Hlo Hhi].
    { split; [apply Nat.div_le_lower_bound; lia|apply Nat.Div0.div_lt_upper_bound; lia]. }
    destruct (f ((i + j) / 2)%nat) eqn:Eh; cbn [negb].
    + apply IH; try lia; [done|].
      intros k Hk. apply (Hmono ((i + j) / 2)%nat); [lia|lia|done].
    + apply IH; try lia; [|done].
      intros k Hk. destruct (f k) eqn:Ek; [|done].
      rewrite (Hmono k ((i + j) / 2)%nat) in Eh; [done|lia|lia|done].
Qed.

Lemma total_cons y cs : total (y :: cs) = y + total cs.
Proof. reflexivity. Qed.

Lemma total_app a b : total (a ++ b) = total a + total b.
Proof.
  induction a as [|x a IH]; [done|].
  cbn [app]. rewrite !total_cons, IH. lia.
Qed.

Lemma total_insert (cs : list Z) (i : nat) c x :
  cs !! i = Some c -> total (<[i := x]> cs) = total cs - c + x.
Proof.
  revert i. induction cs as [|y cs IH]; intros i; [done|].
  destruct i as [|i].
  - intros [= ->]. change (<[0%nat := x]> (c :: cs)) with (x :: cs).
    rewrite !total_cons. lia.
  - intros Hi. change (<[S i := x]> (y :: cs)) with (y :: <[i := x]> cs).
    rewrite !total_cons, (IH i Hi). lia.
Qed.

Lemma total_replicate n : total (replicate n 0) = 0.
Proof. induction n as [|n IH]; [done|]. unfold total in *. cbn. by rewrite IH. Qed.

Section WithFloat.
Context `{Float64}.
Variable toInt64 : float64 -> Z.

Lemma SearchFloat64s_le a x : (SearchFloat64s a x <= length a)%nat.
Proof.
  unfold SearchFloat64s, Search.
  pose proof (searchLoop_range (length a)
                (fun i => match a !! i with Some v => fge v x | None => false end)
                0 (length a) ltac:(lia)).
  lia.
Qed.

Lemma newHistogram_consistent bounds : consistent (newHistogram bounds).
Proof.
  unfold consistent. cbn. rewrite length_replicate, total_replicate.
  split; [lia|done].
Qed.

Lemma observe_consistent h value :
  consistent h ->
  exists h', observe toInt64 h value = Some h'
             /\ consistent h' /\ buckets h' = buckets h
             /\ count h' = wrap64 (count h + 1).
Proof.
  intros [Hlen Hcount]. unfold observe.
  pose proof (SearchFloat64s_le (buckets h) value) as Hidx.
  destruct (lookup_lt_is_Some_2 (counts h) (SearchFloat64s (buckets h) value))
    as [c Hc]; [lia|].
  rewrite Hc. eexists. split; [done|]. unfold consistent. cbn.
  rewrite length_insert. split; [|done]. split; [done|].
  rewrite (total_insert _ _ c) by done.
  rewrite Hcount, wrap64_add_l, wrap64_add_r. f_equal. lia.
Qed.

Lemma observeAll_consistent values h :
  consistent h ->
  exists h', observeAll toInt64 h values = Some h'
             /\ consistent h' /\ buckets h' = buckets h
             /\ count h' = wrap64 (count h + Z.of_nat (length values)).
Proof.
  revert h. induction values as [|v values IH]; intros h Hh.
  - exists h. split; [done|]. split; [done|]. split; [done|].
    destruct Hh as [_ ->]. rewrite wrap64_add_l. f_equal. cbn. lia.
  - cbn [observeAll].
    destruct (observe_consistent h v Hh) as (h1 & -> & Hh1 & Hb1 & Hc1).
    destruct (IH h1 Hh1) as (h' & -> & Hh' & Hb' & Hc').
    exists h'. split; [done|]. split; [done|]. split; [congruence|].
    rewrite Hc', Hc1, wrap64_add_l. f_equal. cbn [length]. lia.
Qed.

Lemma bucketLines_spec bs i cs cumulative :
  (i + length bs <= length cs)%nat ->
  exists lines final,
    bucketLines bs i cs cumulative = Some (lines, final)
    /\ wrap64 final = wrap64 (cumulative + total (take (length bs) (drop i cs)))
    /\ map fst lines = bs.
Proof.
  revert i cumulative.
  induction bs as [|b bs IH]; intros i cumulative Hlen; cbn [bucketLines length].
  - exists [], cumulative. split; [done|]. split; [|done].
    rewrite take_0. cbn. by rewrite Z.add_0_r.
  - cbn [length] in Hlen.
    destruct (lookup_lt_is_Some_2 cs i) as [c Hc]; [lia|]. rewrite Hc.
    destruct (IH (S i) (wrap64 (cumulative + c))) as (lines & final & -> & Hfinal & Hfst);
      [lia|].
    eexists _, _. split; [done|]. split; [|cbn; by rewrite Hfst].
    rewrite Hfinal, wrap64_add_l. f_equal.
    rewrite (drop_S cs c i Hc). cbn [take]. rewrite total_cons. lia.
Qed.

Lemma exposition_consistent h :
  consistent h ->
  exists lines,
    exposition h = Some (lines, count h, count h)
    /\ map fst lines = buckets h.
Proof.
  intros [Hlen Hcount]. unfold exposition.
  destruct (bucketLines_spec (buckets h) 0 (counts h) 0)
    as (lines & final & -> & Hfinal & Hfst); [lia|].
  destruct (lookup_lt_is_Some_2 (counts h) (length (buckets h))) as [c Hc]; [lia|].
  rewrite Hc. exists lines. split; [|done]. do 2 f_equal.
  rewrite <- wrap64_add_l, Hfinal, wrap64_add_l, Hcount. f_equal.
  rewrite drop_0. cbn [Z.add].
  rewrite <- (take_drop (length (buckets h)) (counts h)) at 2.
  rewrite (drop_S _ c _ Hc), drop_ge by lia.
  rewrite total_app, total_cons. change (total []) with 0. f_equal. lia.
Qed.

End WithFloat.

End HistogramFacts.

(** X22: whatever the bucket bounds are, sorted or not, and whatever is
    observed, [observe] never indexes outside the counters, and what is
    written for the histogram is consistent: one line per bound, and the
    number on the [+Inf] line is the number on the [_count] line, the
    number of observations as a 64-bit counter. *)
Theorem histogram_inf_line_equals_count
        `{Float64} (toInt64 : float64 -> Z)
        (bounds : list float64) (values : list float64) :
  exists h lines,
    Metrics.observeAll toInt64 (Metrics.newHistogram bounds) values = Some h
    /\ Metrics.exposition h = Some (lines, Metrics.count h, Metrics.count h)
    /\ map fst lines = bounds
    /\ Metrics.count h = Metrics.wrap64 (Z.of_nat (length values)).
Proof.
  destruct (HistogramFacts.observeAll_consistent toInt64 values
              (Metrics.newHistogram bounds)
              (HistogramFacts.newHistogram_consistent bounds))
    as (h & Hrun & Hh & Hb & Hc).
  destruct (HistogramFacts.exposition_consistent h Hh) as (lines & Hex & Hfst).
  exists h, lines. split; [done|]. split; [done|]. split; [by rewrite Hfst, Hb|].
  by rewrite Hc.
Qed.

Module SortedFacts.

Lemma StronglySorted_lookup {A} (R : A -> A -> Prop) (l : list A) (i j : nat) x y :
  StronglySorted R l -> (i < j)%nat -> l !! i = Some x -> l !! j = Some y -> R x y.
Proof.
  intros Hs. revert i j. induction Hs as [|a l Hs IH Hall]; intros i j Hij Hi Hj; [done|].
  destruct j as [|j]; [lia|]. cbn in Hj.
  destruct i as [|i]; cbn in Hi.
  - injection Hi as <-. rewrite List.Forall_forall in Hall. apply Hall.
    apply list_elem_of_In. by eapply list_elem_of_lookup_2.
  - apply (IH i j); [lia|done|done].
Qed.

End SortedFacts.

(** X23: with bucket bounds in ascending order, in exact arithmetic, an
    observation is counted in the first bucket whose bound is not below
    it, and in the overflow bucket past the last bound when there is
    none: exactly the bounds before the chosen index are below the
    value. *)
Theorem observation_goes_to_first_fitting_bucket (bounds : list Q) (value : Q) :
  StronglySorted Qle bounds ->
  (@Metrics.SearchFloat64s exactArith bounds value <= length bounds)%nat
  /\ forall (j : nat) b,
       bounds !! j = Some b ->
       ((j < @Metrics.SearchFloat64s exactArith bounds value)%nat <-> (b < value)%Q).
Proof.
  intros Hsorted.
  split; [exact (@HistogramFacts.SearchFloat64s_le exactArith bounds value)|].
  set (f := fun i : nat => match @lookup nat Q (list Q) _ i bounds with
                           | Some v => Qle_bool value v
                           | None => false
                           end).
  change (@Metrics.SearchFloat64s exactArith bounds value)
    with (Metrics.searchLoop (length bounds) f 0 (length bounds)).
  assert (Hmono : forall a b, (a <= b)%nat -> (b < length bounds)%nat ->
                              f a = true -> f b = true).
  { intros a b Hab Hb. unfold f.
    destruct (bounds !! a) as [x|] eqn:Ea; [|done].
    destruct (lookup_lt_is_Some_2 bounds b Hb) as [y Ey]. rewrite Ey. cbn.
    intros Hx%Qle_bool_iff. apply Qle_bool_iff.
    destruct (decide (a = b)) as [->|Hne]; [congruence|].
    eapply Qle_trans; [exact Hx|].
    eapply (SortedFacts.StronglySorted_lookup Qle bounds a b); [done|lia|done|done]. }
  destruct (HistogramFacts.searchLoop_least (length bounds) f (length bounds) 0
              (length bounds) Hmono) as [Hlow Hhigh]; try lia.
  intros j b Hj.
  assert (Hjn : (j < length bounds)%nat) by (by eapply lookup_lt_Some).
  assert (Hf : f j = Qle_bool value b) by (unfold f; by rewrite Hj).
  split.
  - intros Hlt. specialize (Hlow j Hlt). rewrite Hf in Hlow.
    apply Qnot_le_lt. rewrite <- Qle_bool_iff. congruence.
  - intros Hb. destruct (Nat.lt_ge_cases j (Metrics.searchLoop (length bounds) f 0
                                               (length bounds))) as [?|Hge]; [done|].
    specialize (Hhigh j (conj Hge Hjn)). rewrite Hf in Hhigh.
    apply Qle_bool_iff in Hhigh. apply Qlt_not_le in Hb. done.
Qed.

Lemma observation_goes_to_first_fitting_bucket_witness :
  StronglySorted Qle Metrics.defaultBuckets
  /\ @Metrics.SearchFloat64s exactArith Metrics.defaultBuckets (3 # 10) = 6%nat
  /\ forall (j : nat) b,
       Metrics.defaultBuckets !! j = Some b ->
       ((j < @Metrics.SearchFloat64s exactArith Metrics.defaultBuckets (3 # 10))%nat
        <-> (b < 3 # 10)%Q).
Proof.
  assert (Hs : StronglySorted Qle Metrics.defaultBuckets).
  { unfold Metrics.defaultBuckets.
    repeat (constructor; [|repeat (constructor; [by vm_compute|]); constructor]).
    constructor. }
  split; [exact Hs|]. split; [reflexivity|].
  exact (proj2 (observation_goes_to_first_fitting_bucket
                  Metrics.defaultBuckets (3 # 10) Hs)).
Defined.

(** ** Latency samples *)

Module LatencyFacts.
Import Metrics.

Section WithFloat.
Context `{Float64}.

Lemma Record_step lt d :
  0 <= maxSize lt ->
  (4 <= maxSize lt -> Z.of_nat (length (samples lt)) <= maxSize lt) ->
  exists lt' k,
    Record_ lt d = Some lt'
    /\ samples lt' = drop k (samples lt) ++ [Seconds d]
    /\ maxSize lt' = maxSize lt
    /\ (4 <= maxSize lt -> Z.of_nat (length (samples lt')) <= maxSize lt)
    /\ (maxSize lt < 4 -> k = 0%nat).
Proof.
  intros Hsize Hbound. unfold Record_.
  destruct (Z.geb_spec (Z.of_nat (length (samples lt))) (maxSize lt)) as [Hfull|Hroom].
  - pose proof (Z.quot_pos (maxSize lt) 4 Hsize ltac:(lia)) as Hlow.
    assert (Hle : Z.quot (maxSize lt) 4 <= maxSize lt)
      by (rewrite Z.quot_div_nonneg by lia; apply Z.div_le_upper_bound; lia).
    destruct (Z.ltb_spec (Z.quot (maxSize lt) 4) 0) as [?|_]; [lia|].
    destruct (Z.ltb_spec (Z.of_nat (length (samples lt))) (Z.quot (maxSize lt) 4))
      as [?|_]; [lia|].
    cbn [orb]. eexists _, (Z.to_nat (Z.quot (maxSize lt) 4)).
    split; [done|]. cbn. split; [done|]. split; [done|]. split.
    + intros H4. specialize (Hbound H4).
      rewrite length_app, length_drop. cbn [length].
      assert (1 <= Z.quot (maxSize lt) 4)
        by (rewrite Z.quot_div_nonneg by lia; apply Z.div_le_lower_bound; lia).
      lia.
    + intros Hsmall. rewrite Z.quot_small by lia. done.
  - exists {| samples := samples lt ++ [Seconds d]; maxSize := maxSize lt |}, 0%nat.
    split; [done|]. cbn. rewrite drop_0. split; [done|]. split; [done|].
    split; [|done]. intros _. rewrite length_app. cbn [length]. lia.
Qed.

Lemma recordAll_spec durations lt :
  0 <= maxSize lt ->
  (4 <= maxSize lt -> Z.of_nat (length (samples lt)) <= maxSize lt) ->
  exists lt' dropped,
    recordAll lt durations = Some lt'
    /\ samples lt ++ map Seconds durations = dropped ++ samples lt'
    /\ maxSize lt' = maxSize lt
    /\ (4 <= maxSize lt -> Z.of_nat (length (samples lt')) <= maxSize lt)
    /\ (maxSize lt < 4 -> dropped = [])
    /\ (samples lt <> [] \/ durations <> [] -> samples lt' <> []).
Proof.
  revert lt. induction durations as [|d rest IH]; intros lt Hsize Hbound.
  - exists lt, []. cbn. rewrite app_nil_r.
    split; [done|]. split; [done|]. split; [done|]. split; [done|].
    split; [done|]. by intros [?|?].
  - cbn [recordAll map].
    destruct (Record_step lt d Hsize Hbound) as (lt1 & k & -> & Hs1 & Hm1 & Hb1 & Hk).
    destruct (IH lt1) as (lt' & dropped & -> & Hs' & Hm' & Hb' & Hd' & Hne');
      [by rewrite Hm1|by rewrite Hm1|].
    exists lt', (take k (samples lt) ++ dropped). split; [done|].
    split.
    { rewrite <- app_assoc, <- Hs', Hs1.
      rewrite <- (take_drop k (samples lt)) at 1. by rewrite <- !app_assoc. }
    split; [congruence|]. split; [by rewrite <- Hm1|].
    split.
    { intros Hsmall. rewrite (Hk Hsmall), Hd' by (by rewrite Hm1). done. }
    intros _. apply Hne'. left. rewrite Hs1. by destruct (drop k (samples lt)).
Qed.

End WithFloat.

End LatencyFacts.

(** X24: a latency tracker made with a capacity that is not negative
    never fails to record; what it holds is always the most recent
    samples, in order; with a capacity of at least 4 it never holds more
    samples than its capacity (a full tracker drops its oldest quarter),
    while with a capacity below 4 it never drops a sample at all. *)
Theorem latency_tracker_keeps_recent_samples
        `{Float64} (capacity : Z) (durations : list Z) :
  0 <= capacity ->
  exists lt0 lt dropped,
    Metrics.NewLatencyTracker capacity = Some lt0
    /\ Metrics.recordAll lt0 durations = Some lt
    /\ map Seconds durations = dropped ++ Metrics.samples lt
    /\ (durations <> [] -> Metrics.samples lt <> [])
    /\ (4 <= capacity -> Z.of_nat (length (Metrics.samples lt)) <= capacity)
    /\ (capacity < 4 -> dropped = []).
Proof.
  intros Hcap. unfold Metrics.NewLatencyTracker.
  destruct (Z.ltb_spec capacity 0) as [?|_]; [lia|].
  destruct (LatencyFacts.recordAll_spec durations
              {| Metrics.samples := []; Metrics.maxSize := capacity |})
    as (lt & dropped & Hrun & Hsuffix & _ & Hbound & Hsmall & Hne); [done|cbn; lia|].
  exists {| Metrics.samples := []; Metrics.maxSize := capacity |}, lt, dropped.
  split; [done|]. split; [done|]. split; [done|].
  split; [intros Hd; apply Hne; by right|]. done.
Qed.

Lemma latency_tracker_keeps_recent_samples_witness :
  0 <= 4
  /\ exists lt0 lt dropped,
       @Metrics.NewLatencyTracker exactArith 4 = Some lt0
       /\ Metrics.recordAll lt0 [1; 2; 3; 4; 5; 6] = Some lt
       /\ map (@Seconds exactArith) [1; 2; 3; 4; 5; 6] = dropped ++ Metrics.samples lt
       /\ ([1; 2; 3; 4; 5; 6] <> [] -> Metrics.samples lt <> [])
       /\ (4 <= 4 -> Z.of_nat (length (Metrics.samples lt)) <= 4)
       /\ (4 < 4 -> dropped = []).
Proof.
  split; [lia|].
  apply (@latency_tracker_keeps_recent_samples exactArith 4 [1; 2; 3; 4; 5; 6]). lia.
Defined.

(** ** Headers *)

Module HeaderFacts.
Import GoStrings Headers.
Local Open Scope string_scope.
Local Open Scope list_scope.

Section WithKeys.
Context `{HeaderKeys}.

Lemma Get_Set_same h key value : Get (Set_ h key value) key = value.
Proof. unfold Get, Set_. by rewrite lookup_insert_eq. Qed.

Lemma Get_Set_other h key key' value :
CanonicalMIMEHeaderKey key <> CanonicalMIMEHeaderKey key' ->
Get (Set_ h key' value) key = Get h key.
Proof. intros Hne. unfold Get, Set_. by rewrite lookup_insert_ne. Qed.

Lemma Del_all_lookup names h key :
fold_left Del names h !! key
= if bool_decide (key ∈ map CanonicalMIMEHeaderKey names) then None else h !! key.
Proof.
revert h. induction names as [|name names IH]; intros h; cbn [fold_left map].
- rewrite bool_decide_eq_false_2; [done|]. by intros ?%elem_of_nil.
- rewrite IH. unfold Del.
destruct (decide (key = CanonicalMIMEHeaderKey name)) as [->|Hne].
+ rewrite lookup_delete_eq. rewrite (bool_decide_eq_true_2 (_ ∈ _ :: _)); [|by left].
  by destruct (bool_decide _).
+ rewrite lookup_delete_ne; [|done].
  destruct (bool_decide (key ∈ map _ names)) eqn:E.
  * apply bool_decide_eq_true in E. rewrite bool_decide_eq_true_2; [done|by right].
  * apply bool_decide_eq_false in E. rewrite bool_decide_eq_false_2; [done|].
    by intros [?|?]%elem_of_cons.
Qed.

Lemma addAll_lookup k vv dst key :
default [] (fold_left (fun dst v => Add dst k v) vv dst !! key)
= default [] (dst !! key)
++ (if String.eqb (CanonicalMIMEHeaderKey k) key then vv else []).
Proof.
revert dst. induction vv as [|v vv IH]; intros dst; cbn [fold_left].
- destruct (String.eqb _ _); by rewrite app_nil_r.
- rewrite IH. unfold Add.
destruct (String.eqb_spec (CanonicalMIMEHeaderKey k) key) as [->|Hne].
+ rewrite lookup_insert_eq. cbn. by rewrite <- app_assoc.
+ rewrite lookup_insert_ne; [|done]. done.
Qed.

Lemma copyHeaders_lookup visited dst key :
default [] (copyHeaders dst visited !! key)
= default [] (dst !! key) ++ gathered key visited.
Proof.
revert dst. induction visited as [|[k vv] visited IH]; intros dst.
- cbn. by rewrite app_nil_r.
- unfold copyHeaders in *. cbn [fold_left fst snd]. rewrite IH, addAll_lookup.
unfold gathered. cbn [flat_map fst snd]. by rewrite <- app_assoc.
Qed.


Lemma Get_same_values (h h' : Header) key key' :
default [] (h !! CanonicalMIMEHeaderKey key) = default [] (h' !! CanonicalMIMEHeaderKey key') ->
Get h key = Get h' key'.
Proof.
unfold Get. destruct (h !! _) as [[|]|], (h' !! _) as [[|]|]; cbn; congruence.
Qed.

Lemma gathered_absent key visited :
Forall (fun kvv => CanonicalMIMEHeaderKey (fst kvv) <> key) visited ->
gathered key visited = [].
Proof.
induction 1 as [|[k vv] visited Hk _ IH]; [done|].
unfold gathered in *. cbn [flat_map fst snd] in *. rewrite IH.
by destruct (String.eqb_spec (CanonicalMIMEHeaderKey k) key).
Qed.

Lemma gathered_entry key vv visited :
NoDup (visited.*1) ->
Forall (fun kvv => CanonicalMIMEHeaderKey (fst kvv) = fst kvv) visited ->
(key, vv) ∈ visited ->
gathered key visited = vv.
Proof.
induction visited as [|[k ww] visited IH]; intros Hnd Hcan Hin.
- by apply elem_of_nil in Hin.
- rewrite fmap_cons in Hnd. cbn [fst] in Hnd. apply NoDup_cons in Hnd as [Hk Hnd].
apply Forall_cons in Hcan as [Hck Hcan]. cbn [fst] in Hck.
unfold gathered in *. cbn [flat_map fst snd]. rewrite Hck.
apply elem_of_cons in Hin as [Heq|Hin].
+ injection Heq as <- <-. rewrite String.eqb_refl.
  fold (gathered key visited). rewrite gathered_absent; [by rewrite app_nil_r|].
  apply Forall_forall. intros [k' w'] Hin'. cbn [fst].
  rewrite Forall_forall in Hcan. pose proof (Hcan _ Hin') as E. cbn [fst] in E.
  rewrite E. intros ->. apply Hk. apply list_elem_of_fmap. by exists (key, w').
+ destruct (String.eqb_spec k key) as [->|_].
  * exfalso. apply Hk. apply list_elem_of_fmap. by exists (key, vv).
  * by apply IH.
Qed.

(** Visiting a map whose keys are canonical gathers, for every key, the
values the map holds for it. *)
Lemma gathered_visit (src : Header) visited key :
visited ≡ₚ map_to_list src ->
Forall (fun kvv => CanonicalMIMEHeaderKey (fst kvv) = fst kvv) visited ->
gathered key visited = default [] (src !! key).
Proof.
intros Hperm Hcan.
assert (NoDup (visited.*1)) as Hnd.
{ rewrite Hperm. apply NoDup_fst_map_to_list. }
destruct (src !! key) as [vv|] eqn:E; cbn [default].
- apply gathered_entry; [done..|]. rewrite Hperm. by apply elem_of_map_to_list.
- apply gathered_absent. apply Forall_forall. intros [k w] Hin. cbn [fst].
rewrite Forall_forall in Hcan. pose proof (Hcan _ Hin) as E'. cbn [fst] in E'.
rewrite E'. intros ->. rewrite Hperm in Hin. apply elem_of_map_to_list in Hin. congruence.
Qed.

Lemma setAll_other routeVisited h key :
Forall (fun kv => CanonicalMIMEHeaderKey (fst kv) <> key) routeVisited ->
setAll routeVisited h !! key = h !! key.
Proof.
intros Hall. revert h. induction Hall as [|[k v] rest Hk _ IH]; intros h; [done|].
unfold setAll in *. cbn [fold_left fst snd]. rewrite IH. unfold Set_.
by rewrite lookup_insert_ne.
Qed.

Lemma setAll_entry routeVisited h k v :
(k, v) ∈ routeVisited ->
(forall k' v', (k', v') ∈ routeVisited ->
             CanonicalMIMEHeaderKey k' = CanonicalMIMEHeaderKey k -> v' = v) ->
setAll routeVisited h !! CanonicalMIMEHeaderKey k = Some [v].
Proof.
induction routeVisited as [|[k' v'] rest IH] using rev_ind; intros Hin Hone.
- by apply elem_of_nil in Hin.
- unfold setAll in *. rewrite fold_left_app. cbn [fold_left fst snd]. unfold Set_ at 1.
destruct (decide (CanonicalMIMEHeaderKey k' = CanonicalMIMEHeaderKey k)) as [E|Hne].
+ rewrite E, lookup_insert_eq. f_equal. f_equal. apply (Hone k'); [|done].
  apply elem_of_app. right. by left.
+ rewrite lookup_insert_ne; [|done]. apply IH.
  * apply elem_of_app in Hin as [Hin|Hin]; [done|].
    apply list_elem_of_singleton in Hin. congruence.
  * intros k2 v2 Hin2. apply Hone. apply elem_of_app. by left.
Qed.

End WithKeys.

Section WithSplit.
Context `{HeaderKeys}.
Variable TrimSpace : string -> string.
Variable SplitHostPort : string -> option (string * string).

(** The upstream request, name by name: the later an assignment, the
earlier its test. *)
Lemma upstreamHeaders_lookup r requestVisited routeVisited key :
upstreamHeaders TrimSpace SplitHostPort r requestVisited routeVisited !! key
= if bool_decide (key ∈ map CanonicalMIMEHeaderKey hopHeaders) then None
else if String.eqb key (CanonicalMIMEHeaderKey "X-Real-IP")
     then Some [getClientIP TrimSpace SplitHostPort r]
else if String.eqb key (CanonicalMIMEHeaderKey "X-Forwarded-Proto")
     then Some [getScheme r]
else if String.eqb key (CanonicalMIMEHeaderKey "X-Forwarded-Host")
     then Some [inHost r]
else if String.eqb key (CanonicalMIMEHeaderKey "X-Forwarded-For")
     then Some [chain TrimSpace SplitHostPort r (base requestVisited routeVisited)]
else base requestVisited routeVisited !! key.
Proof.
unfold upstreamHeaders, removeHopHeaders. rewrite Del_all_lookup.
destruct (bool_decide (key ∈ map CanonicalMIMEHeaderKey hopHeaders)); [done|].
fold (setAll routeVisited (copyHeaders ∅ requestVisited)).
fold (base requestVisited routeVisited).
unfold Set_ at 1.
destruct (String.eqb_spec key (CanonicalMIMEHeaderKey "X-Real-IP")) as [->|N1];
[by rewrite lookup_insert_eq|].
rewrite lookup_insert_ne by done.
unfold Set_ at 1.
destruct (String.eqb_spec key (CanonicalMIMEHeaderKey "X-Forwarded-Proto")) as [->|N2];
[by rewrite lookup_insert_eq|].
rewrite lookup_insert_ne by done.
unfold Set_ at 1.
destruct (String.eqb_spec key (CanonicalMIMEHeaderKey "X-Forwarded-Host")) as [->|N3];
[by rewrite lookup_insert_eq|].
rewrite lookup_insert_ne by done.
unfold chain.
destruct (negb (String.eqb (Get (base requestVisited routeVisited) "X-Forwarded-For") ""));
unfold Set_ at 1;
(destruct (String.eqb_spec key (CanonicalMIMEHeaderKey "X-Forwarded-For")) as [->|N4];
 [by rewrite lookup_insert_eq|by rewrite lookup_insert_ne by done]).
Qed.

End WithSplit.

(** Two of the twelve names at different places differ in canonical
  form. *)
Lemma apart `{HeaderKeyLaws} (i j : nat) (a b : string) :
(hopHeaders ++ forwardingHeaders) !! i = Some a ->
(hopHeaders ++ forwardingHeaders) !! j = Some b ->
i <> j ->
CanonicalMIMEHeaderKey a <> CanonicalMIMEHeaderKey b.
Proof.
intros Ha Hb Hij E. apply Hij.
eapply (NoDup_lookup _ i j); [apply names_distinct| |].
- change (map CanonicalMIMEHeaderKey ?l) with (CanonicalMIMEHeaderKey <$> l).
  rewrite list_lookup_fmap, Ha. reflexivity.
- change (map CanonicalMIMEHeaderKey ?l) with (CanonicalMIMEHeaderKey <$> l).
  rewrite list_lookup_fmap, Hb. cbn. by rewrite E.
Qed.

(** None of the four forwarding names is a hop-by-hop name in canonical
  form. *)
Lemma forwarding_not_hop `{HeaderKeyLaws} (name : string) :
In name forwardingHeaders ->
~ CanonicalMIMEHeaderKey name ∈ map CanonicalMIMEHeaderKey hopHeaders.
Proof.
intros Hf Hhop. apply list_elem_of_In, in_map_iff in Hhop as (hop & E & Hhop).
apply list_elem_of_In, list_elem_of_lookup_1 in Hhop as [i Hi].
apply list_elem_of_In, list_elem_of_lookup_1 in Hf as [j Hj].
assert (i < length hopHeaders)%nat as Hlt by (by eapply lookup_lt_Some).
refine (apart i (length hopHeaders + j) hop name _ _ _ E).
- by apply lookup_app_l_Some.
- rewrite lookup_app_r by lia. by replace (length hopHeaders + j - length hopHeaders)%nat with j by lia.
- lia.
Qed.

(** Decidable facts about given headers are settled by evaluation. *)
Ltac by_evaluation :=
match goal with
| |- ?P => apply (bool_decide_unpack P); vm_compute; exact I
end.

Lemma forwarding_kept `{HeaderKeyLaws} (name : string) :
In name forwardingHeaders ->
bool_decide (CanonicalMIMEHeaderKey name ∈ map CanonicalMIMEHeaderKey hopHeaders) = false.
Proof. intros Hin. apply bool_decide_eq_false_2. by apply forwarding_not_hop. Qed.

Lemma apart_eqb `{HeaderKeyLaws} (i j : nat) (a b : string) :
(hopHeaders ++ forwardingHeaders) !! i = Some a ->
(hopHeaders ++ forwardingHeaders) !! j = Some b ->
i <> j ->
String.eqb (CanonicalMIMEHeaderKey a) (CanonicalMIMEHeaderKey b) = false.
Proof. intros Ha Hb Hij. apply String.eqb_neq. by eapply apart. Qed.

End HeaderFacts.

#[export] Instance asciiCanonicalLaws : @Headers.HeaderKeyLaws Headers.asciiCanonical.
Proof.
  split. HeaderFacts.by_evaluation.
Defined.

(** X25: no hop-by-hop header reaches the upstream or the client.  For each
    of the eight names of [hopHeaders], and for every spelling [key] with
    the same canonical form, the headers [proxyRequest] sends upstream hold
    nothing under it, whatever the request and the route carried and in
    whatever order the maps were visited, and the same holds of the
    response headers after the upstream's were copied into the writer's. *)
Theorem hop_by_hop_headers_are_not_forwarded
        `{Headers.HeaderKeys} (TrimSpace : string -> string)
        (SplitHostPort : string -> option (string * string))
        (r : Headers.Incoming) (requestVisited : list (string * list string))
        (routeVisited : list (string * string))
        (writer : gmap string (list string))
        (responseVisited : list (string * list string)) (name key : string) :
  In name Headers.hopHeaders ->
  Headers.CanonicalMIMEHeaderKey key = Headers.CanonicalMIMEHeaderKey name ->
  let sent := Headers.upstreamHeaders TrimSpace SplitHostPort r requestVisited routeVisited in
  let answered := Headers.responseHeaders writer responseVisited in
  sent !! Headers.CanonicalMIMEHeaderKey key = None
  /\ Headers.Get sent key = ""
  /\ answered !! Headers.CanonicalMIMEHeaderKey key = None
  /\ Headers.Get answered key = "".
Proof.
  intros Hin Hkey sent answered.
  assert (forall h, Headers.removeHopHeaders h !! Headers.CanonicalMIMEHeaderKey key = None)
    as Hgone.
  { intros h. unfold Headers.removeHopHeaders. rewrite HeaderFacts.Del_all_lookup.
    rewrite bool_decide_eq_true_2; [done|].
    rewrite Hkey. apply list_elem_of_In, in_map, Hin. }
  assert (sent !! Headers.CanonicalMIMEHeaderKey key = None) as Hs by apply Hgone.
  assert (answered !! Headers.CanonicalMIMEHeaderKey key = None) as Ha by apply Hgone.
  unfold Headers.Get. by rewrite Hs, Ha.
Qed.

Lemma hop_by_hop_headers_are_not_forwarded_witness :
  let sent := @Headers.upstreamHeaders Headers.asciiCanonical Headers.trimBlanks
                Headers.cutPort Headers.relayed
                (map_to_list (Headers.inHeader Headers.relayed))
                [("connection", "upgrade")] in
  Headers.inHeader Headers.relayed !! "Connection" = Some ["keep-alive"]
  /\ sent !! "Connection" = None.
Proof.
  intros sent. split; [reflexivity|].
  apply (@hop_by_hop_headers_are_not_forwarded Headers.asciiCanonical
           Headers.trimBlanks Headers.cutPort Headers.relayed
           (map_to_list (Headers.inHeader Headers.relayed))
           [("connection", "upgrade")] ∅ [] "Connection" "connection").
  - cbn. tauto.
  - reflexivity.
Defined.

(** X26: the upstream request describes the client in four headers, each
    with exactly one value: [X-Real-IP] is the client address of
    [getClientIP], [X-Forwarded-Host] the host of the request,
    [X-Forwarded-Proto] the scheme of [getScheme], and [X-Forwarded-For]
    is that client address, alone or after a comma behind a non-empty
    chain.  Neither the request nor the headers of the route can put
    anything else there.  The values are stored under the canonical forms
    of the four names. *)
Theorem forwarding_headers_describe_the_client
        `{Headers.HeaderKeyLaws} (TrimSpace : string -> string)
        (SplitHostPort : string -> option (string * string))
        (r : Headers.Incoming) (requestVisited : list (string * list string))
        (routeVisited : list (string * string)) :
  let sent := Headers.upstreamHeaders TrimSpace SplitHostPort r requestVisited routeVisited in
  let clientIP := Headers.getClientIP TrimSpace SplitHostPort r in
  sent !! Headers.CanonicalMIMEHeaderKey "X-Real-IP" = Some [clientIP]
  /\ sent !! Headers.CanonicalMIMEHeaderKey "X-Forwarded-Host" = Some [Headers.inHost r]
  /\ sent !! Headers.CanonicalMIMEHeaderKey "X-Forwarded-Proto" = Some [Headers.getScheme r]
  /\ exists value,
       sent !! Headers.CanonicalMIMEHeaderKey "X-Forwarded-For" = Some [value]
       /\ (value = clientIP
           \/ exists prior, prior <> "" /\ value = (prior ++ ", " ++ clientIP)%string).
Proof.
  intros sent clientIP. subst sent.
  rewrite !HeaderFacts.upstreamHeaders_lookup.
  rewrite !HeaderFacts.forwarding_kept by (cbn; tauto).
  rewrite !String.eqb_refl.
  rewrite (HeaderFacts.apart_eqb 9 11 "X-Forwarded-Host" "X-Real-IP") by (reflexivity || lia).
  rewrite (HeaderFacts.apart_eqb 9 10 "X-Forwarded-Host" "X-Forwarded-Proto")
    by (reflexivity || lia).
  rewrite (HeaderFacts.apart_eqb 10 11 "X-Forwarded-Proto" "X-Real-IP") by (reflexivity || lia).
  rewrite (HeaderFacts.apart_eqb 8 11 "X-Forwarded-For" "X-Real-IP") by (reflexivity || lia).
  rewrite (HeaderFacts.apart_eqb 8 10 "X-Forwarded-For" "X-Forwarded-Proto")
    by (reflexivity || lia).
  rewrite (HeaderFacts.apart_eqb 8 9 "X-Forwarded-For" "X-Forwarded-Host")
    by (reflexivity || lia).
  split; [done|]. split; [done|]. split; [done|].
  eexists. split; [reflexivity|].
  unfold Headers.chain.
  destruct (String.eqb_spec
              (Headers.Get (Headers.base requestVisited routeVisited) "X-Forwarded-For") "")
    as [_|Hne]; cbn [negb]; [by left|].
  right. by eexists.
Qed.

Lemma forwarding_headers_describe_the_client_witness :
  let sent := @Headers.upstreamHeaders Headers.asciiCanonical Headers.trimBlanks
                Headers.cutPort Headers.relayed
                (map_to_list (Headers.inHeader Headers.relayed))
                [("X-Real-IP", "spoofed")] in
  sent !! "X-Real-Ip" = Some ["203.0.113.7"]
  /\ sent !! "X-Forwarded-Host" = Some ["gateway.test"]
  /\ sent !! "X-Forwarded-Proto" = Some ["http"].
Proof.
  intros sent.
  destruct (@forwarding_headers_describe_the_client Headers.asciiCanonical
              asciiCanonicalLaws Headers.trimBlanks Headers.cutPort Headers.relayed
              (map_to_list (Headers.inHeader Headers.relayed))
              [("X-Real-IP", "spoofed")]) as (Hip & Hhost & Hproto & _).
  split; [exact Hip|split; [exact Hhost|exact Hproto]].
Defined.

(** X27: a header of the request that is neither hop-by-hop nor one of the
    four forwarding headers, and that the route does not set, reaches the
    upstream with the values the request had for it, in their order, for
    every order in which the request's header map is visited. *)
Theorem other_request_headers_pass_through
        `{Headers.HeaderKeyLaws} (TrimSpace : string -> string)
        (SplitHostPort : string -> option (string * string))
        (r : Headers.Incoming) (requestVisited : list (string * list string))
        (routeVisited : list (string * string)) (key : string) :
  requestVisited ≡ₚ map_to_list (Headers.inHeader r) ->
  Forall (fun kvv => Headers.CanonicalMIMEHeaderKey (fst kvv) = fst kvv) requestVisited ->
  Forall (fun kv => Headers.CanonicalMIMEHeaderKey (fst kv) <> key) routeVisited ->
  ~ In key (map Headers.CanonicalMIMEHeaderKey
                (Headers.hopHeaders ++ Headers.forwardingHeaders)%list) ->
  default [] (Headers.upstreamHeaders TrimSpace SplitHostPort r requestVisited routeVisited
              !! key)
  = default [] (Headers.inHeader r !! key).
Proof.
  intros Hperm Hcan Hroute Hkey.
  rewrite HeaderFacts.upstreamHeaders_lookup.
  rewrite bool_decide_eq_false_2.
  2:{ intros Hin%list_elem_of_In. apply Hkey. rewrite map_app. apply in_or_app. by left. }
  repeat match goal with
         | |- context [String.eqb key ?name] =>
             destruct (String.eqb_spec key name) as [->|_];
             [exfalso; apply Hkey; rewrite map_app; apply in_or_app; right; cbn; tauto|]
         end.
  unfold Headers.base. rewrite HeaderFacts.setAll_other by done.
  rewrite HeaderFacts.copyHeaders_lookup, lookup_empty. cbn [default app].
  by apply HeaderFacts.gathered_visit.
Qed.

Lemma other_request_headers_pass_through_witness :
  default [] (@Headers.upstreamHeaders Headers.asciiCanonical Headers.trimBlanks
                Headers.cutPort Headers.relayed
                (map_to_list (Headers.inHeader Headers.relayed))
                [("X-Trace", "on")] !! "Accept")
  = ["text/html"; "*/*"].
Proof.
  rewrite (@other_request_headers_pass_through Headers.asciiCanonical
             asciiCanonicalLaws Headers.trimBlanks Headers.cutPort Headers.relayed
             (map_to_list (Headers.inHeader Headers.relayed))
             [("X-Trace", "on")] "Accept").
  - reflexivity.
  - reflexivity.
  - HeaderFacts.by_evaluation.
  - apply Forall_cons. split; [discriminate|apply Forall_nil_2].
  - intros Hin. vm_compute in Hin.
    repeat (destruct Hin as [Hin|Hin]; [discriminate Hin|]). exact Hin.
Defined.

(** X28: a header of the route replaces what the request carried under
    that name: when the route's headers hold one value for a canonical
    name that is neither hop-by-hop nor a forwarding header, the upstream
    request holds exactly that value under it. *)
Theorem route_header_replaces_request_header
        `{Headers.HeaderKeyLaws} (TrimSpace : string -> string)
        (SplitHostPort : string -> option (string * string))
        (r : Headers.Incoming) (requestVisited : list (string * list string))
        (routeVisited : list (string * string)) (k v : string) :
  In (k, v) routeVisited ->
  (forall k' v', In (k', v') routeVisited ->
                 Headers.CanonicalMIMEHeaderKey k' = Headers.CanonicalMIMEHeaderKey k ->
                 v' = v) ->
  ~ In (Headers.CanonicalMIMEHeaderKey k)
       (map Headers.CanonicalMIMEHeaderKey
            (Headers.hopHeaders ++ Headers.forwardingHeaders)%list) ->
  Headers.upstreamHeaders TrimSpace SplitHostPort r requestVisited routeVisited
  !! Headers.CanonicalMIMEHeaderKey k = Some [v].
Proof.
  intros Hin Hone Hkey.
  rewrite HeaderFacts.upstreamHeaders_lookup.
  rewrite bool_decide_eq_false_2.
  2:{ intros Hhop%list_elem_of_In. apply Hkey. rewrite map_app. apply in_or_app. by left. }
  repeat match goal with
         | |- context [String.eqb (Headers.CanonicalMIMEHeaderKey k) ?name] =>
             destruct (String.eqb_spec (Headers.CanonicalMIMEHeaderKey k) name) as [E|_];
             [exfalso; apply Hkey; rewrite E, map_app; apply in_or_app; right; cbn; tauto|]
         end.
  unfold Headers.base. apply HeaderFacts.setAll_entry.
  - by apply list_elem_of_In.
  - intros k' v' Hin'%list_elem_of_In. by apply Hone.
Qed.

Lemma route_header_replaces_request_header_witness :
  @Headers.upstreamHeaders Headers.asciiCanonical Headers.trimBlanks
     Headers.cutPort Headers.relayed
     (map_to_list (Headers.inHeader Headers.relayed))
     [("accept", "application/json")] !! "Accept"
  = Some ["application/json"].
Proof.
  apply (@route_header_replaces_request_header Headers.asciiCanonical
           asciiCanonicalLaws Headers.trimBlanks Headers.cutPort Headers.relayed
           (map_to_list (Headers.inHeader Headers.relayed))
           [("accept", "application/json")] "accept" "application/json").
  - cbn. tauto.
  - intros k' v' Hin' _. cbn in Hin'. destruct Hin' as [E|[]]. congruence.
  - intros Hin. vm_compute in Hin.
    repeat (destruct Hin as [Hin|Hin]; [discriminate Hin|]). exact Hin.
Defined.

(** X29: what [X-Forwarded-For] becomes.  When the request carries a
    non-empty chain and the route does not set the header, the upstream
    gets that chain followed by a comma, a space and the chain's own first
    address with the blanks around it trimmed; the address of the peer is
    not used.  When the request carries none, the upstream gets the
    [X-Real-IP] of the request if that is not empty, and otherwise the
    host part of the peer's address, or that address as it is when it
    does not split. *)
Theorem forwarded_for_repeats_the_first_address
        `{Headers.HeaderKeyLaws} (TrimSpace : string -> string)
        (SplitHostPort : string -> option (string * string))
        (r : Headers.Incoming) (requestVisited : list (string * list string))
        (routeVisited : list (string * string)) :
  requestVisited ≡ₚ map_to_list (Headers.inHeader r) ->
  Forall (fun kvv => Headers.CanonicalMIMEHeaderKey (fst kvv) = fst kvv) requestVisited ->
  Forall (fun kv => Headers.CanonicalMIMEHeaderKey (fst kv)
                    <> Headers.CanonicalMIMEHeaderKey "X-Forwarded-For") routeVisited ->
  let sent := Headers.upstreamHeaders TrimSpace SplitHostPort r requestVisited routeVisited in
  let prior := Headers.Get (Headers.inHeader r) "X-Forwarded-For" in
  let realIP := Headers.Get (Headers.inHeader r) "X-Real-IP" in
  (prior <> "" ->
   sent !! Headers.CanonicalMIMEHeaderKey "X-Forwarded-For"
   = Some [(prior ++ ", " ++ TrimSpace (hd "" (GoStrings.Split "," prior)))%string])
  /\ (prior = "" -> realIP <> "" ->
      sent !! Headers.CanonicalMIMEHeaderKey "X-Forwarded-For" = Some [realIP])
  /\ (prior = "" -> realIP = "" ->
      sent !! Headers.CanonicalMIMEHeaderKey "X-Forwarded-For"
      = Some [match SplitHostPort (Headers.inRemoteAddr r) with
              | Some (ip, _) => ip
              | None => Headers.inRemoteAddr r
              end]).
Proof.
  intros Hperm Hcan Hroute sent prior realIP. subst sent.
  rewrite HeaderFacts.upstreamHeaders_lookup.
  rewrite HeaderFacts.forwarding_kept by (cbn; tauto).
  rewrite String.eqb_refl.
  rewrite (HeaderFacts.apart_eqb 8 11 "X-Forwarded-For" "X-Real-IP") by (reflexivity || lia).
  rewrite (HeaderFacts.apart_eqb 8 10 "X-Forwarded-For" "X-Forwarded-Proto")
    by (reflexivity || lia).
  rewrite (HeaderFacts.apart_eqb 8 9 "X-Forwarded-For" "X-Forwarded-Host")
    by (reflexivity || lia).
  assert (Headers.Get (Headers.base requestVisited routeVisited) "X-Forwarded-For" = prior)
    as Hbase.
  { apply HeaderFacts.Get_same_values.
    unfold Headers.base. rewrite HeaderFacts.setAll_other by done.
    rewrite HeaderFacts.copyHeaders_lookup, lookup_empty. cbn [default app].
    by apply HeaderFacts.gathered_visit. }
  unfold Headers.chain. rewrite Hbase.
  unfold Headers.getClientIP. fold prior. fold realIP.
  repeat split.
  - intros Hne. by destruct (String.eqb_spec prior "").
  - intros -> Hne. cbn. by destruct (String.eqb_spec realIP "").
  - intros -> ->. reflexivity.
Qed.

Lemma forwarded_for_repeats_the_first_address_witness :
  @Headers.upstreamHeaders Headers.asciiCanonical Headers.trimBlanks
     Headers.cutPort Headers.relayed
     (map_to_list (Headers.inHeader Headers.relayed)) [] !! "X-Forwarded-For"
  = Some ["203.0.113.7, 10.1.1.1, 203.0.113.7"].
Proof.
  destruct (@forwarded_for_repeats_the_first_address Headers.asciiCanonical
              asciiCanonicalLaws Headers.trimBlanks Headers.cutPort Headers.relayed
              (map_to_list (Headers.inHeader Headers.relayed)) [])
    as (Hchain & _).
  - reflexivity.
  - HeaderFacts.by_evaluation.
  - apply Forall_nil_2.
  - apply Hchain. discriminate.
Defined.

(** X30: the response keeps what the writer already held and gets the
    upstream's values after it.  For every key that is not a hop-by-hop
    name, the response headers hold the writer's values for it followed
    by those of the upstream's response, for every order in which the
    response's header map is visited. *)
Theorem response_headers_follow_the_writers
        `{Headers.HeaderKeys} (writer response : gmap string (list string))
        (responseVisited : list (string * list string)) (key : string) :
  responseVisited ≡ₚ map_to_list response ->
  Forall (fun kvv => Headers.CanonicalMIMEHeaderKey (fst kvv) = fst kvv) responseVisited ->
  ~ In key (map Headers.CanonicalMIMEHeaderKey Headers.hopHeaders) ->
  default [] (Headers.responseHeaders writer responseVisited !! key)
  = (default [] (writer !! key) ++ default [] (response !! key))%list.
Proof.
  intros Hperm Hcan Hkey.
  unfold Headers.responseHeaders, Headers.removeHopHeaders.
  rewrite HeaderFacts.Del_all_lookup.
  rewrite bool_decide_eq_false_2 by (by intros Hin%list_elem_of_In).
  rewrite HeaderFacts.copyHeaders_lookup. f_equal.
  by apply HeaderFacts.gathered_visit.
Qed.

Lemma response_headers_follow_the_writers_witness :
  let response : gmap string (list string) :=
    {[ "Set-Cookie" := ["a=1"; "b=2"]; "Connection" := ["close"] ]} in
  default [] (@Headers.responseHeaders Headers.asciiCanonical
                {[ "Set-Cookie" := ["session=x"] ]} (map_to_list response)
              !! "Set-Cookie")
  = ["session=x"; "a=1"; "b=2"].
Proof.
  intros response.
  rewrite (@response_headers_follow_the_writers Headers.asciiCanonical
             {[ "Set-Cookie" := ["session=x"] ]} response (map_to_list response)
             "Set-Cookie").
  - reflexivity.
  - reflexivity.
  - HeaderFacts.by_evaluation.
  - intros Hin. vm_compute in Hin.
    repeat (destruct Hin as [Hin|Hin]; [discriminate Hin|]). exact Hin.
Defined.
